(** * Q-CapsNets: the staged bit-width search of [q_capsnets.py]

    A shallow embedding of [qcapsnets] (src/q_capsnets.py) and the
    properties of its four stages.

    Modelling conventions.
    - Bit-widths are Python integers: [Z].  List positions come from
      [enumerate]/[range] and are never negative: [nat].
    - Accuracies, SQNR values and the memory budget are Python floats; they
      are modelled as exact rationals ([Q]), so rounding of the float
      arithmetic is abstracted away.  The thresholds computed from them
      ([minimum_accuracy] and the floors of the stages) are the exact values
      here; the binary64 values of the code can differ from them in the last
      place (a top accuracy of 80.4 with a tolerance of 5 gives
      76.38000000000001), so the code can compare an accuracy that lies within
      rounding distance of a threshold differently.
    - The accuracy oracle [quantized_test] is external.  It is a parameter of
      the development, with a hidden state of its own that is threaded
      through every call, so that an oracle that answers differently from one
      call to the next can be expressed.  Every call is recorded in a log.
    - Python exceptions are results ([Raise]); [while] loops carry fuel. *)

From Stdlib Require Import ZArith QArith Qround Lqa Lia String.
From stdpp Require Import base list sorting sets strings gmap.

Set Default Proof Using "Type".

(** ** Results and exceptions *)

Inductive exn : Type :=
| IndexError
| UnboundLocalError (var : string)
| ZeroDivisionError
| StopIteration
| OverflowError
| ValueError.

Inductive res (A : Type) : Type :=
| Ok (a : A)
| Raise (e : exn)
| OutOfFuel.
Arguments Ok {A} a.
Arguments Raise {A} e.
Arguments OutOfFuel {A}.

(** ** Float comparisons and conversions *)

Definition Qltb (a b : Q) : bool := negb (Qle_bool b a).

(** [int(x)] on a float: truncation toward zero. *)
Definition py_int (x : Q) : Z := Z.quot (Qnum x) (Z.pos (Qden x)).

(** ** Data model *)

(** One leaf module, as far as the search looks at it:
    [sum(p.numel() for p in c.parameters())] and the two flags tested by
    [children.capsule_layer and children.dynamic_routing]. *)
Record Leaf : Type := {
  numel : nat;
  capsule_layer : bool;
  dynamic_routing : bool
}.

Definition routes (c : Leaf) : bool := capsule_layer c && dynamic_routing c.

(** What [qcapsnets] reads from the model, the two statistics files and its
    arguments. *)
Record Inputs : Type := {
  leaf_children : list Leaf;        (* get_leaf_modules, pre-order *)
  weight_sqnr : list Q;             (* value[2] of the "weight", non-"batchnorm" keys of _w_info *)
  act_info_sqnr : list Q;           (* act_info["sqnr"].values() *)
  tot_numer_of_weights : nat;       (* numel of all parameters of the model *)
  top_accuracy : Q;
  accuracy_tolerance : Q;
  memory_budget : Q                 (* MB *)
}.

(** A configuration handed to the oracle: the widths the weights of the
    evaluated copy were quantized with, the activation widths and the
    dynamic-routing widths. *)
Record Config : Type := {
  weight_bits : list Z;
  act_bits : list Z;
  dr_bits : list Z
}.

Record Deliverable : Type := {
  d_weight_bits : list Z;
  d_act_bits : list Z;
  d_dr_bits : list Z;
  d_acc : Q;
  d_wmem_reduction : Q
}.

(** The three shapes [qcapsnets] returns. *)
Inductive Returned : Type :=
| RetError (minimum_mem_required : Z)
| RetBranch (model_memory model_accuracy : Deliverable)
| RetSatisfied (model_satisfied : Deliverable).

(** ** Sensitivity orderings *)

(** [list.sort(key=..., reverse=...)] is stable; the result of a stable sort
    is determined by the keys and the original positions, so an insertion
    sort that keeps earlier elements first among equal keys computes it.
    [before a b] holds when key [a] goes strictly before key [b]. *)
Fixpoint insert_by (before : Q -> Q -> bool) (x : Q * nat) (l : list (Q * nat))
  : list (Q * nat) :=
  match l with
  | [] => [x]
  | y :: l' => if before y.1 x.1 then y :: insert_by before x l' else x :: y :: l'
  end.

Definition stable_sort (before : Q -> Q -> bool) (l : list (Q * nat)) : list (Q * nat) :=
  foldr (insert_by before) [] l.

(** [x] may stand in front of [y] in a list sorted by [before]: [y] does not
    go strictly before [x]. *)
Definition may_precede (before : Q -> Q -> bool) (x y : Q * nat) : Prop :=
  before y.1 x.1 = false.

Definition enumerate_sqnr (l : list Q) : list (Q * nat) := zip l (seq 0 (length l)).

(** [sqnr_tuples.sort(key=lambda tup: tup[1], reverse=True)] *)
Definition sqnr_tuples (inp : Inputs) : list (Q * nat) :=
  stable_sort (fun a b => Qltb b a) (enumerate_sqnr (weight_sqnr inp)).

(** [act_sqnr.sort(key=lambda tup: tup[1], reverse=False)] *)
Definition act_sqnr (inp : Inputs) : list (Q * nat) :=
  stable_sort (fun a b => Qltb a b) (enumerate_sqnr (act_info_sqnr inp)).

(** [[act_sqnr[i][2] for i in range(a, b)]] *)
Definition index_range (s : list (Q * nat)) (a b : nat) : list nat :=
  (take (b - a) (drop a s)).*2.

Definition group_indices (s : list (Q * nat)) : list (list nat) :=
  if (4 <? length s)%nat then
    let k := (length s / 4)%nat in
    [ index_range s 0 k; index_range s k (2 * k);
      index_range s (2 * k) (3 * k); index_range s (3 * k) (length s) ]
  else map (fun t => [t.2]) s.

Definition act_sqnr_grouped_index (inp : Inputs) : list (list nat) :=
  group_indices (act_sqnr inp).

(** ** Accuracy thresholds and memory arithmetic *)

Definition minimum_accuracy (inp : Inputs) : Q :=
  top_accuracy inp - accuracy_tolerance inp / 100 * top_accuracy inp.

Definition step1_min_acc (inp : Inputs) : Q :=
  top_accuracy inp - 5 / 100 * (top_accuracy inp - minimum_accuracy inp).

Definition tot_memory_b (inp : Inputs) : Z := Z.of_nat (tot_numer_of_weights inp) * 32.

Definition number_of_weights_inlayers (inp : Inputs) : list Z :=
  map (fun c => Z.of_nat (numel c)) (leaf_children inp).

Definition memory_budget_bits (inp : Inputs) : Q :=
  memory_budget inp * 8 * inject_Z (2 ^ 20).

Definition sumZ (l : list Z) : Z := foldr Z.add 0%Z l.

Definition minimum_mem_required (inp : Inputs) : Z :=
  sumZ (number_of_weights_inlayers inp).

(** [sum([bits[i] * number_of_weights_inlayers[i] for i in range(len(bits))])];
    both lists have one entry per leaf. *)
Definition weight_memory (inp : Inputs) (bits : list Z) : Z :=
  sumZ (zip_with Z.mul bits (number_of_weights_inlayers inp)).

(** ** The search monad: oracle state, call log, exceptions, fuel *)

Record World (St : Type) : Type := {
  ost : St;
  log : list (Config * Q)
}.
Arguments ost {St} _.
Arguments log {St} _.

Definition M (St A : Type) : Type := World St -> res A * World St.

Definition ret {St A} (a : A) : M St A := fun w => (Ok a, w).
Definition throw {St A} (e : exn) : M St A := fun w => (Raise e, w).
Definition out_of_fuel {St A} : M St A := fun w => (OutOfFuel, w).
Definition bind {St A B} (m : M St A) (k : A -> M St B) : M St B :=
  fun w => match m w with
           | (Ok a, w') => k a w'
           | (Raise e, w') => (Raise e, w')
           | (OutOfFuel, w') => (OutOfFuel, w')
           end.

Notation "'do' x <- c ; k" := (bind c (fun x => k))
  (at level 10, x name, c at level 100, k at level 200).
Notation "'do' ' p <- c ; k" := (bind c (fun x => match x with p => k end))
  (at level 10, p pattern, c at level 100, k at level 200).

(** [l[i]] and [l[i] = v] for [i >= 0]. *)
Definition getitem {St A} (l : list A) (i : nat) : M St A :=
  match l !! i with
  | Some x => ret x
  | None => throw IndexError
  end.

Definition setitem {St A} (l : list A) (i : nat) (v : A) : M St (list A) :=
  match l !! i with
  | Some _ => ret (<[i := v]> l)
  | None => throw IndexError
  end.

(** [l[-k]] for [k >= 1]. *)
Definition getitem_neg {St A} (l : list A) (k : nat) : M St A :=
  if (length l <? k)%nat then throw IndexError else getitem l (length l - k).

(** Reading a local that may not have been assigned yet. *)
Definition read_local {St A} (var : string) (v : option A) : M St A :=
  match v with
  | Some x => ret x
  | None => throw (UnboundLocalError var)
  end.

(** [a / b] on floats. *)
Definition truediv {St} (a b : Q) : M St Q :=
  if Qeq_bool b 0 then throw ZeroDivisionError else ret (a / b)%Q.

(** ** The pipeline *)

Section Search.
Context {St : Type}.
(** The accuracy oracle: [quantized_test] on a copy of the full-precision
    model whose weights were quantized with [weight_bits]. *)
Variable quantized_test : Config -> St -> Q * St.
Variable inp : Inputs.

Definition evaluate (c : Config) : M St Q :=
  fun w => let '(a, s) := quantized_test c (ost w) in
           (Ok a, {| ost := s; log := log w ++ [(c, a)] |}).

(** *** STEP 1: layer-uniform binary search *)

(** The three lists [step1_quantization_test] builds from one width. *)
Definition uniform_config (quantization_bits : Z) : Config :=
  {| weight_bits := map (fun _ => quantization_bits) (leaf_children inp);
     act_bits := map (fun _ => quantization_bits) (leaf_children inp);
     dr_bits := map (fun _ => quantization_bits) (filter routes (leaf_children inp)) |}.

Definition step1_quantization_test (quantization_bits : Z) : M St Q :=
  evaluate (uniform_config quantization_bits).

Record Step1Lists : Type := {
  step1_bit_search : list Z;
  step1_acc_list : list Q;
  step1_bit_search_sat : list bool
}.

(** [next(k for k, val in enumerate(l) if val)] *)
Fixpoint next_true (l : list bool) : option nat :=
  match l with
  | [] => None
  | b :: l' => if b then Some 0%nat else S <$> next_true l'
  end.

Definition next_true_m (l : list bool) : M St nat :=
  match next_true l with
  | Some k => ret k
  | None => throw StopIteration
  end.

(** The two selections made when the search converges: the width is picked
    through the reversed list of flags, the accuracy through the list put
    back in trial order. *)
Definition step1_select (s : Step1Lists) : M St (Z * Q) :=
  do k <- next_true_m (reverse (step1_bit_search_sat s));
  do step1_bits <- getitem (step1_bit_search s) (length (step1_bit_search_sat s) - 1 - k);
  do k' <- next_true_m (step1_bit_search_sat s);
  do step1_acc <- getitem (step1_acc_list s) (length (step1_bit_search_sat s) - 1 - k');
  ret (step1_bits, step1_acc).

Fixpoint step1_while (fuel : nat) (s : Step1Lists) : M St (Z * Q * Step1Lists) :=
  match fuel with
  | O => out_of_fuel
  | S fuel' =>
      do cur <- getitem_neg (step1_bit_search s) 1;
      do step1_acc <- step1_quantization_test cur;
      let s1 := {| step1_bit_search := step1_bit_search s;
                   step1_acc_list := step1_acc_list s ++ [step1_acc];
                   step1_bit_search_sat :=
                     step1_bit_search_sat s ++ [Qltb (step1_min_acc inp) step1_acc] |} in
      do prev <- getitem_neg (step1_bit_search s) 2;
      if (Z.abs (cur - prev) =? 1)%Z then
        do r <- step1_select s1;
        ret (r, s1)
      else
        let half := (inject_Z (Z.abs (cur - prev)) / 2)%Q in
        let next := if Qltb (step1_min_acc inp) step1_acc
                    then py_int (inject_Z cur - half)
                    else py_int (inject_Z cur + half) in
        step1_while fuel'
          {| step1_bit_search := step1_bit_search s1 ++ [next];
             step1_acc_list := step1_acc_list s1;
             step1_bit_search_sat := step1_bit_search_sat s1 |}
  end.

Definition step1_search (fuel : nat) : M St (Z * Q * Step1Lists) :=
  do step1_acc <- step1_quantization_test 32;
  if Qltb (step1_min_acc inp) step1_acc then
    step1_while fuel {| step1_bit_search := [32%Z; 16%Z];
                        step1_acc_list := [step1_acc];
                        step1_bit_search_sat := [true] |}
  else
    ret (32%Z, step1_acc, {| step1_bit_search := [32%Z];
                             step1_acc_list := [step1_acc];
                             step1_bit_search_sat := [] |}).

(** The lists of bits of STEP 1. *)
Definition step1_weight_bits (step1_bits : Z) : list Z :=
  map (fun _ => step1_bits) (leaf_children inp).
Definition step1_act_bits (step1_bits : Z) : list Z :=
  map (fun _ => step1_bits) (leaf_children inp).
Definition step1_dr_bits (step1_bits : Z) : list Z :=
  map (fun _ => step1_bits) (filter routes (leaf_children inp)).

Definition mk_config (w a d : list Z) : Config :=
  {| weight_bits := w; act_bits := a; dr_bits := d |}.

(** *** STEP 2: satisfy the memory requirement *)

(** [math.floor(memory_budget_bits / minimum_mem_required)].  The divisor is
    a numpy scalar: a zero divisor gives [inf] or [nan], which [math.floor]
    refuses. *)
Definition uniform_memory_bits : M St Z :=
  if (minimum_mem_required inp =? 0)%Z then
    if Qeq_bool (memory_budget_bits inp) 0 then throw ValueError else throw OverflowError
  else ret (Qfloor (memory_budget_bits inp / inject_Z (minimum_mem_required inp))).

(** [tot_memory_b / final_weight_memory_b] on two Python integers. *)
Definition wmem_reduction (bits : list Z) : M St Q :=
  truediv (inject_Z (tot_memory_b inp)) (inject_Z (weight_memory inp bits)).

(** Raise phase: [while step2_acc < minimum_accuracy]. *)
Fixpoint step2_raise (fuel : nat) (a d : list Z) (w : list Z) (acc : Q) {struct fuel}
  : M St (list Z * Q) :=
  if Qltb acc (minimum_accuracy inp) then
    match fuel with
    | O => out_of_fuel
    | S fuel' =>
        let w' := map (fun b => (b + 1)%Z) w in
        do acc' <- evaluate (mk_config w' a d);
        step2_raise fuel' a d w' acc'
    end
  else ret (w, acc).

Record Step2State : Type := {
  step2_weight_bits : list Z;
  step2_acc : Q;
  prev_step2_acc : option Q          (* [None]: not assigned yet *)
}.

(** Lower phase, one layer:
    [while step2_acc > minimum_accuracy and step2_weight_bits[l[2]] > 1]. *)
Fixpoint step2_lower_while (fuel : nat) (a d : list Z) (i : nat) (s : Step2State)
  {struct fuel} : M St Step2State :=
  if Qltb (minimum_accuracy inp) (step2_acc s) then
    do b <- getitem (step2_weight_bits s) i;
    if (1 <? b)%Z then
      match fuel with
      | O => out_of_fuel
      | S fuel' =>
          let w' := <[i := (b - 1)%Z]> (step2_weight_bits s) in
          do acc' <- evaluate (mk_config w' a d);
          step2_lower_while fuel' a d i
            {| step2_weight_bits := w'; step2_acc := acc';
               prev_step2_acc := Some (step2_acc s) |}
      end
    else ret s
  else ret s.

(** What follows the inner loop for one layer: the unconditional
    [+= 1], the restore of the accuracy, and the memory test.  The flag is
    [true] when the budget is met ([break]). *)
Definition step2_restore (i : nat) (s1 : Step2State) : M St (bool * Step2State) :=
  do b <- getitem (step2_weight_bits s1) i;
  let w2 := <[i := (b + 1)%Z]> (step2_weight_bits s1) in
  do acc2 <- read_local "prev_step2_acc" (prev_step2_acc s1);
  let curr_mem := weight_memory inp w2 in
  ret (Qle_bool (inject_Z curr_mem) (memory_budget_bits inp),
       {| step2_weight_bits := w2; step2_acc := acc2;
          prev_step2_acc := prev_step2_acc s1 |}).

(** [for l in sqnr_tuples]; returns [branchB] and the state. *)
Fixpoint step2_lower_for (fuel : nat) (a d : list Z) (tuples : list (Q * nat))
  (s : Step2State) : M St (bool * Step2State) :=
  match tuples with
  | [] => ret (true, s)
  | l :: rest =>
      do s1 <- step2_lower_while fuel a d l.2 s;
      do ' (fits, s2) <- step2_restore l.2 s1;
      if fits then ret (false, s2) else step2_lower_for fuel a d rest s2
  end.

(** The end of STEP 2.  With [branchB] set, both constraints could not be
    met: the uniform memory candidate saved in [model_memory_*] and the
    current configuration are returned together (the current one is
    evaluated once more; that accuracy is only printed).  Otherwise the
    current configuration goes on to STEP 3A. *)
Definition step2_finish (model_memory_weight_bits a d : list Z) (model_memory_acc : Q)
  (branchB : bool) (s : Step2State) : M St (Returned + Config * Q) :=
  if branchB then
    do wmem_reduction_mem <- wmem_reduction model_memory_weight_bits;
    do model_accuracy_acc <- evaluate (mk_config (step2_weight_bits s) a d);
    do wmem_reduction_acc <- wmem_reduction (step2_weight_bits s);
    ret (inl (RetBranch
                {| d_weight_bits := model_memory_weight_bits; d_act_bits := a;
                   d_dr_bits := d; d_acc := model_memory_acc;
                   d_wmem_reduction := wmem_reduction_mem |}
                {| d_weight_bits := step2_weight_bits s; d_act_bits := a; d_dr_bits := d;
                   d_acc := step2_acc s; d_wmem_reduction := wmem_reduction_acc |}))
  else ret (inr (mk_config (step2_weight_bits s) a d, step2_acc s)).

Definition step2 (fuel : nat) (step1_bits : Z) : M St (Returned + Config * Q) :=
  if Qltb (memory_budget_bits inp) (inject_Z (minimum_mem_required inp)) then
    ret (inl (RetError (minimum_mem_required inp)))
  else
    do b2 <- uniform_memory_bits;
    let w0 := map (fun _ => b2) (step1_weight_bits step1_bits) in
    let a := step1_act_bits step1_bits in
    let d := step1_dr_bits step1_bits in
    do model_memory_acc <- evaluate (mk_config w0 a d);
    do ' (branchB, s) <-
      (if Qle_bool (minimum_accuracy inp) model_memory_acc then
         ret (false, {| step2_weight_bits := w0; step2_acc := model_memory_acc;
                        prev_step2_acc := None |})
       else
         do ' (w1, acc1) <- step2_raise fuel a d w0 model_memory_acc;
         step2_lower_for fuel a d (sqnr_tuples inp)
           {| step2_weight_bits := w1; step2_acc := acc1; prev_step2_acc := None |});
    step2_finish w0 a d model_memory_acc branchB s.

(** *** STEP 3A: layer-wise quantization of the activations *)

Record Step3aState : Type := {
  step3a_act_bits : list Z;
  step3a_acc : Q;
  step3a_acc_prev : option Q;
  curr_bits : Z
}.

(** [for i in range(len(group)): act[group[i]] -= 1; curr_bits = act[group[i]]] *)
Fixpoint decrement_group (group : list nat) (act : list Z) (curr : Z) : M St (list Z * Z) :=
  match group with
  | [] => ret (act, curr)
  | i :: group' =>
      do b <- getitem act i;
      decrement_group group' (<[i := (b - 1)%Z]> act) (b - 1)%Z
  end.

(** [for i in range(len(group)): act[group[i]] += 1] *)
Fixpoint increment_group (group : list nat) (act : list Z) : M St (list Z) :=
  match group with
  | [] => ret act
  | i :: group' =>
      do b <- getitem act i;
      increment_group group' (<[i := (b + 1)%Z]> act)
  end.

(** The [while True] of one group. *)
Fixpoint step3a_while (fuel : nat) (w d : list Z) (group : list nat) (step3A_min_acc : Q)
  (s : Step3aState) : M St Step3aState :=
  match fuel with
  | O => out_of_fuel
  | S fuel' =>
      if Qle_bool step3A_min_acc (step3a_acc s) then
        if (curr_bits s <? 3)%Z then ret s
        else
          do ' (act', curr') <- decrement_group group (step3a_act_bits s) (curr_bits s);
          do acc' <- evaluate (mk_config w act' d);
          step3a_while fuel' w d group step3A_min_acc
            {| step3a_act_bits := act'; step3a_acc := acc';
               step3a_acc_prev := Some (step3a_acc s); curr_bits := curr' |}
      else
        do act' <- increment_group group (step3a_act_bits s);
        do acc' <- read_local "step3a_acc_prev" (step3a_acc_prev s);
        ret {| step3a_act_bits := act'; step3a_acc := acc';
               step3a_acc_prev := step3a_acc_prev s; curr_bits := curr_bits s |}
  end.

(** [for l in range(0, len(act_sqnr_grouped_index))] *)
Fixpoint step3a_for (fuel : nat) (w d : list Z) (per_step : Q) (start_bits : Z)
  (groups : list (list nat)) (step3A_min_acc : Q) (s : Step3aState) : M St Step3aState :=
  match groups with
  | [] => ret s
  | group :: rest =>
      let min_acc := (step3A_min_acc - per_step)%Q in
      do s' <- step3a_while fuel w d group min_acc
                 {| step3a_act_bits := step3a_act_bits s; step3a_acc := step3a_acc s;
                    step3a_acc_prev := step3a_acc_prev s; curr_bits := start_bits |};
      step3a_for fuel w d per_step start_bits rest min_acc s'
  end.

Definition step3a_accuracy_budget (step2_acc : Q) : Q :=
  ((step2_acc - minimum_accuracy inp) * 55 / 100)%Q.

Definition step3a (fuel : nat) (c : Config) (step2_acc : Q) : M St (Config * Q) :=
  do per_step <- truediv (step3a_accuracy_budget step2_acc)
                   (inject_Z (Z.of_nat (length (act_sqnr_grouped_index inp))));
  do start_bits <- getitem (act_bits c) 0;
  do s <- step3a_for fuel (weight_bits c) (dr_bits c) per_step start_bits
            (act_sqnr_grouped_index inp) step2_acc
            {| step3a_act_bits := act_bits c; step3a_acc := step2_acc;
               step3a_acc_prev := None; curr_bits := start_bits |};
  ret (mk_config (weight_bits c) (step3a_act_bits s) (dr_bits c), step3a_acc s).

(** *** STEP 4A: layer-wise quantization of the dynamic routing *)

(** One [True] per leaf with [capsule_layer and dynamic_routing]. *)
Definition dynamic_routing_quantization : list bool :=
  map (fun _ => true) (filter routes (leaf_children inp)).

(** [[pos for pos, val in enumerate(l) if val]] *)
Definition positions_true (l : list bool) : list nat :=
  (filter (fun p => p.2 = true) (zip (seq 0 (length l)) l)).*1.

Definition dr_quantization_pos : list nat := positions_true dynamic_routing_quantization.

(** [[bits[x] for x in pos]] *)
Fixpoint gather (bits : list Z) (pos : list nat) : M St (list Z) :=
  match pos with
  | [] => ret []
  | x :: pos' =>
      do b <- getitem bits x;
      do bs <- gather bits pos';
      ret (b :: bs)
  end.

(** [for x in range(len(q)): bits[pos[x]] = q[x]]; [q] and [pos] have the
    same length. *)
Fixpoint scatter (bits : list Z) (pos : list nat) (q : list Z) : M St (list Z) :=
  match pos, q with
  | p :: pos', v :: q' =>
      do bits' <- setitem bits p v;
      scatter bits' pos' q'
  | _, _ => ret bits
  end.

(** The same loop in the roll-back arm, where the accuracy is restored
    inside the loop body. *)
Fixpoint scatter_restore (bits : list Z) (pos : list nat) (q : list Z)
  (acc : Q) (prev : option Q) : M St (list Z * Q) :=
  match pos, q with
  | p :: pos', v :: q' =>
      do bits' <- setitem bits p v;
      do acc' <- read_local "step4a_acc_prev" prev;
      scatter_restore bits' pos' q' acc' prev
  | _, _ => ret (bits, acc)
  end.

Record Step4aState : Type := {
  dr_quantization_bits : list Z;
  step4a_dr_bits : list Z;
  step4a_acc : Q;
  step4a_acc_prev : option Q
}.

Fixpoint step4a_while (fuel : nat) (w a : list Z) (l : nat) (step4a_min_acc : Q)
  (s : Step4aState) : M St Step4aState :=
  match fuel with
  | O => out_of_fuel
  | S fuel' =>
      if Qle_bool step4a_min_acc (step4a_acc s) then
        do b <- getitem (dr_quantization_bits s) l;
        if (b <? 3)%Z then ret s
        else
          let q' := <[l := (b - 1)%Z]> (dr_quantization_bits s) in
          do d' <- scatter (step4a_dr_bits s) dr_quantization_pos q';
          do acc' <- evaluate (mk_config w a d');
          step4a_while fuel' w a l step4a_min_acc
            {| dr_quantization_bits := q'; step4a_dr_bits := d'; step4a_acc := acc';
               step4a_acc_prev := Some (step4a_acc s) |}
      else
        do b <- getitem (dr_quantization_bits s) l;
        let q' := <[l := (b + 1)%Z]> (dr_quantization_bits s) in
        do ' (d', acc') <- scatter_restore (step4a_dr_bits s) dr_quantization_pos q'
                             (step4a_acc s) (step4a_acc_prev s);
        ret {| dr_quantization_bits := q'; step4a_dr_bits := d'; step4a_acc := acc';
               step4a_acc_prev := step4a_acc_prev s |}
  end.

(** [for l in range(0, len(dr_quantization_bits))] *)
Fixpoint step4a_for (fuel : nat) (w a : list Z) (per_step : Q) (ls : list nat)
  (step4a_min_acc : Q) (s : Step4aState) : M St Step4aState :=
  match ls with
  | [] => ret s
  | l :: rest =>
      let min_acc := (step4a_min_acc - per_step)%Q in
      do s' <- step4a_while fuel w a l min_acc s;
      step4a_for fuel w a per_step rest min_acc s'
  end.

Definition step4a (fuel : nat) (c : Config) (step3a_acc : Q) : M St Returned :=
  do q <- gather (dr_bits c) dr_quantization_pos;
  let step4a_accuracy_budget := (step3a_acc - minimum_accuracy inp)%Q in
  do per_step <- truediv step4a_accuracy_budget (inject_Z (Z.of_nat (length q)));
  do s <- step4a_for fuel (weight_bits c) (act_bits c) per_step (seq 0 (length q)) step3a_acc
            {| dr_quantization_bits := q; step4a_dr_bits := dr_bits c;
               step4a_acc := step3a_acc; step4a_acc_prev := None |};
  do reduction <- wmem_reduction (weight_bits c);
  ret (RetSatisfied
         {| d_weight_bits := weight_bits c; d_act_bits := act_bits c;
            d_dr_bits := step4a_dr_bits s; d_acc := step4a_acc s;
            d_wmem_reduction := reduction |}).

(** *** The whole function *)

Definition qcapsnets (fuel : nat) : M St Returned :=
  do ' (step1_bits, _, _) <- step1_search fuel;
  do r <- step2 fuel step1_bits;
  match r with
  | inl returned => ret returned
  | inr (c, step2_acc) =>
      do ' (c3, step3a_acc) <- step3a fuel c step2_acc;
      step4a fuel c3 step3a_acc
  end.
End Search.

Arguments qcapsnets {St} quantized_test inp fuel.

(** ** Running the search on concrete oracles *)

(** An oracle without hidden state, given by a function of the configuration. *)
Definition pure_oracle (f : Config -> Q) : Config -> unit -> Q * unit :=
  fun c _ => (f c, tt).

Definition start {St} (s : St) : World St := {| ost := s; log := [] |}.

(** ** Specification-side definitions for STEP 1 *)

Section Step1Spec.
Context {St : Type}.
Variable quantized_test : Config -> St -> Q * St.
Variable inp : Inputs.

(** A width passes when the measured accuracy is strictly above the
    STEP 1 floor. *)
Definition passes (a : Q) : bool := Qltb (step1_min_acc inp) a.

(** Some evaluation of the uniform width [b] passed (failed). *)
Definition measured (b : Z) (verdict : bool) : Prop :=
  exists s, passes (quantized_test (uniform_config inp b) s).1 = verdict.

(** Loop invariant at the head of the [while True]: [hist] are the widths
    tried so far, [c] is the next one, [2^k] away from the previous one. *)
Record step1_inv (k : nat) (s : Step1Lists) (hist : list Z) (c : Z) : Prop := {
  inv_search : step1_bit_search s = hist ++ [c];
  inv_prev : exists p, last hist = Some p /\ Z.abs (c - p) = (2 ^ Z.of_nat k)%Z;
  inv_len_sat : length (step1_bit_search_sat s) = length hist;
  inv_len_acc : length (step1_acc_list s) = length hist;
  inv_range : (2 ^ Z.of_nat k <= c <= 32 - 2 ^ Z.of_nat k)%Z;
  inv_sel : exists j, next_true (reverse (step1_bit_search_sat s)) = Some j /\
                      hist !! (length hist - 1 - j)%nat = Some (c + 2 ^ Z.of_nat k)%Z;
  inv_hi : measured (c + 2 ^ Z.of_nat k) true;
  inv_lo : (c - 2 ^ Z.of_nat k = 0)%Z \/ measured (c - 2 ^ Z.of_nat k) false;
  inv_min : forall j b, hist !! j = Some b -> step1_bit_search_sat s !! j = Some true ->
                        (c + 2 ^ Z.of_nat k <= b)%Z;
  inv_first : step1_bit_search_sat s !! 0%nat = Some true
}.

(** What holds of the selected width when the search has converged. *)
Record step1_post (step1_bits : Z) (s : Step1Lists) : Prop := {
  post_len_sat : length (step1_bit_search_sat s) = length (step1_bit_search s);
  post_len_acc : length (step1_acc_list s) = length (step1_bit_search s);
  post_range : (1 <= step1_bits <= 32)%Z;
  post_pass : measured step1_bits true;
  post_below : step1_bits = 1%Z \/ measured (step1_bits - 1) false;
  post_sel : exists j, next_true (reverse (step1_bit_search_sat s)) = Some j /\
      step1_bit_search s !! (length (step1_bit_search_sat s) - 1 - j)%nat = Some step1_bits;
  post_min : forall j b, step1_bit_search s !! j = Some b ->
                         step1_bit_search_sat s !! j = Some true -> (step1_bits <= b)%Z
}.
End Step1Spec.

(** Brute-force reference for STEP 1: the first width of 1, 2, ..., 32 that
    passes. *)
Definition linear_scan (pass : Z -> bool) : option Z := List.find pass (seqZ 1 32).

(** ** The call log only grows *)

(** A computation appends to the log of oracle calls and never rewrites it. *)
Definition grows {St A} (m : M St A) : Prop :=
  forall w, exists calls, log (m w).2 = log w ++ calls.

(** ** Specification-side definitions for STEP 3A *)

(** The activation widths with [delta] added on every layer of [group]. *)
Definition shift_group (delta : Z) (group : list nat) (act : list Z) : list Z :=
  imap (fun i b => if bool_decide (i ∈ group) then (b + delta)%Z else b) act.

(** ** Bounds on the returned widths *)

(** The widths STEP 3A and STEP 4A may leave on a layer that STEP 1 left at
    [c0] bits. *)
Definition in_bounds (c0 b : Z) : Prop := (Z.min 2 c0 <= b <= c0)%Z.

(** What holds of every configuration [qcapsnets] returns, [step1_bits] being
    the width STEP 1 selected: weights of at least one bit; activation and
    dynamic-routing widths at most [step1_bits] and at least 2, or
    [step1_bits] itself when STEP 1 already went below 2. *)
Definition within_bounds (step1_bits : Z) (r : Deliverable) : Prop :=
  Forall (fun b => (1 <= b)%Z) (d_weight_bits r) /\
  Forall (fun b => (Z.min 2 step1_bits <= b <= step1_bits)%Z) (d_act_bits r) /\
  Forall (fun b => (Z.min 2 step1_bits <= b <= step1_bits)%Z) (d_dr_bits r).

(** ** Concrete models and oracles *)

Definition leaf (n : nat) (routing : bool) : Leaf :=
  {| numel := n; capsule_layer := routing; dynamic_routing := routing |}.

(** Two layers of 100 weights, the second one with the higher weight SQNR;
    full-precision accuracy 100, tolerance 10% (so [minimum_accuracy] is 90),
    a budget of 800 bits. *)
Definition two_layers : Inputs :=
  {| leaf_children := [leaf 100 true; leaf 100 false];
     weight_sqnr := [3; 5]%Q;
     act_info_sqnr := [2; 1]%Q;
     tot_numer_of_weights := 200;
     top_accuracy := 100;
     accuracy_tolerance := 10;
     memory_budget := 800 # 8388608 |}.

(** Answers by the weight widths only.  Lowering the second layer from 5 to
    4 bits gives exactly [minimum_accuracy]. *)
Definition oracle_equal (c : Config) : Q :=
  match weight_bits c with
  | [5; 5]%Z => 95
  | [5; 4]%Z => 90
  | [5; 3]%Z => 95
  | _ => 80
  end.

(** Lowering the second layer from 5 to 4 bits still passes; nothing else
    below 5 bits does. *)
Definition oracle_branch (c : Config) : Q :=
  match weight_bits c with
  | [5; 5]%Z => 95
  | [5; 4]%Z => 93
  | _ => 80
  end.

(** Exactly [minimum_accuracy] from 5 bits on every layer, 80 below. *)
Definition oracle_exact (c : Config) : Q :=
  if forallb (fun b => 5 <=? b)%Z (weight_bits c) then 90 else 80.

(** One layer with a single weight and dynamic routing; a budget of 40 bits. *)
Definition one_layer : Inputs :=
  {| leaf_children := [leaf 1 true];
     weight_sqnr := [1]%Q;
     act_info_sqnr := [1]%Q;
     tot_numer_of_weights := 1;
     top_accuracy := 100;
     accuracy_tolerance := 10;
     memory_budget := 40 # 8388608 |}.

(** The same layer without dynamic routing. *)
Definition one_layer_no_routing : Inputs :=
  {| leaf_children := [leaf 1 false];
     weight_sqnr := [1]%Q;
     act_info_sqnr := [1]%Q;
     tot_numer_of_weights := 1;
     top_accuracy := 100;
     accuracy_tolerance := 10;
     memory_budget := 40 # 8388608 |}.

(** Full accuracy as soon as every weight has at least 4 bits, whatever the
    activation and routing widths. *)
Definition oracle_four (c : Config) : Q :=
  if forallb (fun b => 4 <=? b)%Z (weight_bits c) then 100 else 0.

(** The scenario of the specification: accuracy [60 + 1.5 b] at uniform
    width [b], full-precision accuracy 99, tolerance 5%. *)
Definition ten_layers : Inputs :=
  {| leaf_children := replicate 10 (leaf 100 false);
     weight_sqnr := replicate 10 1%Q;
     act_info_sqnr := replicate 10 1%Q;
     tot_numer_of_weights := 1000;
     top_accuracy := 99;
     accuracy_tolerance := 5;
     memory_budget := 1 |}.

Definition linear_accuracy (b : Z) : Q := 60 + (3 # 2) * inject_Z b.

Definition oracle_linear (c : Config) : Q := linear_accuracy (hd 0%Z (weight_bits c)).

(** An accuracy that is non-decreasing in the width and sits exactly on the
    STEP 1 floor of [ten_layers] (98.7525) from 8 to 31 bits. *)
Definition plateau_accuracy (b : Z) : Q :=
  if (b <? 8)%Z then 90 else if (b <? 32)%Z then 39501 # 400 else 99.

Definition oracle_plateau (c : Config) : Q := plateau_accuracy (hd 0%Z (weight_bits c)).

(** ** Shape of a returned configuration *)

(** The three vectors of a deliverable are index-aligned with the model: one
    weight width and one activation width per leaf, one routing width per
    leaf that routes. *)
Definition aligned (inp : Inputs) (r : Deliverable) : Prop :=
  length (d_weight_bits r) = length (leaf_children inp) /\
  length (d_act_bits r) = length (leaf_children inp) /\
  length (d_dr_bits r) = length (filter routes (leaf_children inp)).

(** ** More concrete oracles *)

(** Lowering the second layer of [two_layers] from 5 to 3 bits still passes;
    that configuration fits the budget of 800 bits. *)
Definition oracle_lower (c : Config) : Q :=
  match weight_bits c with
  | [5; 5]%Z => 95
  | [5; 4]%Z => 93
  | [5; 3]%Z => 92
  | _ => 80
  end.

(** ** The path of the STEP 1 search *)

(** The widths a halving search tries from [c] on, [2^k] being the distance
    between [c] and the width tried before it: after a trial that passes the
    next width is half the distance lower, after one that fails half the
    distance higher.  [accs] are the accuracies measured, in trial order. *)
Fixpoint halving (inp : Inputs) (k : nat) (c : Z) (accs : list Q) : list Z :=
  match k, accs with
  | S k', a :: accs' =>
      c :: halving inp k' (if passes inp a then c - 2 ^ Z.of_nat k' else c + 2 ^ Z.of_nat k')%Z accs'
  | _, _ => [c]
  end.

(** ** Ranking with ties *)

(** [x] is ranked ahead of [y] by a stable sort: its key goes strictly before
    the key of [y], or neither key goes before the other and [x] came first
    in the list that was sorted. *)
Definition ahead (before : Q -> Q -> bool) (x y : Q * nat) : Prop :=
  before x.1 y.1 = true \/ (before y.1 x.1 = false /\ (x.2 < y.2)%nat).

(** ** The module tree and its leaves *)

(** A module of the model, as far as [qcapsnets] looks at it: the attribute
    [leaf] (most containers do not have it), the two flags read on the
    leaves, [named_parameters()] as pairs of a name and a number of elements,
    and [named_children()]. *)
#[warnings="-register-all"] Inductive NnModule : Type :=
  mkModule (leaf_attr : option bool) (caps routing : bool)
           (params : list (string * nat)) (children : list (string * NnModule)).

Definition leaf_attr (value : NnModule) : option bool :=
  let 'mkModule l _ _ _ _ := value in l.
Definition module_capsule_layer (value : NnModule) : bool :=
  let 'mkModule _ c _ _ _ := value in c.
Definition module_dynamic_routing (value : NnModule) : bool :=
  let 'mkModule _ _ r _ _ := value in r.
Definition named_parameters (value : NnModule) : list (string * nat) :=
  let 'mkModule _ _ _ ps _ := value in ps.
Definition named_children (value : NnModule) : list (string * NnModule) :=
  let 'mkModule _ _ _ _ ch := value in ch.

(** [hasattr(value, "leaf") and value.leaf == True] *)
Definition is_leaf (value : NnModule) : bool :=
  match leaf_attr value with
  | Some true => true
  | _ => false
  end.

(** One turn of the loop of [get_leaf_modules], on the child [value] found
    under [key]: a leaf is appended with its dotted name, anything else is
    searched in turn, with the name as the new prefix.  The recursion goes
    down the tree, so the loop over the children is written inside. *)
Fixpoint get_leaf_modules_from (top_name key : string) (value : NnModule)
    (leaf_children : list NnModule) (leaf_children_names : list string) {struct value}
  : list NnModule * list string :=
  let name := (top_name ++ "." ++ key)%string in
  match value with
  | mkModule (Some true) _ _ _ _ => (leaf_children ++ [value], leaf_children_names ++ [name])
  | mkModule _ _ _ _ children =>
      (fix loop (m : list (string * NnModule)) (leaves : list NnModule) (names : list string)
         {struct m} : list NnModule * list string :=
         match m with
         | [] => (leaves, names)
         | (k, v) :: m' =>
             let '(leaves', names') := get_leaf_modules_from name k v leaves names in
             loop m' leaves' names'
         end) children leaf_children leaf_children_names
  end.

(** [get_leaf_modules(top_name, m, leaf_children, leaf_children_names)] *)
Fixpoint get_leaf_modules (top_name : string) (m : list (string * NnModule))
    (leaf_children : list NnModule) (leaf_children_names : list string)
  : list NnModule * list string :=
  match m with
  | [] => (leaf_children, leaf_children_names)
  | (key, value) :: m' =>
      let '(leaves', names') :=
        get_leaf_modules_from top_name key value leaf_children leaf_children_names in
      get_leaf_modules top_name m' leaves' names'
  end.

(** The keys of a path, each with a dot in front. *)
Fixpoint dotted (path : list string) : string :=
  match path with
  | [] => ""
  | key :: path' => ("." ++ key ++ dotted path')%string
  end.

(** [x] is reached from the children [m] along the keys [path], through
    modules that are not leaves, and is a leaf itself. *)
Inductive leaf_at : list (string * NnModule) -> list string -> NnModule -> Prop :=
| leaf_here m key value :
    (key, value) ∈ m -> is_leaf value = true -> leaf_at m [key] value
| leaf_below m key value path x :
    (key, value) ∈ m -> is_leaf value = false ->
    leaf_at (named_children value) path x -> leaf_at m (key :: path) x.

(** What a list of children contributes: the same two lists whatever the
    accumulators are, of the same length, pairing every leaf reached through
    non-leaves with the dotted path of keys that leads to it. *)
Definition collects (m : list (string * NnModule)) : Prop :=
  forall top_name, exists ls ns,
    (forall leaves names,
       get_leaf_modules top_name m leaves names = (leaves ++ ls, names ++ ns)) /\
    length ls = length ns /\
    (forall x name, (x, name) ∈ zip ls ns <->
       exists path, leaf_at m path x /\ name = (top_name ++ dotted path)%string).

(** [s[1:]] on a string. *)
Definition py_tail (s : string) : string :=
  match s with
  | EmptyString => EmptyString
  | String _ s' => s'
  end.

(** A small model: a flagged convolution that holds a flagged batch-norm
    module of its own, a container with two children of which one is flagged,
    and a flagged capsule layer with dynamic routing. *)
Definition example_model : list (string * NnModule) :=
  [ ("conv"%string,
     mkModule (Some true) false false
       [("weight"%string, 10%nat); ("bias"%string, 2%nat); ("batchnorm.weight"%string, 2%nat)]
       [("batchnorm"%string, mkModule (Some true) false false [("weight"%string, 2%nat)] [])]);
    ("block"%string,
     mkModule None false false []
       [("l1"%string, mkModule (Some true) true false [("weight"%string, 6%nat)] []);
        ("act"%string, mkModule (Some false) false false [] [])]);
    ("digit"%string, mkModule (Some true) true true [("weight"%string, 20%nat)] []) ].

(** ** Termination *)

(** The computation comes to an end from the world [w]: it returns or raises
    within the iterations it is allowed. *)
Definition finishes {St A} (m : M St A) (w : World St) : Prop := (m w).1 <> OutOfFuel.

(** ** The statistics of the weights and the quantization of a copy *)

(** [needle in hay] on strings. *)
Fixpoint contains (needle hay : string) : bool :=
  String.prefix needle hay ||
  match hay with
  | EmptyString => false
  | String _ hay' => contains needle hay'
  end.

(** One value of [weights_scale_factors_original]: [value[0]], [value[1]]
    and [value[2].item()]. *)
Record WeightStats : Type := {
  stat_range : Q;
  stat_std : Q;
  stat_sqnr : Q
}.

(** [torch.min(a, b)] on two scalars. *)
Definition torch_min (a b : Q) : Q := if Qle_bool a b then a else b.

(** [weights_scale_factors[key] = torch.min(value[0], value[1] * std_multiplier)],
    for every item of the original dictionary, in its order. *)
Definition weights_scale_factors (original : list (string * WeightStats)) (std_multiplier : Q)
  : gmap string Q :=
  foldl (fun d kv => <[kv.1 := torch_min (stat_range kv.2) (stat_std kv.2 * std_multiplier)]> d)
    ∅ original.

(** ["weight" in key and "batchnorm" not in key] *)
Definition is_weight_key (key : string) : bool :=
  contains "weight" key && negb (contains "batchnorm" key).

(** The loop that fills [sqnr_tuples] before it is sorted; [i] counts the
    entries appended so far. *)
Fixpoint collect_sqnr_tuples (items : list (string * WeightStats)) (i : nat)
  : list (string * Q * nat) :=
  match items with
  | [] => []
  | (key, value) :: items' =>
      if is_weight_key key
      then (key, stat_sqnr value, i) :: collect_sqnr_tuples items' (S i)
      else collect_sqnr_tuples items' i
  end.

(** What goes wrong when the weights of a copy are quantized: a key that the
    scale factors do not have, or a leaf without a width. *)
Inductive quantize_error : Type :=
| KeyError (key : string)
| WidthIndexError.

(** One call of [quantization_function_weights]: the parameter, by the key
    of its scale factor, the scale factor and the width. *)
Record QuantizeCall : Type := {
  call_key : string;
  call_scale : Q;
  call_bits : Z
}.

(** ['.'.join([name[1:], p[0]])] *)
Definition scale_key (name : string) (p : string * nat) : string :=
  String.concat "." [py_tail name; p.1].

(** [for p in children.named_parameters(): if "batchnorm" not in p[0]: ...]
    for one leaf.  [width] is the width the leaf is given; it is looked at
    after the scale factor, and only for a parameter that is quantized. *)
Fixpoint quantize_parameters (wsf : gmap string Q) (name : string) (width : option Z)
    (ps : list (string * nat)) : quantize_error + list QuantizeCall :=
  match ps with
  | [] => inr []
  | p :: ps' =>
      if negb (contains "batchnorm" p.1) then
        match wsf !! scale_key name p with
        | None => inl (KeyError (scale_key name p))
        | Some scale =>
            match width with
            | None => inl WidthIndexError
            | Some bits =>
                match quantize_parameters wsf name width ps' with
                | inl e => inl e
                | inr calls =>
                    inr ({| call_key := scale_key name p; call_scale := scale;
                            call_bits := bits |} :: calls)
                end
            end
        end
      else quantize_parameters wsf name width ps'
  end.

(** [for i, (name, children) in enumerate(zip(leaf_children_names, leaf_children))] *)
Fixpoint quantize_leaves (wsf : gmap string Q) (widths : nat -> option Z) (i : nat)
    (named : list (string * NnModule)) : quantize_error + list QuantizeCall :=
  match named with
  | [] => inr []
  | (name, children) :: rest =>
      match quantize_parameters wsf name (widths i) (named_parameters children) with
      | inl e => inl e
      | inr calls =>
          match quantize_leaves wsf widths (S i) rest with
          | inl e => inl e
          | inr calls' => inr (calls ++ calls')
          end
      end
  end.

(** The quantization of the weights of a fresh copy of the model, as it is
    done before every evaluation: the leaves are collected again and every
    parameter whose name does not contain "batchnorm" is quantized in place.
    [widths i] is the width of the leaf at position [i]:
    [quantization_bits] for all of them in STEP 1, [step2_weight_bits[i]]
    and the like afterwards. *)
Definition quantize_weights (wsf : gmap string Q) (model : list (string * NnModule))
    (widths : nat -> option Z) : quantize_error + list QuantizeCall :=
  let '(leaf_children, leaf_children_names) := get_leaf_modules "" model [] [] in
  quantize_leaves wsf widths 0 (zip leaf_children_names leaf_children).

(** The parameters of a leaf that are quantized. *)
Definition quantized_parameters (leaf : NnModule) : list (string * nat) :=
  filter (fun p => contains "batchnorm" p.1 = false) (named_parameters leaf).

(** [call] is the call made for the parameter [p] of the leaf called [name],
    whose width is [width]. *)
Definition call_for (wsf : gmap string Q) (name : string) (width : option Z)
    (p : string * nat) (call : QuantizeCall) : Prop :=
  call_key call = scale_key name p /\ wsf !! scale_key name p = Some (call_scale call) /\
  width = Some (call_bits call).

(** Scale factors for [example_model]: the statistics of its four weight
    tensors, of a bias and of a batch-norm tensor. *)
Definition example_statistics : list (string * WeightStats) :=
  [ ("conv.weight"%string, {| stat_range := 4; stat_std := 1; stat_sqnr := 30 |});
    ("conv.bias"%string, {| stat_range := 2; stat_std := 1; stat_sqnr := 50 |});
    ("conv.batchnorm.weight"%string, {| stat_range := 1; stat_std := 1; stat_sqnr := 60 |});
    ("block.l1.weight"%string, {| stat_range := 8; stat_std := 3 # 100; stat_sqnr := 20 |});
    ("digit.weight"%string, {| stat_range := 16; stat_std := 1; stat_sqnr := 40 |}) ].

(** ** Basic facts: comparisons, conversions, the monad *)

Lemma Qltb_lt (a b : Q) : Qltb a b = true <-> (a < b)%Q.
Proof.
  unfold Qltb. rewrite negb_true_iff. split.
  - intros H. apply Qnot_le_lt. intros Hle. apply Qle_bool_iff in Hle. congruence.
  - intros H. destruct (Qle_bool b a) eqn:E; [|done].
    apply Qle_bool_iff in E. exfalso. by apply (Qlt_not_le a b).
Qed.

Lemma Qltb_ge (a b : Q) : Qltb a b = false <-> (b <= a)%Q.
Proof.
  unfold Qltb. rewrite negb_false_iff. apply Qle_bool_iff.
Qed.

Lemma Qle_bool_false (a b : Q) : Qle_bool a b = false <-> (b < a)%Q.
Proof. rewrite <- Qltb_lt. unfold Qltb. by rewrite negb_true_iff. Qed.

Lemma py_int_inject (x : Q) (z : Z) : (x == inject_Z z)%Q -> py_int x = z.
Proof.
  unfold Qeq, py_int. simpl. intros H. rewrite Z.mul_1_r in H. rewrite H.
  apply Z.quot_mul. done.
Qed.

Lemma py_int_half_down (c e : Z) :
  py_int (inject_Z c - inject_Z (2 * e) / 2)%Q = (c - e)%Z.
Proof.
  apply py_int_inject. unfold Z.sub.
  rewrite inject_Z_plus, inject_Z_opp, inject_Z_mult. field.
Qed.

Lemma py_int_half_up (c e : Z) :
  py_int (inject_Z c + inject_Z (2 * e) / 2)%Q = (c + e)%Z.
Proof.
  apply py_int_inject. rewrite inject_Z_plus, inject_Z_mult. field.
Qed.

Section MonadFacts.
Context {St : Type}.
Implicit Types w : World St.

Lemma bind_Ok {A B} (m : M St A) (k : A -> M St B) w a w1 :
  m w = (Ok a, w1) -> bind m k w = k a w1.
Proof. unfold bind. by intros ->. Qed.

Lemma bind_Raise {A B} (m : M St A) (k : A -> M St B) w e w1 :
  m w = (Raise e, w1) -> bind m k w = (Raise e, w1).
Proof. unfold bind. by intros ->. Qed.

Lemma bind_Ok_inv {A B} (m : M St A) (k : A -> M St B) w b w' :
  bind m k w = (Ok b, w') -> exists a w1, m w = (Ok a, w1) /\ k a w1 = (Ok b, w').
Proof.
  unfold bind. destruct (m w) as [[a| |] w1]; [eauto | done | done].
Qed.

Lemma ret_Ok_inv {A} (a b : A) w w' : ret a w = (Ok b, w') -> a = b /\ w = w'.
Proof. unfold ret. by intros [= -> ->]. Qed.

Lemma getitem_Some {A} (l : list A) i x w : l !! i = Some x -> getitem l i w = (Ok x, w).
Proof. unfold getitem. by intros ->. Qed.

Lemma getitem_None {A} (l : list A) i w : l !! i = None -> getitem l i w = (Raise IndexError, w).
Proof. unfold getitem. by intros ->. Qed.

Lemma getitem_Ok_inv {A} (l : list A) i x w w' :
  getitem l i w = (Ok x, w') -> l !! i = Some x /\ w = w'.
Proof. unfold getitem. destruct (l !! i); [|done]. by intros [= -> ->]. Qed.

Lemma setitem_Ok_inv {A} (l : list A) i v l' w w' :
  @setitem St A l i v w = (Ok l', w') -> (i < length l)%nat /\ l' = <[i := v]> l /\ w = w'.
Proof.
  unfold setitem. destruct (l !! i) eqn:E; [|done]. intros [= <- ->].
  split; [|done]. by eapply lookup_lt_Some.
Qed.

Lemma read_local_Ok_inv {A} var (v : option A) x w w' :
  read_local var v w = (Ok x, w') -> v = Some x /\ w = w'.
Proof. unfold read_local. destruct v; [|done]. by intros [= -> ->]. Qed.

Lemma truediv_Ok_inv (a b q : Q) w w' :
  truediv a b w = (Ok q, w') -> ~ (b == 0)%Q /\ q = (a / b)%Q /\ w = w'.
Proof.
  unfold truediv. destruct (Qeq_bool b 0) eqn:E; [done|]. intros [= <- ->].
  split; [|done]. by apply Qeq_bool_neq.
Qed.

Lemma truediv_nonzero (a b : Q) w :
  ~ (b == 0)%Q -> truediv a b w = (Ok (a / b)%Q, w).
Proof.
  unfold truediv. intros H. destruct (Qeq_bool b 0) eqn:E; [|done].
  by apply Qeq_bool_iff in E.
Qed.

Lemma getitem_neg_last {A} (l : list A) x w : getitem_neg (l ++ [x]) 1 w = (Ok x, w).
Proof.
  unfold getitem_neg. rewrite length_app. simpl.
  replace (length l + 1 <? 1)%nat with false by (symmetry; apply Nat.ltb_ge; lia).
  apply getitem_Some. replace (length l + 1 - 1)%nat with (length l + 0)%nat by lia.
  by rewrite lookup_app_r, Nat.add_sub' by lia.
Qed.

Lemma getitem_neg_last2 {A} (l : list A) x y w :
  last l = Some x -> getitem_neg (l ++ [y]) 2 w = (Ok x, w).
Proof.
  intros Hl. destruct l as [|x' l'] using rev_ind; [done|].
  rewrite last_snoc in Hl. injection Hl as ->. clear IHl'. rename l' into l.
  unfold getitem_neg. rewrite !length_app. simpl.
  replace (length l + 1 + 1 <? 2)%nat with false by (symmetry; apply Nat.ltb_ge; lia).
  apply getitem_Some. rewrite lookup_app_l by (rewrite length_app; simpl; lia).
  apply list_lookup_middle. lia.
Qed.
End MonadFacts.

(** ** STEP 1: the binary search *)

Lemma next_true_reverse_snoc (l : list bool) (b : bool) :
  next_true (reverse (l ++ [b])) = if b then Some 0%nat else S <$> next_true (reverse l).
Proof. by rewrite reverse_snoc. Qed.

(** The index picked through the reversed flags is the most recent trial
    that passed. *)
Lemma next_true_reverse_latest (l : list bool) (k : nat) :
  next_true (reverse l) = Some k ->
  (k < length l)%nat /\ l !! (length l - 1 - k)%nat = Some true /\
  forall j, l !! j = Some true -> (j <= length l - 1 - k)%nat.
Proof.
  revert k. induction l as [|b l IH] using rev_ind; intros k; [done|].
  rewrite next_true_reverse_snoc, length_app. simpl. destruct b.
  - intros [= <-]. split; [lia|]. split.
    + replace (length l + 1 - 1 - 0)%nat with (length l + 0)%nat by lia.
      by rewrite lookup_app_r, Nat.add_sub' by lia.
    + intros j Hj. apply lookup_lt_Some in Hj. rewrite length_app in Hj. simpl in Hj. lia.
  - destruct (next_true (reverse l)) as [k'|] eqn:E; [|done]. intros [= <-].
    destruct (IH k' eq_refl) as (Hk & Hl & Hmax). split; [lia|]. split.
    + replace (length l + 1 - 1 - S k')%nat with (length l - 1 - k')%nat by lia.
      by rewrite lookup_app_l by lia.
    + intros j Hj. destruct (decide (j < length l)%nat) as [Hlt|Hge].
      * rewrite lookup_app_l in Hj by done. specialize (Hmax j Hj). lia.
      * pose proof (lookup_lt_Some _ _ _ Hj) as Hlen. rewrite length_app in Hlen.
        simpl in Hlen. replace j with (length l + 0)%nat in Hj by lia.
        rewrite lookup_app_r, Nat.add_sub' in Hj by lia. done.
Qed.

Section Step1.
Context {St : Type}.
Variable quantized_test : Config -> St -> Q * St.
Variable inp : Inputs.

Lemma step1_select_ok (s : Step1Lists) (bits : Z) (j : nat) (w : World St) :
  next_true (reverse (step1_bit_search_sat s)) = Some j ->
  step1_bit_search s !! (length (step1_bit_search_sat s) - 1 - j)%nat = Some bits ->
  step1_bit_search_sat s !! 0%nat = Some true ->
  length (step1_acc_list s) = length (step1_bit_search_sat s) ->
  exists acc, step1_select s w = (Ok (bits, acc), w).
Proof.
  intros Hj Hb Hfirst Hlen. unfold step1_select, next_true_m. rewrite Hj.
  unfold bind at 1, ret at 1. rewrite (bind_Ok _ _ _ _ _ (getitem_Some _ _ _ _ Hb)).
  destruct (step1_bit_search_sat s) as [|b sat] eqn:Hsat; [done|].
  injection Hfirst as ->. simpl next_true. unfold bind at 1, ret at 1.
  destruct (step1_acc_list s !! (length (true :: sat) - 1 - 0)%nat) as [acc|] eqn:Hacc.
  - exists acc. by rewrite (bind_Ok _ _ _ _ _ (getitem_Some _ _ _ _ Hacc)).
  - apply lookup_ge_None in Hacc. simpl in Hacc, Hlen. lia.
Qed.

Lemma step1_while_correct (k : nat) :
  forall fuel s hist c w,
    (k < fuel)%nat -> step1_inv quantized_test inp k s hist c ->
    exists bits acc s' w',
      step1_while quantized_test inp fuel s w = (Ok (bits, acc, s'), w') /\
      step1_post quantized_test inp bits s'.
Proof.
  induction k as [|k IH]; intros fuel s hist c w Hfuel Hinv;
    (destruct fuel as [|fuel]; [lia|]);
    destruct Hinv as [Hs (p & Hh & Habs) Hls Hla Hr (j & Hj & Hjl) Hhi Hlo Hmin Hfirst];
    simpl step1_while; rewrite Hs;
    rewrite (bind_Ok _ _ _ _ _ (getitem_neg_last _ _ _));
    unfold step1_quantization_test, evaluate at 1, bind at 1;
    destruct (quantized_test (uniform_config inp c) (ost w)) as [a st'] eqn:Hq;
    assert (Hm : measured quantized_test inp c (passes inp a)) by (exists (ost w); by rewrite Hq);
    rewrite (bind_Ok _ _ _ _ _ (getitem_neg_last2 _ _ _ _ Hh)); rewrite Habs;
    fold (passes inp a) in *; set (w1 := Build_World St st' _);
    assert (Hl1 : (0 < length hist)%nat) by (destruct hist; [done | simpl; lia]);
    destruct (passes inp a) eqn:Hpass.
  - (* the last two widths are one bit apart and the last one passed *)
    change (2 ^ Z.of_nat 0)%Z with 1%Z in *. change (1 =? 1)%Z with true. cbv iota.
    set (s1 := Build_Step1Lists _ _ _).
    destruct (step1_select_ok s1 c 0%nat w1) as [acc Hsel].
    + subst s1. simpl. by rewrite next_true_reverse_snoc.
    + subst s1. simpl. rewrite length_app, Hls. simpl.
      apply list_lookup_middle. lia.
    + subst s1. simpl. by apply lookup_app_l_Some.
    + subst s1. simpl. rewrite !length_app. simpl. lia.
    + exists c, acc, s1, w1. rewrite (bind_Ok _ _ _ _ _ Hsel). split; [done|].
      subst s1. split; simpl.
      * rewrite !length_app, Hls. simpl. lia.
      * rewrite !length_app, Hla. simpl. lia.
      * lia.
      * done.
      * destruct Hlo as [Hlo|Hlo]; [left; lia | by right].
      * exists 0%nat. rewrite next_true_reverse_snoc. split; [done|].
        rewrite length_app, Hls. simpl. apply list_lookup_middle. lia.
      * intros i b Hi Hsat. apply lookup_snoc_Some in Hi as [[Hlt Hi]|[_ ->]].
        -- rewrite lookup_app_l in Hsat by lia. specialize (Hmin i b Hi Hsat). lia.
        -- lia.
  - (* one bit apart and the last one failed *)
    change (2 ^ Z.of_nat 0)%Z with 1%Z in *. change (1 =? 1)%Z with true. cbv iota.
    set (s1 := Build_Step1Lists _ _ _).
    assert (Hidx : (length (step1_bit_search_sat s ++ [false]) - 1 - S j)%nat
                   = (length hist - 1 - j)%nat).
    { rewrite length_app, Hls. simpl. lia. }
    destruct (step1_select_ok s1 (c + 1)%Z (S j) w1) as [acc Hsel].
    + subst s1. simpl. by rewrite next_true_reverse_snoc, Hj.
    + subst s1. simpl. rewrite Hidx. by apply lookup_app_l_Some.
    + subst s1. simpl. by apply lookup_app_l_Some.
    + subst s1. simpl. rewrite !length_app. simpl. lia.
    + exists (c + 1)%Z, acc, s1, w1. rewrite (bind_Ok _ _ _ _ _ Hsel). split; [done|].
      subst s1. split; simpl.
      * rewrite !length_app, Hls. simpl. lia.
      * rewrite !length_app, Hla. simpl. lia.
      * lia.
      * done.
      * right. by replace (c + 1 - 1)%Z with c by lia.
      * exists (S j). rewrite next_true_reverse_snoc, Hj. split; [done|].
        rewrite Hidx. by apply lookup_app_l_Some.
      * intros i b Hi Hsat. apply lookup_snoc_Some in Hi as [[Hlt Hi]|[Hi _]].
        -- rewrite lookup_app_l in Hsat by lia. by apply (Hmin i b).
        -- rewrite Hi, <- Hls in Hsat. rewrite list_lookup_middle in Hsat by done. done.
  - (* passed: halve the distance downwards *)
    assert (He : (2 ^ Z.of_nat (S k) = 2 * 2 ^ Z.of_nat k)%Z)
      by (rewrite Nat2Z.inj_succ, Z.pow_succ_r; lia).
    assert (Hpos : (0 < 2 ^ Z.of_nat k)%Z) by (apply Z.pow_pos_nonneg; lia).
    rewrite He in *. set (e := (2 ^ Z.of_nat k)%Z) in *.
    replace (2 * e =? 1)%Z with false by (symmetry; apply Z.eqb_neq; lia).
    rewrite py_int_half_down.
    apply (IH fuel _ (hist ++ [c]) (c - e)%Z w1); [lia|]. split; simpl; fold e.
    + done.
    + exists c. rewrite last_snoc. split; [done|]. lia.
    + rewrite !length_app, Hls. done.
    + rewrite !length_app, Hla. done.
    + lia.
    + exists 0%nat. rewrite next_true_reverse_snoc. split; [done|].
      replace (c - e + e)%Z with c by lia. apply list_lookup_middle.
      rewrite length_app. simpl. lia.
    + by replace (c - e + e)%Z with c by lia.
    + replace (c - e - e)%Z with (c - 2 * e)%Z by lia. done.
    + intros i b Hi Hsat. replace (c - e + e)%Z with c by lia.
      apply lookup_snoc_Some in Hi as [[Hlt Hi]|[_ ->]]; [|lia].
      rewrite lookup_app_l in Hsat by lia. specialize (Hmin i b Hi Hsat). lia.
    + by apply lookup_app_l_Some.
  - (* failed: halve the distance upwards *)
    assert (He : (2 ^ Z.of_nat (S k) = 2 * 2 ^ Z.of_nat k)%Z)
      by (rewrite Nat2Z.inj_succ, Z.pow_succ_r; lia).
    assert (Hpos : (0 < 2 ^ Z.of_nat k)%Z) by (apply Z.pow_pos_nonneg; lia).
    rewrite He in *. set (e := (2 ^ Z.of_nat k)%Z) in *.
    replace (2 * e =? 1)%Z with false by (symmetry; apply Z.eqb_neq; lia).
    rewrite py_int_half_up.
    apply (IH fuel _ (hist ++ [c]) (c + e)%Z w1); [lia|]. split; simpl; fold e.
    + done.
    + exists c. rewrite last_snoc. split; [done|]. lia.
    + rewrite !length_app, Hls. done.
    + rewrite !length_app, Hla. done.
    + lia.
    + exists (S j). rewrite next_true_reverse_snoc, Hj. split; [done|].
      replace (c + e + e)%Z with (c + 2 * e)%Z by lia. apply lookup_app_l_Some.
      replace (length (hist ++ [c]) - 1 - S j)%nat with (length hist - 1 - j)%nat; [done|].
      rewrite length_app. simpl. lia.
    + by replace (c + e + e)%Z with (c + 2 * e)%Z by lia.
    + right. by replace (c + e - e)%Z with c by lia.
    + intros i b Hi Hsat. replace (c + e + e)%Z with (c + 2 * e)%Z by lia.
      apply lookup_snoc_Some in Hi as [[Hlt Hi]|[Hi _]].
      * rewrite lookup_app_l in Hsat by lia. by apply (Hmin i b).
      * rewrite Hi, <- Hls in Hsat. rewrite list_lookup_middle in Hsat by done. done.
    + by apply lookup_app_l_Some.
Qed.

(** The search converges within five iterations of the loop, whatever the
    oracle answers. *)
Lemma step1_search_correct (fuel : nat) (w : World St) :
  (5 <= fuel)%nat ->
  exists bits acc s' w',
    step1_search quantized_test inp fuel w = (Ok (bits, acc, s'), w') /\
    (1 <= bits <= 32)%Z /\
    (passes inp (quantized_test (uniform_config inp 32) (ost w)).1 = true -> step1_post quantized_test inp bits s').
Proof.
  intros Hfuel. unfold step1_search, step1_quantization_test, evaluate at 1, bind at 1.
  destruct (quantized_test (uniform_config inp 32) (ost w)) as [a st'] eqn:Hq.
  simpl. fold (passes inp a). destruct (passes inp a) eqn:Hpass.
  - set (w1 := Build_World St st' _). set (s := Build_Step1Lists _ _ _).
    destruct (step1_while_correct 4 fuel s [32%Z] 16%Z w1) as (bits & acc & s' & w' & Hrun & Hpost);
      [lia| |].
    + subst s. split; simpl step1_bit_search; simpl step1_bit_search_sat;
        simpl step1_acc_list; change (2 ^ Z.of_nat 4)%Z with 16%Z;
        change (16 + 16)%Z with 32%Z; try done.
      * by exists 32%Z.
      * by exists 0%nat.
      * exists (ost w). by rewrite Hq.
      * by left.
      * intros [|i] b [= <-] _. done.
    + exists bits, acc, s', w'. split; [done|]. split; [apply Hpost | done].
  - eexists _, _, _, _. split; [done|]. split; [lia | done].
Qed.

(** With fewer iterations than the distance still to halve, the loop does not
    come to an end. *)
Lemma step1_while_needs_fuel (k : nat) :
  forall fuel s hist c p (w : World St),
    (fuel <= k)%nat ->
    step1_bit_search s = hist ++ [c] -> last hist = Some p ->
    Z.abs (c - p) = (2 ^ Z.of_nat k)%Z ->
    exists w', step1_while quantized_test inp fuel s w = (OutOfFuel, w').
Proof.
  induction k as [|k IH]; intros fuel s hist c p w Hfuel Hs Hh Habs;
    (destruct fuel as [|fuel]; [by eexists|]); [lia|].
  assert (He : (2 ^ Z.of_nat (S k) = 2 * 2 ^ Z.of_nat k)%Z)
    by (rewrite Nat2Z.inj_succ, Z.pow_succ_r; lia).
  assert (Hpos : (0 < 2 ^ Z.of_nat k)%Z) by (apply Z.pow_pos_nonneg; lia).
  simpl step1_while. rewrite Hs.
  rewrite (bind_Ok _ _ _ _ _ (getitem_neg_last _ _ _)).
  unfold step1_quantization_test, evaluate at 1, bind at 1.
  destruct (quantized_test (uniform_config inp c) (ost w)) as [a st'].
  rewrite (bind_Ok _ _ _ _ _ (getitem_neg_last2 _ _ _ _ Hh)). rewrite Habs, He.
  set (e := (2 ^ Z.of_nat k)%Z) in *.
  replace (2 * e =? 1)%Z with false by (symmetry; apply Z.eqb_neq; lia).
  destruct (Qltb _ a).
  - rewrite py_int_half_down.
    eapply (IH fuel _ (hist ++ [c]) (c - e)%Z c); [lia | done | apply last_snoc | lia].
  - rewrite py_int_half_up.
    eapply (IH fuel _ (hist ++ [c]) (c + e)%Z c); [lia | done | apply last_snoc | lia].
Qed.

(** Whatever the number of iterations allowed, a width STEP 1 returns lies
    between 1 and 32. *)
Lemma step1_search_range (fuel : nat) (w : World St) bits acc s' w' :
  step1_search quantized_test inp fuel w = (Ok (bits, acc, s'), w') ->
  (1 <= bits <= 32)%Z.
Proof.
  destruct (decide (5 <= fuel)%nat) as [Hfuel|Hfuel].
  - destruct (step1_search_correct fuel w Hfuel) as (b & a & s & w1 & Hrun & Hr & _).
    rewrite Hrun. by intros [= <- _ _ _].
  - unfold step1_search, step1_quantization_test, evaluate at 1, bind at 1.
    destruct (quantized_test (uniform_config inp 32) (ost w)) as [a st'].
    simpl. destruct (Qltb _ a).
    + set (w1 := Build_World St st' _). set (s := Build_Step1Lists _ _ _).
      destruct (step1_while_needs_fuel 4 fuel s [32%Z] 16%Z 32%Z w1) as [w2 Hout];
        [lia | done | done | done |].
      by rewrite Hout.
    + intros [= <- _ _ _]. lia.
Qed.
End Step1.

Lemma find_seqZ_first (pass : Z -> bool) (n : nat) :
  forall m x,
    Z.to_nat (x - m) = n -> (m <= x)%Z -> forall len, (x < m + len)%Z ->
    pass x = true -> (forall y, (m <= y < x)%Z -> pass y = false) ->
    List.find pass (seqZ m len) = Some x.
Proof.
  induction n as [|n IH]; intros m x Hn Hmx len Hlen Hx Hlow;
    (rewrite seqZ_cons by lia); simpl.
  - assert (x = m) as -> by lia. by rewrite Hx.
  - rewrite (Hlow m) by lia. apply IH; try lia; [done|].
    intros y Hy. apply Hlow. lia.
Qed.

(** C1, as amended to what the code does.  The STEP 1 floor is
    [top_accuracy - 5/100 * (top_accuracy - minimum_accuracy)], and a width
    passes when its accuracy is strictly above it (the code tests
    [step1_acc > step1_min_acc]); an accuracy equal to the floor fails.  With
    an oracle whose answer on uniform configurations is a fixed
    non-decreasing function [accuracy] of the width, and with 32 bits
    passing, the binary search terminates (five loop iterations are enough)
    and returns the width a linear scan over 1..32 with the same strict test
    finds first, i.e. the minimal passing one.  The width is read off the
    recorded lists: it sits at the most recent trial flagged as passed, and
    no trial flagged as passed has fewer bits. *)
Theorem step1_binary_search_minimal {St : Type}
    (quantized_test : Config -> St -> Q * St) (inp : Inputs) (accuracy : Z -> Q)
    (fuel : nat) (w : World St) :
  let minimum := (top_accuracy inp - accuracy_tolerance inp / 100 * top_accuracy inp)%Q in
  let floor := (top_accuracy inp - 5 / 100 * (top_accuracy inp - minimum))%Q in
  (5 <= fuel)%nat ->
  (forall b s, (quantized_test (uniform_config inp b) s).1 = accuracy b) ->
  (forall b b', (b <= b')%Z -> (accuracy b <= accuracy b')%Q) ->
  (floor < accuracy 32%Z)%Q ->
  exists step1_bits acc s w',
    step1_search quantized_test inp fuel w = (Ok (step1_bits, acc, s), w') /\
    linear_scan (fun b => Qltb floor (accuracy b)) = Some step1_bits /\
    (1 <= step1_bits <= 32)%Z /\
    (floor < accuracy step1_bits)%Q /\
    (forall b, (1 <= b < step1_bits)%Z -> (accuracy b <= floor)%Q) /\
    exists idx,
      step1_bit_search s !! idx = Some step1_bits /\
      step1_bit_search_sat s !! idx = Some true /\
      (forall j, step1_bit_search_sat s !! j = Some true -> (j <= idx)%nat) /\
      (forall j b, step1_bit_search s !! j = Some b ->
                   step1_bit_search_sat s !! j = Some true -> (step1_bits <= b)%Z).
Proof.
  intros minimum floor Hfuel Hdet Hmono H32.
  change floor with (step1_min_acc inp) in *. clear floor minimum.
  destruct (step1_search_correct quantized_test inp fuel w Hfuel)
    as (bits & acc & s & w' & Hrun & Hrange & Hpost).
  destruct Hpost as [Hls Hla _ (s1 & Hpass) Hbelow (j & Hj & Hsel) Hmin].
  { unfold passes. rewrite Hdet. by apply Qltb_lt. }
  unfold passes in Hpass. rewrite Hdet in Hpass.
  assert (Hlow : forall b, (1 <= b < bits)%Z -> (accuracy b <= step1_min_acc inp)%Q).
  { intros b Hb. destruct Hbelow as [->|(s0 & Hfail)]; [lia|].
    unfold passes in Hfail. rewrite Hdet in Hfail. apply Qltb_ge in Hfail.
    eapply Qle_trans; [apply (Hmono b (bits - 1)%Z); lia | done]. }
  exists bits, acc, s, w'. split; [done|]. split.
  { unfold linear_scan. apply (find_seqZ_first _ (Z.to_nat (bits - 1))); try lia; [done|].
    intros y Hy. apply Qltb_ge, Hlow. lia. }
  split; [done|]. split; [by apply Qltb_lt|]. split; [done|].
  destruct (next_true_reverse_latest _ _ Hj) as (Hjlt & Hjtrue & Hjmax).
  exists (length (step1_bit_search_sat s) - 1 - j)%nat. done.
Qed.

(** ** Inversion of successful runs *)

Ltac minv :=
  repeat match goal with
    | H : bind _ _ _ = (Ok _, _) |- _ =>
        let a := fresh "a" in let w := fresh "w" in let E := fresh "E" in
        apply bind_Ok_inv in H as (a & w & E & H)
    | H : ret _ _ = (Ok _, _) |- _ => apply ret_Ok_inv in H as [? ?]
    | H : getitem _ _ _ = (Ok _, _) |- _ => apply getitem_Ok_inv in H as [? ?]
    | H : setitem _ _ _ _ = (Ok _, _) |- _ => apply setitem_Ok_inv in H as (? & ? & ?)
    | H : read_local _ _ _ = (Ok _, _) |- _ => apply read_local_Ok_inv in H as [? ?]
    | H : truediv _ _ _ = (Ok _, _) |- _ => apply truediv_Ok_inv in H as (? & ? & ?)
    | H : throw _ _ = (Ok _, _) |- _ => discriminate H
    | H : out_of_fuel _ = (Ok _, _) |- _ => discriminate H
    | H : (let ' (_, _) := ?p in _) _ = (Ok _, _) |- _ => destruct p
    | H : match ?p with (_, _) => _ end _ = (Ok _, _) |- _ => destruct p
    end.

Section Grows.
Context {St : Type}.
Variable quantized_test : Config -> St -> Q * St.
Variable inp : Inputs.

Lemma grows_ret {A} (a : A) : grows (St := St) (ret a).
Proof. intros w. exists []. by rewrite app_nil_r. Qed.

Lemma grows_throw {A} e : grows (St := St) (A := A) (throw e).
Proof. intros w. exists []. by rewrite app_nil_r. Qed.

Lemma grows_out_of_fuel {A} : grows (St := St) (A := A) out_of_fuel.
Proof. intros w. exists []. by rewrite app_nil_r. Qed.

Lemma grows_bind {A B} (m : M St A) (k : A -> M St B) :
  grows m -> (forall a, grows (k a)) -> grows (bind m k).
Proof.
  intros Hm Hk w. unfold bind. destruct (Hm w) as [l1 H1].
  destruct (m w) as [[a| |] w1]; simpl in H1.
  - destruct (Hk a w1) as [l2 H2]. exists (l1 ++ l2).
    by rewrite H2, H1, (assoc_L (++)).
  - by exists l1.
  - by exists l1.
Qed.

Lemma grows_evaluate c : grows (evaluate quantized_test c).
Proof.
  intros w. unfold evaluate. destruct (quantized_test c (ost w)) as [a s].
  by exists [(c, a)].
Qed.

Lemma grows_getitem {A} (l : list A) i : grows (St := St) (getitem l i).
Proof. unfold getitem. destruct (l !! i); [apply grows_ret | apply grows_throw]. Qed.

Lemma grows_setitem {A} (l : list A) i v : grows (St := St) (setitem l i v).
Proof. unfold setitem. destruct (l !! i); [apply grows_ret | apply grows_throw]. Qed.

Lemma grows_getitem_neg {A} (l : list A) k : grows (St := St) (getitem_neg l k).
Proof. unfold getitem_neg. destruct (_ <? _)%nat; [apply grows_throw | apply grows_getitem]. Qed.

Lemma grows_read_local {A} var (v : option A) : grows (St := St) (read_local var v).
Proof. destruct v; [apply grows_ret | apply grows_throw]. Qed.

Lemma grows_truediv a b : grows (St := St) (truediv a b).
Proof. unfold truediv. destruct (Qeq_bool b 0); [apply grows_throw | apply grows_ret]. Qed.

Lemma grows_next_true_m l : grows (St := St) (next_true_m l).
Proof. unfold next_true_m. destruct (next_true l); [apply grows_ret | apply grows_throw]. Qed.
End Grows.

Create HintDb grows.
#[export] Hint Resolve grows_ret grows_throw grows_out_of_fuel grows_evaluate grows_getitem
  grows_setitem grows_getitem_neg grows_read_local grows_truediv grows_next_true_m : grows.

(** Breaks a [grows] goal along the structure of the program text. *)
Ltac grows_step :=
  match goal with
  | |- grows (bind _ _) => apply grows_bind; [| intros ?]
  | |- grows (match ?x with _ => _ end) => destruct x
  | |- grows (let ' (_, _) := ?x in _) => destruct x
  | |- grows _ => solve [auto with grows]
  end.
Ltac grows_tac := repeat grows_step.

Section GrowsStages.
Context {St : Type}.
Variable quantized_test : Config -> St -> Q * St.
Variable inp : Inputs.

Lemma grows_step1_while fuel s : grows (step1_while quantized_test inp fuel s).
Proof.
  revert s. induction fuel as [|fuel IH]; intros s; simpl; [auto with grows|].
  unfold step1_quantization_test, step1_select. grows_tac.
Qed.

Lemma grows_step1_search fuel : grows (step1_search quantized_test inp fuel).
Proof.
  unfold step1_search, step1_quantization_test. grows_tac. apply grows_step1_while.
Qed.

Lemma grows_step2_raise fuel a d w acc : grows (step2_raise quantized_test inp fuel a d w acc).
Proof.
  revert w acc. induction fuel as [|fuel IH]; intros w acc; simpl; grows_tac.
Qed.

Lemma grows_step2_lower_while fuel a d i s :
  grows (step2_lower_while quantized_test inp fuel a d i s).
Proof.
  revert s. induction fuel as [|fuel IH]; intros s; simpl; grows_tac.
Qed.

Lemma grows_step2_lower_for fuel a d tuples s :
  grows (step2_lower_for quantized_test inp fuel a d tuples s).
Proof.
  revert s. induction tuples as [|l rest IH]; intros s; simpl; [auto with grows|].
  unfold step2_restore. grows_tac. apply grows_step2_lower_while.
Qed.

Lemma grows_uniform_memory_bits : grows (St := St) (uniform_memory_bits inp).
Proof. unfold uniform_memory_bits. grows_tac. Qed.

Lemma grows_wmem_reduction bits : grows (St := St) (wmem_reduction inp bits).
Proof. unfold wmem_reduction. grows_tac. Qed.

Lemma grows_step2 fuel step1_bits : grows (step2 quantized_test inp fuel step1_bits).
Proof.
  unfold step2, step2_finish. pose proof grows_uniform_memory_bits.
  pose proof grows_wmem_reduction.
  pose proof grows_step2_raise. pose proof grows_step2_lower_for. grows_tac.
Qed.

Lemma grows_decrement_group group act curr : grows (St := St) (decrement_group group act curr).
Proof. revert act curr. induction group as [|i group IH]; intros act curr; simpl; grows_tac. Qed.

Lemma grows_increment_group group act : grows (St := St) (increment_group group act).
Proof. revert act. induction group as [|i group IH]; intros act; simpl; grows_tac. Qed.

Lemma grows_step3a_while fuel w d group min_acc s :
  grows (step3a_while quantized_test fuel w d group min_acc s).
Proof.
  pose proof grows_decrement_group. pose proof grows_increment_group.
  revert s. induction fuel as [|fuel IH]; intros s; simpl; grows_tac.
Qed.

Lemma grows_step3a_for fuel w d per_step start_bits groups min_acc s :
  grows (step3a_for quantized_test fuel w d per_step start_bits groups min_acc s).
Proof.
  pose proof grows_step3a_while.
  revert min_acc s. induction groups as [|g groups IH]; intros min_acc s; simpl; grows_tac.
Qed.

Lemma grows_step3a fuel c acc : grows (step3a quantized_test inp fuel c acc).
Proof. unfold step3a. pose proof grows_step3a_for. grows_tac. Qed.

Lemma grows_gather bits pos : grows (St := St) (gather bits pos).
Proof. induction pos as [|x pos IH]; simpl; grows_tac. Qed.

Lemma grows_scatter bits pos q : grows (St := St) (scatter bits pos q).
Proof.
  revert bits q. induction pos as [|x pos IH]; intros bits q; simpl; [auto with grows|].
  destruct q; grows_tac.
Qed.

Lemma grows_scatter_restore bits pos q acc prev :
  grows (St := St) (scatter_restore bits pos q acc prev).
Proof.
  revert bits q acc. induction pos as [|x pos IH]; intros bits q acc; simpl;
    [auto with grows|]. destruct q; grows_tac.
Qed.

Lemma grows_step4a_while fuel w a l min_acc s :
  grows (step4a_while quantized_test inp fuel w a l min_acc s).
Proof.
  pose proof grows_scatter. pose proof grows_scatter_restore.
  revert s. induction fuel as [|fuel IH]; intros s; simpl; grows_tac.
Qed.

Lemma grows_step4a_for fuel w a per_step ls min_acc s :
  grows (step4a_for quantized_test inp fuel w a per_step ls min_acc s).
Proof.
  pose proof grows_step4a_while.
  revert min_acc s. induction ls as [|l ls IH]; intros min_acc s; simpl; grows_tac.
Qed.

Lemma grows_step4a fuel c acc : grows (step4a quantized_test inp fuel c acc).
Proof.
  unfold step4a. pose proof grows_gather. pose proof grows_step4a_for.
  pose proof grows_wmem_reduction. grows_tac.
Qed.

Lemma grows_qcapsnets fuel : grows (qcapsnets quantized_test inp fuel).
Proof.
  unfold qcapsnets. pose proof grows_step1_search. pose proof grows_step2.
  pose proof grows_step3a. pose proof grows_step4a. grows_tac.
Qed.
End GrowsStages.

(** ** STEP 2 entry *)

Section Step2Entry.
Context {St : Type}.
Variable quantized_test : Config -> St -> Q * St.
Variable inp : Inputs.

Lemma uniform_memory_bits_ok (w : World St) :
  minimum_mem_required inp <> 0%Z ->
  uniform_memory_bits inp w =
    (Ok (Qfloor (memory_budget_bits inp / inject_Z (minimum_mem_required inp))), w).
Proof.
  intros Hne. unfold uniform_memory_bits.
  destruct (minimum_mem_required inp =? 0)%Z eqn:E; [|done].
  by apply Z.eqb_eq in E.
Qed.

Lemma step4a_returns_satisfied fuel c acc (w w' : World St) r :
  step4a quantized_test inp fuel c acc w = (Ok r, w') -> exists d, r = RetSatisfied d.
Proof. unfold step4a. intros H. minv. subst. eauto. Qed.

(** Past the feasibility test STEP 2 never returns the error string. *)
Lemma step2_feasible_inl fuel step1_bits (w w' : World St) r :
  ~ (memory_budget_bits inp < inject_Z (minimum_mem_required inp))%Q ->
  step2 quantized_test inp fuel step1_bits w = (Ok (inl r), w') ->
  exists mm ma, r = RetBranch mm ma.
Proof.
  intros Hfeas. unfold step2.
  destruct (Qltb _ _) eqn:E; [by apply Qltb_lt in E|].
  intros H. minv. unfold step2_finish in H. destruct b; minv; [|done].
  match goal with H : inl _ = inl _ |- _ => injection H as <- end. eauto.
Qed.

(** Past the feasibility test, with a non-zero parameter count, the first
    thing STEP 2 does is to evaluate the uniform memory candidate. *)
Lemma step2_first_call fuel step1_bits (w : World St) :
  ~ (memory_budget_bits inp < inject_Z (minimum_mem_required inp))%Q ->
  minimum_mem_required inp <> 0%Z ->
  exists a calls,
    log (step2 quantized_test inp fuel step1_bits w).2 =
      log w ++
        (mk_config
           (map (fun _ => Qfloor (memory_budget_bits inp / inject_Z (minimum_mem_required inp)))
              (step1_weight_bits inp step1_bits))
           (step1_act_bits inp step1_bits) (step1_dr_bits inp step1_bits), a) :: calls.
Proof.
  intros Hfeas Hne. unfold step2.
  destruct (Qltb _ _) eqn:E; [by apply Qltb_lt in E|].
  rewrite (bind_Ok _ _ _ _ _ (uniform_memory_bits_ok w Hne)).
  set (c := mk_config _ _ _). unfold bind at 1, evaluate at 1.
  destruct (quantized_test c (ost w)) as [a st'].
  set (w1 := Build_World St st' _).
  match goal with |- context [log (?k w1).2] => assert (Hk : grows k) end.
  { pose proof (grows_step2_raise quantized_test inp).
    pose proof (grows_step2_lower_for quantized_test inp).
    pose proof (grows_wmem_reduction inp (St := St)). unfold step2_finish. grows_tac. }
  destruct (Hk w1) as [calls Hcalls]. exists a, calls.
  rewrite Hcalls. subst w1. simpl. by rewrite <- (assoc_L (++)).
Qed.
End Step2Entry.

(** C5.  Once STEP 1 has produced its width (five loop iterations suffice),
    [qcapsnets] returns the error string exactly when the budget in bits is
    strictly below the number of weights of the leaf layers.  In that case the
    world is the one STEP 1 left: nothing else was evaluated and nothing else
    is returned.  Otherwise the result is never the error string, and (the
    model having at least one weight) the search goes on: the next oracle
    call is the evaluation of the uniform memory candidate. *)
Theorem stage2_entry_fail_fast {St : Type}
    (quantized_test : Config -> St -> Q * St) (inp : Inputs) (fuel : nat) (w : World St) :
  (5 <= fuel)%nat ->
  exists step1_bits acc s w1,
    step1_search quantized_test inp fuel w = (Ok (step1_bits, acc, s), w1) /\
    ((memory_budget_bits inp < inject_Z (minimum_mem_required inp))%Q ->
       qcapsnets quantized_test inp fuel w =
         (Ok (RetError (minimum_mem_required inp)), w1)) /\
    (~ (memory_budget_bits inp < inject_Z (minimum_mem_required inp))%Q ->
       (forall m, (qcapsnets quantized_test inp fuel w).1 <> Ok (RetError m)) /\
       (minimum_mem_required inp <> 0%Z ->
        exists a calls,
          log (qcapsnets quantized_test inp fuel w).2 =
            log w1 ++
              (mk_config
                 (map (fun _ => Qfloor (memory_budget_bits inp
                                        / inject_Z (minimum_mem_required inp)))
                    (step1_weight_bits inp step1_bits))
                 (step1_act_bits inp step1_bits) (step1_dr_bits inp step1_bits), a)
              :: calls)).
Proof.
  intros Hfuel.
  destruct (step1_search_correct quantized_test inp fuel w Hfuel)
    as (bits & acc & s & w1 & Hrun & _ & _).
  exists bits, acc, s, w1. split; [done|].
  unfold qcapsnets. rewrite (bind_Ok _ _ _ _ _ Hrun). split.
  - intros Hlt. unfold step2. apply Qltb_lt in Hlt. by rewrite Hlt.
  - intros Hfeas. split.
    + intros m Hm. unfold bind in Hm.
      destruct (step2 quantized_test inp fuel bits w1) as [[[r|[c acc2]]| |] w2] eqn:H2;
        simpl in Hm; try done.
      * injection Hm as ->.
        by destruct (step2_feasible_inl _ _ _ _ _ _ _ Hfeas H2) as (mm & ma & ?).
      * destruct (step3a quantized_test inp fuel c acc2 w2) as [[[c3 acc3]| |] w3];
          simpl in Hm; try done.
        destruct (step4a quantized_test inp fuel c3 acc3 w3) as [[r| |] w4] eqn:H4;
          simpl in Hm; try done.
        injection Hm as ->.
        by destruct (step4a_returns_satisfied _ _ _ _ _ _ _ _ H4) as [d ?].
    + intros Hne.
      destruct (step2_first_call quantized_test inp fuel bits w1 Hfeas Hne)
        as (a & calls & Hlog).
      match goal with |- context [bind _ ?k] => assert (Hk : forall r, grows (k r)) end.
      { intros r. pose proof (grows_step3a quantized_test inp).
        pose proof (grows_step4a quantized_test inp). grows_tac. }
      unfold bind at 1.
      destruct (step2 quantized_test inp fuel bits w1) as [[r| |] w2]; simpl in Hlog.
      * destruct (Hk r w2) as [calls' Hc]. exists a, (calls ++ calls').
        rewrite Hc, Hlog. by rewrite <- (assoc_L (++)).
      * by exists a, calls.
      * by exists a, calls.
Qed.

(** ** STEP 2: the uniform memory candidate *)

Lemma uniform_bits_ge_1 (budget : Q) (total : Z) :
  (0 < total)%Z -> (inject_Z total <= budget)%Q -> (1 <= Qfloor (budget / inject_Z total))%Z.
Proof.
  intros Hpos Hle. change 1%Z with (Qfloor (inject_Z 1)). apply Qfloor_resp_le.
  apply Qle_shift_div_l.
  - change 0%Q with (inject_Z 0). by rewrite <- Zlt_Qlt.
  - by rewrite Qmult_1_l.
Qed.

Lemma uniform_bits_exact (budget : Q) (total : Z) :
  (0 < total)%Z -> (budget == inject_Z total)%Q -> Qfloor (budget / inject_Z total) = 1%Z.
Proof.
  intros Hpos Heq. change 1%Z with (Qfloor (inject_Z 1)). apply Qfloor_comp.
  rewrite Heq. field. intros H0.
  assert (Hlt : (inject_Z 0 < inject_Z total)%Q) by (by rewrite <- Zlt_Qlt).
  rewrite H0 in Hlt. by apply Qlt_irrefl in Hlt.
Qed.

(** [np.sum(number_of_weights_inlayers)] is the number of parameters of the
    leaf modules. *)
Lemma minimum_mem_required_sum (inp : Inputs) :
  minimum_mem_required inp = Z.of_nat (sum_list_with numel (leaf_children inp)).
Proof.
  unfold minimum_mem_required, number_of_weights_inlayers.
  induction (leaf_children inp) as [|c leaves IH]; simpl; [done|].
  rewrite IH. lia.
Qed.

(** C6.  With a feasible budget (and a model that has weights), the uniform
    candidate of STEP 2 is
    [floor(memory_budget * 8 * 2^20 / sum of the weight counts of the leaves)]
    on every layer, and it is at least one bit.  If the accuracy measured for
    it is at least [minimum_accuracy], STEP 2 makes this single oracle call
    (the raise and lower phases are skipped) and hands this configuration,
    with the activation and dynamic-routing widths of STEP 1, on to STEP 3A.
    A budget equal to the sum of the weight counts gives one bit. *)
Theorem stage2_uniform_candidate {St : Type}
    (quantized_test : Config -> St -> Q * St) (inp : Inputs) (fuel : nat)
    (step1_bits : Z) (w : World St) :
  let total := Z.of_nat (sum_list_with numel (leaf_children inp)) in
  let budget_bits := (memory_budget inp * 8 * inject_Z (2 ^ 20))%Q in
  (0 < total)%Z ->
  (inject_Z total <= budget_bits)%Q ->
  let b2 := Qfloor (budget_bits / inject_Z total) in
  let c := mk_config (map (fun _ => b2) (leaf_children inp))
             (map (fun _ => step1_bits) (leaf_children inp))
             (map (fun _ => step1_bits) (filter routes (leaf_children inp))) in
  (1 <= b2)%Z /\
  ((budget_bits == inject_Z total)%Q -> b2 = 1%Z) /\
  forall acc st',
    quantized_test c (ost w) = (acc, st') ->
    (minimum_accuracy inp <= acc)%Q ->
    let w' := {| ost := st'; log := log w ++ [(c, acc)] |} in
    step2 quantized_test inp fuel step1_bits w = (Ok (inr (c, acc)), w') /\
    forall w0 acc1 s1,
      step1_search quantized_test inp fuel w0 = (Ok (step1_bits, acc1, s1), w) ->
      qcapsnets quantized_test inp fuel w0 =
        bind (step3a quantized_test inp fuel c acc)
          (fun r => step4a quantized_test inp fuel r.1 r.2) w'.
Proof.
  intros total budget_bits. subst total. rewrite <- (minimum_mem_required_sum inp).
  change budget_bits with (memory_budget_bits inp). clear budget_bits.
  change (map (fun _ => step1_bits) (leaf_children inp)) with (step1_act_bits inp step1_bits).
  change (map (fun _ => step1_bits) (filter routes (leaf_children inp)))
    with (step1_dr_bits inp step1_bits).
  intros Hpos Hfeas b2 c. split; [by apply uniform_bits_ge_1|].
  split; [by apply uniform_bits_exact|].
  intros acc st' Hq Hacc w'.
  assert (H2 : step2 quantized_test inp fuel step1_bits w = (Ok (inr (c, acc)), w')).
  { unfold step2.
    replace (Qltb (memory_budget_bits inp) (inject_Z (minimum_mem_required inp))) with false
      by (symmetry; by apply Qltb_ge).
    rewrite (bind_Ok _ _ _ _ _ (uniform_memory_bits_ok inp w ltac:(lia))).
    fold b2. unfold step1_weight_bits. rewrite map_map. fold c.
    unfold bind at 1, evaluate at 1. rewrite Hq. fold w'.
    apply Qle_bool_iff in Hacc. rewrite Hacc.
    unfold bind at 1, ret at 1. done. }
  split; [done|].
  intros w0 acc1 s1 H1. unfold qcapsnets.
  rewrite (bind_Ok _ _ _ _ _ H1). rewrite (bind_Ok _ _ _ _ _ H2).
  unfold bind. destruct (step3a quantized_test inp fuel c acc w') as [[[c3 acc3]| |] w3]; done.
Qed.

(** ** STEP 4A without dynamic routing *)

Lemma filter_routes_nil (leaves : list Leaf) :
  Forall (fun c => capsule_layer c && dynamic_routing c = false) leaves ->
  filter routes leaves = [].
Proof.
  induction 1 as [|c leaves Hc _ IH]; [done|].
  rewrite filter_cons_False; [done|].
  unfold routes. rewrite Hc. simpl. tauto.
Qed.

(** C9.  In a model where no leaf has both [capsule_layer] and
    [dynamic_routing], STEP 4A divides its accuracy budget by the length of an
    empty list: every run that gets as far as STEP 4A ends in
    [ZeroDivisionError], and no run returns a satisfied configuration. *)
Theorem step4a_without_routing {St : Type}
    (quantized_test : Config -> St -> Q * St) (inp : Inputs) (fuel : nat) :
  Forall (fun c => capsule_layer c && dynamic_routing c = false) (leaf_children inp) ->
  (forall c acc (w : World St),
     step4a quantized_test inp fuel c acc w = (Raise ZeroDivisionError, w)) /\
  (forall (w : World St) step1_bits acc1 s1 w1 c acc2 w2 c3 acc3 w3,
     step1_search quantized_test inp fuel w = (Ok (step1_bits, acc1, s1), w1) ->
     step2 quantized_test inp fuel step1_bits w1 = (Ok (inr (c, acc2)), w2) ->
     step3a quantized_test inp fuel c acc2 w2 = (Ok (c3, acc3), w3) ->
     qcapsnets quantized_test inp fuel w = (Raise ZeroDivisionError, w3)) /\
  (forall (w : World St) d,
     (qcapsnets quantized_test inp fuel w).1 <> Ok (RetSatisfied d)).
Proof.
  intros Hno. apply filter_routes_nil in Hno.
  assert (H4 : forall c acc (w : World St),
            step4a quantized_test inp fuel c acc w = (Raise ZeroDivisionError, w)).
  { intros c acc w. unfold step4a, dr_quantization_pos, dynamic_routing_quantization.
    rewrite Hno. simpl. unfold bind at 1, ret at 1. done. }
  split; [done|]. split.
  - intros w bits acc1 s1 w1 c acc2 w2 c3 acc3 w3 E1 E2 E3. unfold qcapsnets.
    rewrite (bind_Ok _ _ _ _ _ E1), (bind_Ok _ _ _ _ _ E2), (bind_Ok _ _ _ _ _ E3).
    apply H4.
  - intros w d Hd. unfold qcapsnets, bind in Hd.
    destruct (step1_search quantized_test inp fuel w) as [[[[bits acc1] s1]| |] w1];
      simpl in Hd; try done.
    destruct (step2 quantized_test inp fuel bits w1) as [[[r|[c acc2]]| |] w2] eqn:E2;
      simpl in Hd; try done.
    + injection Hd as ->. unfold step2 in E2.
      destruct (Qltb _ _); minv; [done|]. unfold step2_finish in E2.
      destruct b; minv; done.
    + destruct (step3a quantized_test inp fuel c acc2 w2) as [[[c3 acc3]| |] w3];
        simpl in Hd; try done.
      by rewrite H4 in Hd.
Qed.

(** ** STEP 2: the raise phase and the first layer of the lower phase *)

Section Step2Raise.
Context {St : Type}.
Variable quantized_test : Config -> St -> Q * St.
Variable inp : Inputs.

(** The raise phase adds the same number of bits to every layer and stops
    on an accuracy that is not below [minimum_accuracy]. *)
Lemma step2_raise_spec fuel a d :
  forall wb acc (w : World St) wb' acc' w',
    step2_raise quantized_test inp fuel a d wb acc w = (Ok (wb', acc'), w') ->
    (minimum_accuracy inp <= acc')%Q /\
    exists n : nat, wb' = map (fun b => (b + Z.of_nat n)%Z) wb /\
                    ((acc < minimum_accuracy inp)%Q -> (0 < n)%nat).
Proof.
  induction fuel as [|fuel IH]; intros wb acc w wb' acc' w'; simpl;
    destruct (Qltb acc (minimum_accuracy inp)) eqn:E; try done.
  - intros H. minv. simplify_eq. split; [by apply Qltb_ge|].
    exists 0%nat. split.
    + rewrite <- (map_id wb') at 1. apply map_ext. intros b. simpl. lia.
    + intros Hlt. apply Qltb_lt in Hlt. congruence.
  - intros H. minv. apply IH in H as (Hacc & n & -> & _). split; [done|].
    exists (S n). split; [|lia]. rewrite map_map. apply map_ext. intros b. lia.
  - intros H. minv. simplify_eq. split; [by apply Qltb_ge|].
    exists 0%nat. split.
    + rewrite <- (map_id wb') at 1. apply map_ext. intros b. simpl. lia.
    + intros Hlt. apply Qltb_lt in Hlt. congruence.
Qed.

Lemma step2_lower_while_stops fuel a d i (s : Step2State) (w : World St) :
  (step2_acc s <= minimum_accuracy inp)%Q ->
  step2_lower_while quantized_test inp fuel a d i s w = (Ok s, w).
Proof.
  intros Hle. apply Qltb_ge in Hle. destruct fuel; simpl; by rewrite Hle.
Qed.
End Step2Raise.

(** C10.  When the uniform memory candidate is below [minimum_accuracy] and
    the raise phase stops on an accuracy equal to [minimum_accuracy], the
    loop of the first layer of the lower phase is not entered, and the
    restore that follows reads [prev_step2_acc] before any assignment:
    [qcapsnets] ends in [UnboundLocalError] and returns nothing. *)
Theorem lower_phase_unbound_local {St : Type}
    (quantized_test : Config -> St -> Q * St) (inp : Inputs) (fuel : nat) (w : World St)
    step1_bits acc1 s1 w1 model_memory_acc st2 raised acc_raised w3 l rest :
  step1_search quantized_test inp fuel w = (Ok (step1_bits, acc1, s1), w1) ->
  (0 < minimum_mem_required inp)%Z ->
  (inject_Z (minimum_mem_required inp) <= memory_budget_bits inp)%Q ->
  let b2 := Qfloor (memory_budget_bits inp / inject_Z (minimum_mem_required inp)) in
  let w0 := map (fun _ => b2) (leaf_children inp) in
  let a := step1_act_bits inp step1_bits in
  let d := step1_dr_bits inp step1_bits in
  quantized_test (mk_config w0 a d) (ost w1) = (model_memory_acc, st2) ->
  (model_memory_acc < minimum_accuracy inp)%Q ->
  step2_raise quantized_test inp fuel a d w0 model_memory_acc
    {| ost := st2; log := log w1 ++ [(mk_config w0 a d, model_memory_acc)] |}
    = (Ok (raised, acc_raised), w3) ->
  (acc_raised == minimum_accuracy inp)%Q ->
  sqnr_tuples inp = l :: rest ->
  (l.2 < length (leaf_children inp))%nat ->
  qcapsnets quantized_test inp fuel w = (Raise (UnboundLocalError "prev_step2_acc"), w3).
Proof.
  intros E1 Hpos Hfeas b2 w0 a d Hq Hlow Hraise Heq Htuples Hl.
  unfold qcapsnets. rewrite (bind_Ok _ _ _ _ _ E1).
  assert (H2 : step2 quantized_test inp fuel step1_bits w1
               = (Raise (UnboundLocalError "prev_step2_acc"), w3)); [|by rewrite (bind_Raise _ _ _ _ _ H2)].
  unfold step2.
  replace (Qltb (memory_budget_bits inp) (inject_Z (minimum_mem_required inp))) with false
    by (symmetry; by apply Qltb_ge).
  rewrite (bind_Ok _ _ _ _ _ (uniform_memory_bits_ok inp w1 ltac:(lia))).
  fold b2. unfold step1_weight_bits. rewrite map_map. fold w0 a d.
  unfold bind at 1, evaluate at 1. rewrite Hq.
  apply bind_Raise.
  replace (Qle_bool (minimum_accuracy inp) model_memory_acc) with false
    by (symmetry; by apply Qle_bool_false).
  rewrite (bind_Ok _ _ _ _ _ Hraise). rewrite Htuples. simpl step2_lower_for.
  assert (Hstop : (acc_raised <= minimum_accuracy inp)%Q) by (apply Qle_lteq; by right).
  rewrite (bind_Ok _ _ _ _ _ (step2_lower_while_stops quantized_test inp fuel a d l.2
             (Build_Step2State raised acc_raised None) w3 Hstop)).
  apply bind_Raise. unfold step2_restore. simpl.
  apply step2_raise_spec in Hraise as (_ & n & -> & _).
  destruct (map (fun b => (b + Z.of_nat n)%Z) w0 !! l.2) as [b|] eqn:Hb.
  - rewrite (bind_Ok _ _ _ _ _ (getitem_Some _ _ _ _ Hb)). done.
  - apply lookup_ge_None in Hb. subst w0. rewrite !length_map in Hb. lia.
Qed.

(** ** The sensitivity orderings are sorted permutations *)

Lemma StronglySorted_weaken {A} (R1 R2 : A -> A -> Prop) (l : list A) :
  (forall x y, R1 x y -> R2 x y) -> StronglySorted R1 l -> StronglySorted R2 l.
Proof.
  intros Himp. induction 1 as [|x l Hl IH Hx]; constructor; [done|].
  eapply Forall_impl; [exact Hx | auto].
Qed.

Section Sorting.
Variable before : Q -> Q -> bool.
Hypothesis before_asym : forall a b, before a b = true -> before b a = false.
Hypothesis before_trans :
  forall a b c, before b a = false -> before c b = false -> before c a = false.

Lemma insert_by_perm x l : insert_by before x l ≡ₚ x :: l.
Proof.
  induction l as [|y l IH]; simpl; [done|].
  destruct (before y.1 x.1); [|done]. by rewrite IH, Permutation_swap.
Qed.

Lemma stable_sort_perm l : stable_sort before l ≡ₚ l.
Proof.
  induction l as [|x l IH]; simpl; [done|].
  by rewrite insert_by_perm, IH.
Qed.

Lemma insert_by_sorted x l :
  StronglySorted (may_precede before) l -> StronglySorted (may_precede before) (insert_by before x l).
Proof using before_asym before_trans.
  induction 1 as [|y l Hl IH Hy]; simpl.
  - by repeat constructor.
  - destruct (before y.1 x.1) eqn:E.
    + constructor; [done|]. rewrite insert_by_perm. constructor; [|done].
      by apply before_asym.
    + constructor; [by constructor|]. constructor; [done|].
      eapply Forall_impl; [exact Hy|]. intros z Hz. unfold may_precede in *.
      by eapply before_trans.
Qed.

Lemma stable_sort_sorted l : StronglySorted (may_precede before) (stable_sort before l).
Proof using before_asym before_trans.
  induction l as [|x l IH]; simpl; [constructor | by apply insert_by_sorted].
Qed.
End Sorting.

Lemma enumerate_sqnr_indices (l : list Q) : (enumerate_sqnr l).*2 = seq 0 (length l).
Proof. unfold enumerate_sqnr. apply snd_zip. by rewrite length_seq. Qed.

(** [sqnr_tuples] lists every weight tensor once, by descending SQNR. *)
Lemma sqnr_tuples_sorted (inp : Inputs) :
  StronglySorted (fun x y => (y.1 <= x.1)%Q) (sqnr_tuples inp) /\
  sqnr_tuples inp ≡ₚ enumerate_sqnr (weight_sqnr inp).
Proof.
  split; [|apply stable_sort_perm]. unfold sqnr_tuples.
  eapply StronglySorted_weaken; [|apply stable_sort_sorted].
  - intros x y H. simpl in H. by apply Qltb_ge in H.
  - intros a b H. apply Qltb_lt in H. apply Qltb_ge. by apply Qlt_le_weak.
  - intros a b c H1 H2. apply Qltb_ge in H1, H2. apply Qltb_ge. by eapply Qle_trans.
Qed.

(** [act_sqnr] lists every activation once, by ascending SQNR. *)
Lemma act_sqnr_sorted (inp : Inputs) :
  StronglySorted (fun x y => (x.1 <= y.1)%Q) (act_sqnr inp) /\
  act_sqnr inp ≡ₚ enumerate_sqnr (act_info_sqnr inp).
Proof.
  split; [|apply stable_sort_perm]. unfold act_sqnr.
  eapply StronglySorted_weaken; [|apply stable_sort_sorted].
  - intros x y H. simpl in H. by apply Qltb_ge in H.
  - intros a b H. apply Qltb_lt in H. apply Qltb_ge. by apply Qlt_le_weak.
  - intros a b c H1 H2. apply Qltb_ge in H1, H2. apply Qltb_ge. by eapply Qle_trans.
Qed.

(** ** STEP 2: the lower phase *)

Section Step2Lower.
Context {St : Type}.
Variable quantized_test : Config -> St -> Q * St.
Variable inp : Inputs.
Variables a d : list Z.

Lemma seq_S_start (j n : nat) : seq j (S n) = j :: seq (S j) n.
Proof. done. Qed.

Lemma step2_lower_while_floor fuel i (s : Step2State) b (w : World St) :
  step2_weight_bits s !! i = Some b -> (b <= 1)%Z ->
  step2_lower_while quantized_test inp fuel a d i s w = (Ok s, w).
Proof.
  intros Hb Hle. destruct fuel; simpl; destruct (Qltb _ _); try done;
    rewrite (bind_Ok _ _ _ _ _ (getitem_Some _ _ _ _ Hb));
    by replace (1 <? b)%Z with false by (symmetry; apply Z.ltb_ge; lia).
Qed.

(** One layer of the lower phase, entered with a passing accuracy and more
    than one bit: the loop evaluates the configurations with [b-1], [b-2],
    ... bits on layer [i], one call each; all calls but the last one are
    strictly above [minimum_accuracy]; the last one is not, or has reached
    one bit. *)
Lemma step2_lower_while_run i :
  forall fuel (s : Step2State) (w : World St) b,
    step2_weight_bits s !! i = Some b ->
    (1 < b)%Z -> (minimum_accuracy inp < step2_acc s)%Q ->
    (Z.to_nat (b - 1) <= fuel)%nat ->
    exists pre c_last a_last w1,
      step2_lower_while quantized_test inp fuel a d i s w =
        (Ok {| step2_weight_bits :=
                 <[i := (b - Z.of_nat (S (length pre)))%Z]> (step2_weight_bits s);
               step2_acc := a_last;
               prev_step2_acc := Some (default (step2_acc s) (last pre.*2)) |}, w1) /\
      log w1 = log w ++ pre ++ [(c_last, a_last)] /\
      (pre ++ [(c_last, a_last)]).*1 =
        (fun j => mk_config (<[i := (b - Z.of_nat j)%Z]> (step2_weight_bits s)) a d)
          <$> seq 1 (S (length pre)) /\
      Forall (fun p => (minimum_accuracy inp < p.2)%Q) pre /\
      ((a_last <= minimum_accuracy inp)%Q \/ (b - Z.of_nat (S (length pre)) = 1)%Z) /\
      (1 <= b - Z.of_nat (S (length pre)))%Z.
Proof.
  induction fuel as [|fuel IH]; intros s w b Hb Hb1 Hacc Hfuel; [lia|].
  simpl. apply Qltb_lt in Hacc. rewrite Hacc. apply Qltb_lt in Hacc.
  rewrite (bind_Ok _ _ _ _ _ (getitem_Some _ _ _ _ Hb)).
  replace (1 <? b)%Z with true by (symmetry; apply Z.ltb_lt; lia).
  set (c1 := mk_config _ a d). unfold bind at 1, evaluate at 1.
  destruct (quantized_test c1 (ost w)) as [a1 st'].
  set (w' := Build_World St st' _). set (s' := Build_Step2State _ _ _).
  assert (Hi : (i < length (step2_weight_bits s))%nat) by (by eapply lookup_lt_Some).
  assert (Hb' : step2_weight_bits s' !! i = Some (b - 1)%Z)
    by (subst s'; simpl; by apply list_lookup_insert_eq).
  destruct (Qltb (minimum_accuracy inp) a1) eqn:Ea1;
    [destruct (decide (1 < b - 1)%Z) as [Hgt|Hle]|].
  - (* the decrement passed and there are bits left: go round again *)
    apply Qltb_lt in Ea1.
    destruct (IH s' w' (b - 1)%Z Hb' Hgt Ea1 ltac:(lia))
      as (pre & c_last & a_last & w1 & Hrun & Hlog & Hcalls & Hpre & Hlast & Hfloor).
    exists ((c1, a1) :: pre), c_last, a_last, w1. rewrite Hrun.
    assert (E1 : forall k : nat,
               <[i := (b - 1 - Z.of_nat k)%Z]> (step2_weight_bits s')
               = <[i := (b - Z.of_nat (S k))%Z]> (step2_weight_bits s)).
    { intros k. subst s'. cbn [step2_weight_bits]. rewrite list_insert_insert_eq.
      f_equal. lia. }
    assert (E2 : default (step2_acc s') (last pre.*2)
                 = default (step2_acc s) (last ((c1, a1) :: pre).*2)).
    { subst s'. cbn [step2_acc]. rewrite fmap_cons, last_cons. cbn [snd].
      by destruct (last pre.*2). }
    cbn [length]. rewrite E1, E2.
    split; [done|]. split; [|split; [|split; [|split]]].
    + rewrite Hlog. subst w'. cbn [log]. by rewrite <- (assoc_L (++)).
    + rewrite <- app_comm_cons, fmap_cons, Hcalls. cbn [fst].
      change (seq 1 (S (S (length pre)))) with (1%nat :: seq 2 (S (length pre))).
      f_equal. fold (@fmap list _ nat Config).
      rewrite <- (fmap_S_seq 1 (S (length pre))), <- list_fmap_compose.
      apply list_fmap_ext. intros k j _. cbn. by rewrite E1.
    + constructor; [done|done].
    + destruct Hlast as [?|Hlast]; [by left|right]. lia.
    + lia.
  - (* the decrement passed and reached one bit *)
    exists [], c1, a1, w'. rewrite (step2_lower_while_floor _ _ _ _ _ Hb' ltac:(lia)).
    cbn [length fmap list_fmap last default app seq].
    change (Z.of_nat 1) with 1%Z.
    split; [done|]. split; [done|]. split; [by subst c1|]. split; [done|].
    split; [right; lia | lia].
  - (* the decrement failed *)
    apply Qltb_ge in Ea1. exists [], c1, a1, w'.
    rewrite (step2_lower_while_stops _ _ _ _ _ _ s' w' Ea1).
    cbn [length fmap list_fmap last default app seq].
    change (Z.of_nat 1) with 1%Z.
    split; [done|]. split; [done|]. split; [by subst c1|]. split; [done|].
    split; [by left | lia].
Qed.
End Step2Lower.

Section Step2LowerFor.
Context {St : Type}.
Variable quantized_test : Config -> St -> Q * St.
Variable inp : Inputs.
Variables a d : list Z.

(** Whatever the loop of one layer does, it keeps the number of layers and
    widths of at least one bit, and what it leaves in [prev_step2_acc] was
    strictly above [minimum_accuracy]. *)
Lemma step2_lower_while_inv fuel i :
  forall (s : Step2State) (w : World St) s1 w1,
    step2_lower_while quantized_test inp fuel a d i s w = (Ok s1, w1) ->
    length (step2_weight_bits s1) = length (step2_weight_bits s) /\
    (Forall (fun b => (1 <= b)%Z) (step2_weight_bits s) ->
     Forall (fun b => (1 <= b)%Z) (step2_weight_bits s1)) /\
    ((forall p, prev_step2_acc s = Some p -> (minimum_accuracy inp < p)%Q) ->
     forall p, prev_step2_acc s1 = Some p -> (minimum_accuracy inp < p)%Q).
Proof.
  induction fuel as [|fuel IH]; intros s w s1 w1; simpl;
    (destruct (Qltb (minimum_accuracy inp) (step2_acc s)) eqn:Eacc;
     [|intros H; minv; by simplify_eq]);
    intros H; minv;
    (destruct (1 <? _)%Z eqn:Eb; [|minv; by simplify_eq]); minv.
  apply IH in H as (Hlen & Hfloor & Hprev). simpl in *.
  rewrite length_insert in Hlen. split; [done|]. split.
  - intros Hall. apply Hfloor, Forall_insert; [done|]. apply Z.ltb_lt in Eb. lia.
  - intros _. apply Hprev. intros p [= <-]. by apply Qltb_lt.
Qed.

Lemma step2_restore_inv i (s1 : Step2State) (w : World St) fits s2 w' :
  step2_restore inp i s1 w = (Ok (fits, s2), w') ->
  w' = w /\
  exists b p,
    step2_weight_bits s1 !! i = Some b /\ prev_step2_acc s1 = Some p /\
    s2 = {| step2_weight_bits := <[i := (b + 1)%Z]> (step2_weight_bits s1);
            step2_acc := p; prev_step2_acc := Some p |} /\
    fits = Qle_bool (inject_Z (weight_memory inp (step2_weight_bits s2)))
             (memory_budget_bits inp).
Proof.
  unfold step2_restore. intros H. minv. simplify_eq. split; [done|].
  eexists _, _. split; [done|]. split; [done|]. split; [|done].
  by match goal with H : prev_step2_acc s1 = _ |- _ => rewrite H end.
Qed.

(** The lower phase as a whole.  When it ends with [branchB] still set,
    either there was no layer to visit or the last memory test failed; when
    it ends with [branchB] cleared, the memory test just passed and the
    restored accuracy is strictly above [minimum_accuracy]. *)
Lemma step2_lower_for_inv fuel :
  forall tuples (s : Step2State) (w : World St) branchB s' w',
    (forall p, prev_step2_acc s = Some p -> (minimum_accuracy inp < p)%Q) ->
    step2_lower_for quantized_test inp fuel a d tuples s w = (Ok (branchB, s'), w') ->
    length (step2_weight_bits s') = length (step2_weight_bits s) /\
    (Forall (fun b => (1 <= b)%Z) (step2_weight_bits s) ->
     Forall (fun b => (1 <= b)%Z) (step2_weight_bits s')) /\
    (if branchB
     then (tuples = [] /\ s' = s) \/
          ((memory_budget_bits inp < inject_Z (weight_memory inp (step2_weight_bits s')))%Q /\
           (minimum_accuracy inp < step2_acc s')%Q)
     else (inject_Z (weight_memory inp (step2_weight_bits s')) <= memory_budget_bits inp)%Q /\
          (minimum_accuracy inp < step2_acc s')%Q).
Proof.
  induction tuples as [|l rest IH]; intros s w branchB s' w' Hprev; simpl.
  - intros H. minv. simplify_eq. split; [done|]. split; [done|]. by left.
  - intros H. minv.
    match goal with H : step2_lower_while _ _ _ _ _ _ _ _ = _ |- _ =>
      apply step2_lower_while_inv in H as (Hlen1 & Hfloor1 & Hprev1) end.
    specialize (Hprev1 Hprev).
    match goal with H : step2_restore _ _ _ _ = _ |- _ =>
      apply step2_restore_inv in H as (-> & b0 & p & Hb0 & Hp & -> & ->) end.
    pose proof (Hprev1 p Hp) as Hpmin.
    destruct (Qle_bool _ _) eqn:Efits.
    + minv. simplify_eq. simpl. rewrite length_insert. split; [done|]. split.
      * intros Hall. apply Forall_insert; [by apply Hfloor1|].
        specialize (Hfloor1 Hall). eapply Forall_lookup_1 in Hfloor1; [|done]. lia.
      * split; [by apply Qle_bool_iff | done].
    + apply IH in H as (Hlen & Hfloor & Hres).
      2:{ simpl. by intros ? [= <-]. }
      simpl in Hlen, Hfloor. rewrite length_insert in Hlen.
      split; [lia|]. split.
      * intros Hall. apply Hfloor, Forall_insert; [by apply Hfloor1|].
        specialize (Hfloor1 Hall). eapply Forall_lookup_1 in Hfloor1; [|done]. lia.
      * destruct branchB; [|done]. right. destruct Hres as [[-> ->]|Hres]; [|done].
        simpl. split; [by apply Qle_bool_false | done].
Qed.
End Step2LowerFor.

Lemma default_last_Forall {A} (P : A -> Prop) (x : A) (l : list A) :
  P x -> Forall P l -> P (default x (last l)).
Proof.
  intros Hx Hl. destruct (last l) as [y|] eqn:E; [|done]. simpl.
  apply last_Some_elem_of in E. by eapply (proj1 (Forall_forall P l)).
Qed.

(** The layers before a layer of the ranking: the visit of a list of layers
    goes on to the layers that follow exactly when none of them met the
    budget. *)
Lemma step2_lower_for_app {St : Type} (quantized_test : Config -> St -> Q * St)
    (inp : Inputs) (fuel : nat) (a d : list Z) (ys : list (Q * nat)) :
  forall (xs : list (Q * nat)) (s : Step2State) (w : World St) s' w',
    step2_lower_for quantized_test inp fuel a d xs s w = (Ok (true, s'), w') ->
    step2_lower_for quantized_test inp fuel a d (xs ++ ys) s w =
      step2_lower_for quantized_test inp fuel a d ys s' w'.
Proof.
  induction xs as [|x xs IH]; intros s w s' w' H; simpl in *.
  - apply ret_Ok_inv in H as [H ->]. by injection H as ->.
  - apply bind_Ok_inv in H as (s1 & w1 & Hwhile & H).
    apply bind_Ok_inv in H as ([fits s2] & w2 & Hrestore & H).
    rewrite (bind_Ok _ _ _ _ _ Hwhile), (bind_Ok _ _ _ _ _ Hrestore).
    destruct fits; [by apply ret_Ok_inv in H as [? _]|]. by apply IH.
Qed.

Lemma StronglySorted_app_cons_inv {A} (R : A -> A -> Prop) (xs : list A) (y : A) (zs : list A) :
  StronglySorted R (xs ++ y :: zs) -> Forall (fun x => R x y) xs /\ Forall (R y) zs.
Proof.
  induction xs as [|x xs IH]; simpl; intros H.
  - apply StronglySorted_inv in H as [_ H]. done.
  - apply StronglySorted_inv in H as [Hs Hx]. apply IH in Hs as [H1 H2].
    split; [|done]. constructor; [|done].
    apply Forall_app in Hx as [_ Hx]. by apply Forall_cons in Hx as [Hx _].
Qed.

(** C3, as amended to what the code does.  The run is followed from its
    start: STEP 1, the uniform memory candidate (below [minimum_accuracy]),
    the raise phase, and then the lower phase, which walks [sqnr_tuples];
    [visited] are the layers it has been through without the memory test
    passing, [l] is the layer it is at.  Every layer visited before [l] has
    an SQNR of at least that of [l], and every layer still to come one of at
    most that of [l].  For a layer entered with an accuracy strictly above
    [minimum_accuracy] and more than one bit, the loop evaluates the
    configurations with one bit less, two bits less, ... on that layer, one
    oracle call each; every call but the last is strictly above
    [minimum_accuracy]; the last one is not, or has reached one bit.  Then the
    width before the last decrement and the accuracy measured for it
    (strictly above [minimum_accuracy]) are put back and the weight memory of
    this configuration is compared with the budget.  If it fits, the lower
    phase stops there and what is left of [qcapsnets] is STEP 3A on exactly
    this configuration and accuracy, followed by STEP 4A; if not, the visit
    goes on to the next layer from this configuration. *)
Theorem lower_phase_layer {St : Type}
    (quantized_test : Config -> St -> Q * St) (inp : Inputs) (fuel : nat) (w : World St)
    step1_bits acc1 s1 w1 model_memory_acc st2 raised acc_raised w3
    (visited : list (Q * nat)) (l : Q * nat) (rest : list (Q * nat))
    (s : Step2State) (ws : World St) (b : Z) :
  step1_search quantized_test inp fuel w = (Ok (step1_bits, acc1, s1), w1) ->
  (0 < minimum_mem_required inp)%Z ->
  (inject_Z (minimum_mem_required inp) <= memory_budget_bits inp)%Q ->
  let b2 := Qfloor (memory_budget_bits inp / inject_Z (minimum_mem_required inp)) in
  let w0 := map (fun _ => b2) (leaf_children inp) in
  let a := step1_act_bits inp step1_bits in
  let d := step1_dr_bits inp step1_bits in
  quantized_test (mk_config w0 a d) (ost w1) = (model_memory_acc, st2) ->
  (model_memory_acc < minimum_accuracy inp)%Q ->
  step2_raise quantized_test inp fuel a d w0 model_memory_acc
    {| ost := st2; log := log w1 ++ [(mk_config w0 a d, model_memory_acc)] |}
    = (Ok (raised, acc_raised), w3) ->
  sqnr_tuples inp = visited ++ l :: rest ->
  step2_lower_for quantized_test inp fuel a d visited
    {| step2_weight_bits := raised; step2_acc := acc_raised; prev_step2_acc := None |} w3
    = (Ok (true, s), ws) ->
  step2_weight_bits s !! l.2 = Some b ->
  (1 < b)%Z ->
  (minimum_accuracy inp < step2_acc s)%Q ->
  (Z.to_nat (b - 1) <= fuel)%nat ->
  Forall (fun x => (l.1 <= x.1)%Q) visited /\
  Forall (fun y => (y.1 <= l.1)%Q) rest /\
  exists pre c_last a_last w',
    let k := S (length pre) in
    let restored := default (step2_acc s) (last pre.*2) in
    let s2 := {| step2_weight_bits := <[l.2 := (b - Z.of_nat k + 1)%Z]> (step2_weight_bits s);
                 step2_acc := restored; prev_step2_acc := Some restored |} in
    step2_lower_while quantized_test inp fuel a d l.2 s ws =
      (Ok {| step2_weight_bits := <[l.2 := (b - Z.of_nat k)%Z]> (step2_weight_bits s);
             step2_acc := a_last; prev_step2_acc := Some restored |}, w') /\
    log w' = log ws ++ pre ++ [(c_last, a_last)] /\
    (pre ++ [(c_last, a_last)]).*1 =
      (fun j => mk_config (<[l.2 := (b - Z.of_nat j)%Z]> (step2_weight_bits s)) a d)
        <$> seq 1 k /\
    Forall (fun p => (minimum_accuracy inp < p.2)%Q) pre /\
    ((a_last <= minimum_accuracy inp)%Q \/ (b - Z.of_nat k = 1)%Z) /\
    (minimum_accuracy inp < step2_acc s2)%Q /\
    if Qle_bool (inject_Z (weight_memory inp (step2_weight_bits s2))) (memory_budget_bits inp)
    then qcapsnets quantized_test inp fuel w =
           (do ' (c3, step3a_acc) <-
              step3a quantized_test inp fuel (mk_config (step2_weight_bits s2) a d)
                (step2_acc s2);
            step4a quantized_test inp fuel c3 step3a_acc) w'
    else step2_lower_for quantized_test inp fuel a d (visited ++ [l])
           {| step2_weight_bits := raised; step2_acc := acc_raised; prev_step2_acc := None |}
           w3 = (Ok (true, s2), w').
Proof.
  intros E1 Hpos Hfeas b2 w0 a d Hq Hlow Hraise Htuples Hvisited Hb Hb1 Hacc Hfuel.
  pose proof (sqnr_tuples_sorted inp) as [Hsorted _]. rewrite Htuples in Hsorted.
  apply StronglySorted_app_cons_inv in Hsorted as [Hbefore Hafter].
  split; [done|]. split; [done|].
  destruct (step2_lower_while_run quantized_test inp a d l.2 fuel s ws b Hb Hb1 Hacc Hfuel)
    as (pre & c_last & a_last & w' & Hrun & Hlog & Hcalls & Hpre & Hlast & Hfloor).
  exists pre, c_last, a_last, w'. cbv zeta.
  split; [done|]. split; [done|]. split; [done|]. split; [done|]. split; [done|].
  set (restored := default (step2_acc s) (last pre.*2)).
  set (s2 := Build_Step2State _ restored (Some restored)).
  assert (Hrestored : (minimum_accuracy inp < restored)%Q).
  { by apply (default_last_Forall (fun q => (minimum_accuracy inp < q)%Q));
      [|apply Forall_fmap]. }
  split; [done|].
  (* the visit of [l] *)
  assert (Hi : (l.2 < length (step2_weight_bits s))%nat) by (by eapply lookup_lt_Some).
  set (fits := Qle_bool (inject_Z (weight_memory inp (step2_weight_bits s2)))
                 (memory_budget_bits inp)).
  assert (Hone : forall tail,
             step2_lower_for quantized_test inp fuel a d (l :: tail) s ws =
               (if fits then (Ok (false, s2), w')
                else step2_lower_for quantized_test inp fuel a d tail s2 w')).
  { intros tail. cbn [step2_lower_for]. rewrite (bind_Ok _ _ _ _ _ Hrun).
    set (s1' := Build_Step2State _ a_last _).
    assert (Hres : step2_restore inp l.2 s1' w' = (Ok (fits, s2), w')).
    { unfold step2_restore. subst s1'. cbn [step2_weight_bits prev_step2_acc].
      rewrite (bind_Ok _ _ _ _ _
                 (getitem_Some _ _ _ _ (list_lookup_insert_eq _ _ _ Hi))).
      rewrite list_insert_insert_eq. unfold read_local, bind, ret.
      subst fits s2 restored. cbn [step2_weight_bits].
      do 4 f_equal; f_equal; lia. }
    rewrite (bind_Ok _ _ _ _ _ Hres). by destruct fits. }
  destruct fits eqn:Efits.
  - (* the budget is met: STEP 2 hands the configuration on *)
    assert (Hlower : step2_lower_for quantized_test inp fuel a d (sqnr_tuples inp)
                       (Build_Step2State raised acc_raised None) w3 = (Ok (false, s2), w')).
    { rewrite Htuples, (step2_lower_for_app _ _ _ _ _ _ _ _ _ _ _ Hvisited). apply Hone. }
    unfold qcapsnets. rewrite (bind_Ok _ _ _ _ _ E1).
    assert (H2 : step2 quantized_test inp fuel step1_bits w1 =
                   (Ok (inr (mk_config (step2_weight_bits s2) a d, step2_acc s2)), w')).
    { unfold step2.
      replace (Qltb (memory_budget_bits inp) (inject_Z (minimum_mem_required inp))) with false
        by (symmetry; by apply Qltb_ge).
      rewrite (bind_Ok _ _ _ _ _ (uniform_memory_bits_ok inp w1 ltac:(lia))).
      fold b2. unfold step1_weight_bits. rewrite map_map. fold w0 a d.
      unfold bind at 1, evaluate at 1. rewrite Hq.
      replace (Qle_bool (minimum_accuracy inp) model_memory_acc) with false
        by (symmetry; by apply Qle_bool_false).
      match goal with |- bind ?m _ ?wx = _ => assert (Hm : m wx = (Ok (false, s2), w')) end.
      { rewrite (bind_Ok _ _ _ _ _ Hraise). exact Hlower. }
      rewrite (bind_Ok _ _ _ _ _ Hm). done. }
    rewrite (bind_Ok _ _ _ _ _ H2). done.
  - (* over the budget: on to the next layer *)
    rewrite (step2_lower_for_app _ _ _ _ _ _ _ _ _ _ _ Hvisited). rewrite Hone.
    done.
Qed.

(** ** STEP 2: the two-configuration outcome *)

Lemma weight_memory_uniform (inp : Inputs) (b : Z) :
  weight_memory inp (map (fun _ => b) (leaf_children inp)) = (b * minimum_mem_required inp)%Z.
Proof.
  unfold weight_memory, minimum_mem_required, number_of_weights_inlayers.
  induction (leaf_children inp) as [|c leaves IH]; simpl; [lia|].
  rewrite IH. lia.
Qed.

Lemma uniform_bits_fit (budget : Q) (total : Z) :
  (0 < total)%Z -> (inject_Z (Qfloor (budget / inject_Z total) * total) <= budget)%Q.
Proof.
  intros Hpos. assert (Hq : (0 < inject_Z total)%Q).
  { change 0%Q with (inject_Z 0). by rewrite <- Zlt_Qlt. }
  assert (Hne : ~ (inject_Z total == 0)%Q).
  { intros H0. rewrite H0 in Hq. by apply Qlt_irrefl in Hq. }
  rewrite inject_Z_mult.
  pose proof (Qfloor_le (budget / inject_Z total)) as Hfl.
  apply (Qmult_le_compat_r _ _ (inject_Z total)) in Hfl; [|by apply Qlt_le_weak].
  eapply Qle_trans; [exact Hfl|]. apply Qle_lteq. right. by field.
Qed.

Lemma uniform_bits_next_over (budget : Q) (total n : Z) :
  (0 < total)%Z -> (0 < n)%Z ->
  (budget < inject_Z ((Qfloor (budget / inject_Z total) + n) * total))%Q.
Proof.
  intros Hpos Hn. assert (Hq : (0 < inject_Z total)%Q).
  { change 0%Q with (inject_Z 0). by rewrite <- Zlt_Qlt. }
  assert (Hne : ~ (inject_Z total == 0)%Q).
  { intros H0. rewrite H0 in Hq. by apply Qlt_irrefl in Hq. }
  pose proof (Qlt_floor (budget / inject_Z total)) as Hfl.
  apply (Qmult_lt_compat_r _ _ (inject_Z total)) in Hfl; [|done].
  rewrite <- inject_Z_mult in Hfl.
  eapply Qlt_le_trans.
  - eapply Qle_lt_trans; [|exact Hfl]. apply Qle_lteq. right. by field.
  - rewrite <- Zle_Qle. nia.
Qed.

Lemma inject_Z_nonzero (z : Z) : z <> 0%Z -> ~ (inject_Z z == 0)%Q.
Proof. intros Hz H. apply Hz. change 0%Q with (inject_Z 0) in H. by apply inject_Z_injective. Qed.

(** C4, as amended to what the code does.  When the memory candidate fails
    the accuracy floor, the raise phase has run, and the lower phase has
    visited every layer without the memory test ever passing, [qcapsnets]
    returns two configurations.  The first is the uniform memory candidate
    saved before the raise phase: it fits the budget and its accuracy is
    below [minimum_accuracy].  The second is the configuration the lower
    phase ended with: it is over the budget, with an accuracy of at least
    [minimum_accuracy].  Each comes with its own bit-width vectors, measured
    accuracy and memory-reduction factor.  The configuration the raise phase
    ended on has the same [n >= 1] bits more than the memory candidate on
    every layer; it is over the budget, its accuracy is at least
    [minimum_accuracy], and it is not the first configuration returned. *)
Theorem stage2_branch_returns_two {St : Type}
    (quantized_test : Config -> St -> Q * St) (inp : Inputs) (fuel : nat) (w : World St)
    step1_bits acc1 s1 w1 model_memory_acc st2 raised acc_raised w3 s w4
    model_accuracy_acc st5 :
  step1_search quantized_test inp fuel w = (Ok (step1_bits, acc1, s1), w1) ->
  (0 < minimum_mem_required inp)%Z ->
  (inject_Z (minimum_mem_required inp) <= memory_budget_bits inp)%Q ->
  let b2 := Qfloor (memory_budget_bits inp / inject_Z (minimum_mem_required inp)) in
  let w0 := map (fun _ => b2) (leaf_children inp) in
  let a := step1_act_bits inp step1_bits in
  let d := step1_dr_bits inp step1_bits in
  quantized_test (mk_config w0 a d) (ost w1) = (model_memory_acc, st2) ->
  (model_memory_acc < minimum_accuracy inp)%Q ->
  step2_raise quantized_test inp fuel a d w0 model_memory_acc
    {| ost := st2; log := log w1 ++ [(mk_config w0 a d, model_memory_acc)] |}
    = (Ok (raised, acc_raised), w3) ->
  step2_lower_for quantized_test inp fuel a d (sqnr_tuples inp)
    {| step2_weight_bits := raised; step2_acc := acc_raised; prev_step2_acc := None |} w3
    = (Ok (true, s), w4) ->
  quantized_test (mk_config (step2_weight_bits s) a d) (ost w4) = (model_accuracy_acc, st5) ->
  let model_memory :=
    {| d_weight_bits := w0; d_act_bits := a; d_dr_bits := d; d_acc := model_memory_acc;
       d_wmem_reduction := inject_Z (tot_memory_b inp) / inject_Z (weight_memory inp w0) |} in
  let model_accuracy :=
    {| d_weight_bits := step2_weight_bits s; d_act_bits := a; d_dr_bits := d;
       d_acc := step2_acc s;
       d_wmem_reduction :=
         inject_Z (tot_memory_b inp) / inject_Z (weight_memory inp (step2_weight_bits s)) |} in
  qcapsnets quantized_test inp fuel w =
    (Ok (RetBranch model_memory model_accuracy),
     {| ost := st5;
        log := log w4 ++ [(mk_config (step2_weight_bits s) a d, model_accuracy_acc)] |}) /\
  (inject_Z (weight_memory inp w0) <= memory_budget_bits inp)%Q /\
  (d_acc model_memory < minimum_accuracy inp)%Q /\
  (memory_budget_bits inp < inject_Z (weight_memory inp (step2_weight_bits s)))%Q /\
  (minimum_accuracy inp <= d_acc model_accuracy)%Q /\
  exists n : nat,
    (0 < n)%nat /\
    raised = map (fun _ => (b2 + Z.of_nat n)%Z) (leaf_children inp) /\
    (memory_budget_bits inp < inject_Z (weight_memory inp raised))%Q /\
    (minimum_accuracy inp <= acc_raised)%Q /\
    d_weight_bits model_memory <> raised.
Proof.
  intros E1 Hpos Hfeas b2 w0 a d Hq Hlow Hraise Hlower Hq5 mm ma.
  pose proof (step2_raise_spec _ _ _ _ _ _ _ _ _ _ _ Hraise) as (Hacc_r & n & Hraised & Hn).
  specialize (Hn Hlow).
  assert (Hmem0 : weight_memory inp w0 = (b2 * minimum_mem_required inp)%Z)
    by apply weight_memory_uniform.
  assert (Hfit : (inject_Z (weight_memory inp w0) <= memory_budget_bits inp)%Q)
    by (rewrite Hmem0; by apply uniform_bits_fit).
  pose proof (uniform_bits_ge_1 _ _ Hpos Hfeas) as Hb2. fold b2 in Hb2.
  pose proof Hlower as Hlower_run.
  apply step2_lower_for_inv in Hlower as (_ & _ & Hres); [|done].
  assert (Hover : (memory_budget_bits inp < inject_Z (weight_memory inp (step2_weight_bits s)))%Q
                  /\ (minimum_accuracy inp <= step2_acc s)%Q).
  { destruct Hres as [[_ ->]|[Hover Hacc]]; [|split; [done | by apply Qlt_le_weak]].
    simpl. split; [|done]. rewrite Hraised. subst w0. rewrite map_map.
    rewrite (weight_memory_uniform inp (b2 + Z.of_nat n)).
    apply uniform_bits_next_over; lia. }
  destruct Hover as [Hover Hacc_s].
  assert (Hnz : weight_memory inp (step2_weight_bits s) <> 0%Z).
  { intros H0. rewrite H0 in Hover.
    assert (Hlt : (inject_Z (minimum_mem_required inp) < inject_Z 0)%Q)
      by (by eapply Qle_lt_trans).
    rewrite <- Zlt_Qlt in Hlt. lia. }
  assert (Hraised' : raised = map (fun _ => (b2 + Z.of_nat n)%Z) (leaf_children inp)).
  { rewrite Hraised. subst w0. by rewrite map_map. }
  split; [|split; [done|split; [done|split; [done|split; [done|]]]]].
  2:{ exists n. split; [done|]. split; [done|]. split; [|split; [done|]].
      - rewrite Hraised', (weight_memory_uniform inp (b2 + Z.of_nat n)).
        apply uniform_bits_next_over; lia.
      - subst mm. cbn [d_weight_bits]. rewrite Hraised'. subst w0.
        destruct (leaf_children inp) as [|c leaves] eqn:Eleaves.
        + unfold minimum_mem_required, number_of_weights_inlayers in Hpos.
          rewrite Eleaves in Hpos. simpl in Hpos. lia.
        + simpl. intros [= Hhd _]. lia. }
  unfold qcapsnets. rewrite (bind_Ok _ _ _ _ _ E1).
  match goal with |- _ = (Ok ?r, ?wf) =>
    assert (H2 : step2 quantized_test inp fuel step1_bits w1 = (Ok (inl r), wf)) end;
    [|by rewrite (bind_Ok _ _ _ _ _ H2)].
  unfold step2.
  replace (Qltb (memory_budget_bits inp) (inject_Z (minimum_mem_required inp))) with false
    by (symmetry; by apply Qltb_ge).
  rewrite (bind_Ok _ _ _ _ _ (uniform_memory_bits_ok inp w1 ltac:(lia))).
  fold b2. unfold step1_weight_bits. rewrite map_map. fold w0 a d.
  unfold bind at 1, evaluate at 1. rewrite Hq.
  replace (Qle_bool (minimum_accuracy inp) model_memory_acc) with false
    by (symmetry; by apply Qle_bool_false).
  match goal with |- bind ?m _ ?wx = _ => assert (Hm : m wx = (Ok (true, s), w4)) end.
  { rewrite (bind_Ok _ _ _ _ _ Hraise). exact Hlower_run. }
  rewrite (bind_Ok _ _ _ _ _ Hm). unfold step2_finish, wmem_reduction.
  assert (Hnz0 : weight_memory inp w0 <> 0%Z) by (rewrite Hmem0; nia).
  rewrite (bind_Ok _ _ _ _ _ (truediv_nonzero _ _ _ (inject_Z_nonzero _ Hnz0))).
  unfold bind at 1, evaluate at 1. rewrite Hq5.
  rewrite (bind_Ok _ _ _ _ _ (truediv_nonzero _ _ _ (inject_Z_nonzero _ Hnz))).
  done.
Qed.

(** ** STEP 3A: joint updates of a group *)

Lemma shift_group_lookup delta group act i :
  shift_group delta group act !! i =
    (fun b => if bool_decide (i ∈ group) then (b + delta)%Z else b) <$> act !! i.
Proof. unfold shift_group. by rewrite list_lookup_imap. Qed.

Lemma shift_group_length delta group act : length (shift_group delta group act) = length act.
Proof. unfold shift_group. by rewrite length_imap. Qed.

Lemma shift_group_0 group act : shift_group 0 group act = act.
Proof.
  apply list_eq. intros i. rewrite shift_group_lookup.
  destruct (act !! i) as [b|]; [|done]. simpl. case_bool_decide; [f_equal; lia | done].
Qed.

Lemma shift_group_nil delta act : shift_group delta [] act = act.
Proof.
  apply list_eq. intros i. rewrite shift_group_lookup.
  destruct (act !! i) as [b|]; [|done]. simpl.
  first [done | rewrite bool_decide_eq_false_2; [done|]; apply not_elem_of_nil].
Qed.

Lemma shift_group_shift d1 d2 group act :
  shift_group d1 group (shift_group d2 group act) = shift_group (d2 + d1) group act.
Proof.
  apply list_eq. intros i. rewrite !shift_group_lookup.
  destruct (act !! i) as [b|]; [|done]. simpl. case_bool_decide; [f_equal; lia | done].
Qed.

Lemma shift_group_cons delta i b group act :
  i ∉ group -> act !! i = Some b ->
  shift_group delta group (<[i := (b + delta)%Z]> act) = shift_group delta (i :: group) act.
Proof.
  intros Hi Hb. apply list_eq. intros j. rewrite !shift_group_lookup.
  destruct (decide (j = i)) as [->|Hne].
  - rewrite list_lookup_insert_eq by (by eapply lookup_lt_Some). rewrite Hb. simpl.
    rewrite bool_decide_eq_false_2 by done. rewrite bool_decide_eq_true_2 by set_solver. done.
  - rewrite list_lookup_insert_ne by done. destruct (act !! j) as [bj|]; [|done]. simpl.
    f_equal. rewrite (bool_decide_ext (j ∈ i :: group) (j ∈ group)); [done|].
    rewrite elem_of_cons. tauto.
Qed.

Section GroupUpdates.
Context {St : Type}.

Lemma decrement_group_spec group :
  forall act curr c (w : World St),
    NoDup group -> (forall i, i ∈ group -> act !! i = Some c) ->
    decrement_group group act curr w =
      (Ok (shift_group (-1) group act, if group is [] then curr else (c - 1)%Z), w).
Proof.
  induction group as [|i group IH]; intros act curr c w Hnd Hall; simpl.
  - by rewrite shift_group_nil.
  - apply NoDup_cons in Hnd as [Hi Hnd].
    assert (Hb : act !! i = Some c) by (apply Hall; set_solver).
    rewrite (bind_Ok _ _ _ _ _ (getitem_Some _ _ _ _ Hb)).
    rewrite (IH _ _ c); [|done|].
    + change (c - 1)%Z with (c + -1)%Z. rewrite shift_group_cons by done.
      by destruct group.
    + intros j Hj. rewrite list_lookup_insert_ne by set_solver. apply Hall. set_solver.
Qed.

Lemma increment_group_spec group :
  forall act c (w : World St),
    NoDup group -> (forall i, i ∈ group -> act !! i = Some c) ->
    increment_group group act w = (Ok (shift_group 1 group act), w).
Proof.
  induction group as [|i group IH]; intros act c w Hnd Hall; simpl.
  - by rewrite shift_group_nil.
  - apply NoDup_cons in Hnd as [Hi Hnd].
    assert (Hb : act !! i = Some c) by (apply Hall; set_solver).
    rewrite (bind_Ok _ _ _ _ _ (getitem_Some _ _ _ _ Hb)).
    rewrite (IH _ c); [|done|].
    + by rewrite shift_group_cons.
    + intros j Hj. rewrite list_lookup_insert_ne by set_solver. apply Hall. set_solver.
Qed.

Lemma shift_group_uniform delta group act c :
  (forall i, i ∈ group -> act !! i = Some c) ->
  forall i, i ∈ group -> shift_group delta group act !! i = Some (c + delta)%Z.
Proof.
  intros Hall i Hi. rewrite shift_group_lookup, (Hall i Hi). simpl.
  by rewrite bool_decide_eq_true_2.
Qed.
End GroupUpdates.

(** ** STEP 3A: the loop of one group *)

Section Step3aWhile.
Context {St : Type}.
Variable quantized_test : Config -> St -> Q * St.
Variables (w d : list Z) (group : list nat) (floor : Q).
Hypothesis group_NoDup : NoDup group.
Hypothesis group_nonempty : group <> [].

(** An iteration entered below the floor rolls the group back up. *)
Lemma step3a_while_rollback fuel (s : Step3aState) (ws : World St) c p :
  (step3a_acc s < floor)%Q -> step3a_acc_prev s = Some p ->
  (forall i, i ∈ group -> step3a_act_bits s !! i = Some c) ->
  step3a_while quantized_test (S fuel) w d group floor s ws =
    (Ok {| step3a_act_bits := shift_group 1 group (step3a_act_bits s); step3a_acc := p;
           step3a_acc_prev := Some p; curr_bits := curr_bits s |}, ws).
Proof using group_NoDup.
  intros Hlt Hp Hall. simpl. apply Qle_bool_false in Hlt. rewrite Hlt.
  rewrite (bind_Ok _ _ _ _ _ (increment_group_spec _ _ c ws group_NoDup Hall)).
  rewrite Hp. done.
Qed.

(** The loop of one group, entered with an accuracy that is not below the
    floor of the group and with every layer of the group at [c] bits.
    [pre] are the joint decrements that stayed at or above the floor; [tail]
    is the decrement that fell below it, if there was one.  The group ends
    [length pre] bits lower, with the accuracy measured for that
    configuration. *)
Lemma step3a_while_run :
  forall fuel (s : Step3aState) (ws : World St) c,
    curr_bits s = c ->
    (forall i, i ∈ group -> step3a_act_bits s !! i = Some c) ->
    (floor <= step3a_acc s)%Q ->
    (1 <= fuel)%nat -> (Z.to_nat (c - 1) <= fuel)%nat ->
    exists pre tail s1 w1,
      step3a_while quantized_test fuel w d group floor s ws = (Ok s1, w1) /\
      log w1 = log ws ++ pre ++ tail /\
      (pre ++ tail).*1 =
        (fun j => mk_config w (shift_group (- Z.of_nat j) group (step3a_act_bits s)) d)
          <$> seq 1 (length (pre ++ tail)) /\
      Forall (fun p => (floor <= p.2)%Q) pre /\
      step3a_act_bits s1 = shift_group (- Z.of_nat (length pre)) group (step3a_act_bits s) /\
      step3a_acc s1 = default (step3a_acc s) (last pre.*2) /\
      (Z.of_nat (length pre) <= Z.max 0 (c - 2))%Z /\
      ((tail = [] /\ (c - Z.of_nat (length pre) < 3)%Z) \/
       (exists cf af, tail = [(cf, af)] /\ (af < floor)%Q /\
                      (3 <= c - Z.of_nat (length pre))%Z)).
Proof using group_NoDup group_nonempty.
  induction fuel as [|fuel IH]; intros s ws c Hc Hall Hacc Hf1 Hfuel; [lia|].
  simpl. apply Qle_bool_iff in Hacc. rewrite Hacc. apply Qle_bool_iff in Hacc.
  rewrite Hc. destruct (c <? 3)%Z eqn:Ec.
  - (* below three bits: leave the group as it is *)
    apply Z.ltb_lt in Ec. exists [], [], s, ws. simpl.
    rewrite app_nil_r, shift_group_0. repeat split; try done; [lia|].
    left. split; [done | lia].
  - apply Z.ltb_ge in Ec.
    rewrite (bind_Ok _ _ _ _ _ (decrement_group_spec _ _ _ c ws group_NoDup Hall)).
    replace (if group is [] then c else (c - 1)%Z) with (c - 1)%Z
      by (by destruct group).
    set (c1 := mk_config w _ d). unfold bind at 1, evaluate at 1.
    destruct (quantized_test c1 (ost ws)) as [a1 st'].
    set (ws' := Build_World St st' _). set (s' := Build_Step3aState _ _ _ _).
    assert (Hall' : forall i, i ∈ group -> step3a_act_bits s' !! i = Some (c - 1)%Z).
    { intros i Hi. subst s'. cbn [step3a_act_bits].
      by rewrite (shift_group_uniform (-1) group _ c Hall i Hi). }
    destruct (Qle_bool floor a1) eqn:Ea1.
    + (* the decrement stays at or above the floor: go round again *)
      apply Qle_bool_iff in Ea1.
      destruct (IH s' ws' (c - 1)%Z eq_refl Hall' Ea1 ltac:(lia) ltac:(lia))
        as (pre & tail & s1 & w1 & Hrun & Hlog & Hcalls & Hpre & Hact & Hacc1 & Hn & Hend).
      exists ((c1, a1) :: pre), tail, s1, w1. rewrite Hrun.
      assert (E1 : forall k : nat,
                 shift_group (- Z.of_nat k) group (step3a_act_bits s')
                 = shift_group (- Z.of_nat (S k)) group (step3a_act_bits s)).
      { intros k. subst s'. cbn [step3a_act_bits]. rewrite shift_group_shift.
        f_equal. lia. }
      split; [done|]. split; [|split; [|split; [|split; [|split; [|split]]]]].
      * rewrite Hlog. subst ws'. cbn [log]. by rewrite <- (assoc_L (++)).
      * rewrite <- app_comm_cons, fmap_cons, Hcalls. cbn [fst length].
        change (seq 1 (S (length (pre ++ tail))))
          with (1%nat :: seq 2 (length (pre ++ tail))).
        rewrite fmap_cons. f_equal.
        rewrite <- (fmap_S_seq 1 (length (pre ++ tail))), <- list_fmap_compose.
        apply list_fmap_ext. intros k j _. unfold compose. by rewrite E1.
      * by constructor.
      * rewrite Hact. cbn [length]. apply E1.
      * rewrite Hacc1. subst s'. cbn [step3a_acc]. rewrite fmap_cons, last_cons.
        cbn [snd]. by destruct (last pre.*2).
      * cbn [length]. lia.
      * cbn [length]. destruct Hend as [[-> Hlt]|(cf & af & -> & Haf & Hge)].
        -- left. split; [done | lia].
        -- right. exists cf, af. split; [done|]. split; [done | lia].
    + (* the decrement fell below the floor: the next iteration rolls back *)
      apply Qle_bool_false in Ea1.
      destruct fuel as [|fuel]; [lia|].
      rewrite (step3a_while_rollback fuel s' ws' (c - 1)%Z (step3a_acc s) Ea1 eq_refl Hall').
      exists [], [(c1, a1)]. eexists _, _. split; [done|].
      subst s'. cbn [step3a_act_bits step3a_acc app length fmap list_fmap last default].
      rewrite shift_group_shift, !shift_group_0.
      repeat split; try done; [lia|]. right. exists c1, a1. split; [done|].
      split; [done | lia].
Qed.
End Step3aWhile.

(** ** The activation groups *)

Lemma index_range_take_drop (s : list (Q * nat)) (a b : nat) :
  index_range s a b = (take (b - a) (drop a s)).*2.
Proof. done. Qed.

(** The groups, in the order they are processed, are consecutive slices of
    the list sorted by ascending SQNR. *)
Lemma group_indices_concat (s : list (Q * nat)) : concat (group_indices s) = s.*2.
Proof.
  unfold group_indices. destruct (4 <? length s)%nat eqn:E.
  - set (k := (length s / 4)%nat). cbv zeta. cbn [concat]. rewrite app_nil_r.
    unfold index_range. rewrite <- !fmap_app. f_equal. rewrite drop_0.
    replace (k - 0)%nat with k by lia. replace (2 * k - k)%nat with k by lia.
    replace (3 * k - 2 * k)%nat with k by lia.
    rewrite (assoc_L (++)), take_take_drop. replace (k + k)%nat with (2 * k)%nat by lia.
    rewrite (assoc_L (++)), take_take_drop. replace (2 * k + k)%nat with (3 * k)%nat by lia.
    rewrite (take_ge (drop (3 * k) s)) by (rewrite length_drop; lia).
    apply take_drop.
  - clear E. induction s as [|t s IH]; [done|]. simpl. f_equal. apply IH.
Qed.

Lemma group_indices_nonempty (s : list (Q * nat)) :
  Forall (fun g => g <> []) (group_indices s).
Proof.
  unfold group_indices. destruct (4 <? length s)%nat eqn:E.
  - apply Nat.ltb_lt in E. set (k := (length s / 4)%nat).
    assert (Hk : (1 <= k)%nat) by (subst k; apply Nat.div_le_lower_bound; lia).
    assert (H3k : (4 * k <= length s)%nat) by (subst k; apply Nat.Div0.mul_div_le).
    repeat constructor; unfold index_range; intros H;
      apply (f_equal length) in H; rewrite length_fmap, length_take, length_drop in H;
      simpl in H; lia.
  - clear E. induction s as [|t s IH]; simpl; constructor; [done|apply IH].
Qed.

Lemma act_groups_NoDup (inp : Inputs) : NoDup (concat (act_sqnr_grouped_index inp)).
Proof.
  unfold act_sqnr_grouped_index. rewrite group_indices_concat.
  destruct (act_sqnr_sorted inp) as [_ Hperm].
  rewrite Hperm, enumerate_sqnr_indices. apply NoDup_seq.
Qed.

(** C7, as amended to what the code does.  The accuracy budget of STEP 3A is
    55% of (STEP 2 accuracy - [minimum_accuracy]) and each group gets this
    budget divided by the number of groups.  The groups are consecutive
    slices of the activations sorted by ascending SQNR and are processed in
    that order; the floor of a group is the previous floor minus one share.
    For a group entered at or above its floor, with all its layers at
    [start_bits]: all layers of the group are decremented together, one bit
    and one oracle call at a time, as long as the accuracy is at or above the
    floor and the width before the decrement is at least 3 (so a group can
    reach 2 bits).  A decrement that falls below the floor is rolled back by
    one bit and the accuracy measured before it is restored; a loop stopped by
    the width test keeps its last configuration.  Either way the group ends
    [length pre] bits lower, with the accuracy measured for exactly that
    configuration, and the next group starts from there. *)
Theorem step3a_group {St : Type}
    (quantized_test : Config -> St -> Q * St) (inp : Inputs) (fuel : nat)
    (w d : list Z) (per_step : Q) (start_bits : Z) (group : list nat)
    (rest : list (list nat)) (floor : Q) (s : Step3aState) (ws : World St) :
  NoDup group -> group <> [] ->
  (forall i, i ∈ group -> step3a_act_bits s !! i = Some start_bits) ->
  (floor - per_step <= step3a_acc s)%Q ->
  (1 <= fuel)%nat -> (Z.to_nat (start_bits - 1) <= fuel)%nat ->
  (forall acc2, (step3a_accuracy_budget inp acc2 == 55 / 100 * (acc2 - minimum_accuracy inp))%Q) /\
  (forall c acc2 (w0 : World St),
     act_sqnr_grouped_index inp <> [] ->
     step3a quantized_test inp fuel c acc2 w0 =
       bind (getitem (act_bits c) 0)
         (fun start =>
            bind (step3a_for quantized_test fuel (weight_bits c) (dr_bits c)
                    (step3a_accuracy_budget inp acc2
                     / inject_Z (Z.of_nat (length (act_sqnr_grouped_index inp))))
                    start (act_sqnr_grouped_index inp) acc2
                    {| step3a_act_bits := act_bits c; step3a_acc := acc2;
                       step3a_acc_prev := None; curr_bits := start |})
              (fun s' => ret (mk_config (weight_bits c) (step3a_act_bits s') (dr_bits c),
                              step3a_acc s'))) w0) /\
  StronglySorted (fun x y => (x.1 <= y.1)%Q) (act_sqnr inp) /\
  concat (act_sqnr_grouped_index inp) = (act_sqnr inp).*2 /\
  exists pre tail s1 w1,
    step3a_for quantized_test fuel w d per_step start_bits (group :: rest) floor s ws =
      step3a_for quantized_test fuel w d per_step start_bits rest (floor - per_step) s1 w1 /\
    log w1 = log ws ++ pre ++ tail /\
    (pre ++ tail).*1 =
      (fun j => mk_config w (shift_group (- Z.of_nat j) group (step3a_act_bits s)) d)
        <$> seq 1 (length (pre ++ tail)) /\
    Forall (fun p => (floor - per_step <= p.2)%Q) pre /\
    step3a_act_bits s1 = shift_group (- Z.of_nat (length pre)) group (step3a_act_bits s) /\
    step3a_acc s1 = default (step3a_acc s) (last pre.*2) /\
    (floor - per_step <= step3a_acc s1)%Q /\
    (Z.of_nat (length pre) <= Z.max 0 (start_bits - 2))%Z /\
    ((tail = [] /\ (start_bits - Z.of_nat (length pre) < 3)%Z) \/
     (exists cf af, tail = [(cf, af)] /\ (af < floor - per_step)%Q /\
                    (3 <= start_bits - Z.of_nat (length pre))%Z)).
Proof.
  intros Hnd Hne Hall Hacc Hf1 Hfuel.
  split; [intros acc2; unfold step3a_accuracy_budget; field|].
  split.
  { intros c acc2 w0 Hgroups. unfold step3a.
    assert (Hnz : ~ (inject_Z (Z.of_nat (length (act_sqnr_grouped_index inp))) == 0)%Q).
    { apply inject_Z_nonzero. destruct (act_sqnr_grouped_index inp); [done | simpl; lia]. }
    by rewrite (bind_Ok _ _ _ _ _ (truediv_nonzero _ _ w0 Hnz)). }
  split; [apply act_sqnr_sorted|]. split; [apply group_indices_concat|].
  set (s0 := {| step3a_act_bits := step3a_act_bits s; step3a_acc := step3a_acc s;
                step3a_acc_prev := step3a_acc_prev s; curr_bits := start_bits |}).
  destruct (step3a_while_run quantized_test w d group (floor - per_step)%Q Hnd Hne
              fuel s0 ws start_bits eq_refl Hall Hacc Hf1 Hfuel)
    as (pre & tail & s1 & w1 & Hrun & Hlog & Hcalls & Hpre & Hact & Hacc1 & Hn & Hend).
  exists pre, tail, s1, w1. cbn [step3a_for]. fold s0. rewrite (bind_Ok _ _ _ _ _ Hrun).
  split; [done|]. split; [done|]. split; [done|]. split; [done|]. split; [done|].
  split; [done|]. split; [|done].
  rewrite Hacc1. cbn [step3a_acc].
  by apply (default_last_Forall (fun q => (floor - per_step <= q)%Q)); [|apply Forall_fmap].
Qed.

(** ** Bounds kept by STEP 3A *)

Section GroupInversion.
Context {St : Type}.

Lemma decrement_group_in_range group :
  forall act curr (w : World St) act' curr' w',
    decrement_group group act curr w = (Ok (act', curr'), w') ->
    forall i, i ∈ group -> (i < length act)%nat.
Proof.
  induction group as [|i group IH]; intros act curr w act' curr' w' H j Hj.
  - by apply elem_of_nil in Hj.
  - simpl in H. minv. apply elem_of_cons in Hj as [->|Hj]; [by eapply lookup_lt_Some|].
    eapply IH in H; [|done]. by rewrite length_insert in H.
Qed.

Lemma increment_group_in_range group :
  forall act (w : World St) act' w',
    increment_group group act w = (Ok act', w') ->
    forall i, i ∈ group -> (i < length act)%nat.
Proof.
  induction group as [|i group IH]; intros act w act' w' H j Hj.
  - by apply elem_of_nil in Hj.
  - simpl in H. minv. apply elem_of_cons in Hj as [->|Hj]; [by eapply lookup_lt_Some|].
    eapply IH in H; [|done]. by rewrite length_insert in H.
Qed.
End GroupInversion.

Section Step3aBounds.
Context {St : Type}.
Variable quantized_test : Config -> St -> Q * St.
Variables (w d : list Z) (c0 : Z).

Section OneGroup.
Variables (group : list nat) (floor : Q) (act0 : list Z).
Hypothesis group_NoDup : NoDup group.
Hypothesis group_nonempty : group <> [].
Hypothesis group_fresh :
  forall i, i ∈ group -> (i < length act0)%nat -> act0 !! i = Some c0.

Lemma step3a_while_inv fuel :
  forall (n : nat) (s : Step3aState) (ws : World St) s1 w1,
    step3a_act_bits s = shift_group (- Z.of_nat n) group act0 ->
    curr_bits s = (c0 - Z.of_nat n)%Z ->
    (n = 0%nat -> (floor <= step3a_acc s)%Q) ->
    ((0 < n)%nat -> exists p, step3a_acc_prev s = Some p /\ (floor <= p)%Q) ->
    (Z.of_nat n <= Z.max 0 (c0 - 2))%Z ->
    step3a_while quantized_test fuel w d group floor s ws = (Ok s1, w1) ->
    exists m : nat,
      step3a_act_bits s1 = shift_group (- Z.of_nat m) group act0 /\
      (floor <= step3a_acc s1)%Q /\ (Z.of_nat m <= Z.max 0 (c0 - 2))%Z.
Proof using group_NoDup group_nonempty group_fresh.
  induction fuel as [|fuel IH]; intros n s ws s1 w1 Hact Hcurr Hn0 Hprev Hn H;
    [done|].
  simpl in H.
  assert (Huni : (forall i, i ∈ group -> (i < length (step3a_act_bits s))%nat) ->
                 forall i, i ∈ group ->
                           step3a_act_bits s !! i = Some (c0 - Z.of_nat n)%Z).
  { intros Hrange i Hi. specialize (Hrange i Hi).
    rewrite Hact, shift_group_length in Hrange.
    rewrite Hact, shift_group_lookup, (group_fresh i Hi Hrange). simpl.
    by rewrite bool_decide_eq_true_2. }
  destruct (Qle_bool floor (step3a_acc s)) eqn:Eacc.
  - apply Qle_bool_iff in Eacc. destruct (curr_bits s <? 3)%Z eqn:Ec.
    + minv. simplify_eq. by exists n.
    + apply Z.ltb_ge in Ec. apply bind_Ok_inv in H as ([act' curr'] & w2 & Hdec & H).
      pose proof (decrement_group_in_range _ _ _ _ _ _ _ Hdec) as Hrange.
      rewrite (decrement_group_spec group _ _ (c0 - Z.of_nat n)%Z ws group_NoDup
                 (Huni Hrange)) in Hdec.
      injection Hdec as <- <- <-.
      apply bind_Ok_inv in H as (acc' & w3 & _ & H).
      apply (IH (S n)) in H; [done| | | | |].
      * cbn [step3a_act_bits]. rewrite Hact, shift_group_shift. f_equal. lia.
      * cbn [curr_bits]. destruct group; [done | lia].
      * done.
      * intros _. cbn [step3a_acc_prev]. by exists (step3a_acc s).
      * lia.
  - apply Qle_bool_false in Eacc. destruct (decide (n = 0%nat)) as [->|Hpos].
    { specialize (Hn0 eq_refl). exfalso. by apply (Qlt_not_le _ _ Eacc). }
    destruct (Hprev ltac:(lia)) as (p & Hp & Hpfloor).
    apply bind_Ok_inv in H as (act' & w2 & Hinc & H).
    pose proof (increment_group_in_range _ _ _ _ _ Hinc) as Hrange.
    rewrite (increment_group_spec group _ (c0 - Z.of_nat n)%Z ws group_NoDup
               (Huni Hrange)) in Hinc.
    injection Hinc as <- <-. rewrite Hp in H. minv. simplify_eq.
    exists (n - 1)%nat. cbn [step3a_act_bits step3a_acc].
    split; [|split; [done | lia]].
    rewrite Hact, shift_group_shift. f_equal. lia.
Qed.
End OneGroup.

Lemma shift_group_in_bounds (m : nat) group act :
  (Z.of_nat m <= Z.max 0 (c0 - 2))%Z ->
  (forall i, i ∈ group -> (i < length act)%nat -> act !! i = Some c0) ->
  Forall (in_bounds c0) act -> Forall (in_bounds c0) (shift_group (- Z.of_nat m) group act).
Proof.
  intros Hm Hfresh Hall. apply Forall_lookup. intros i b.
  rewrite shift_group_lookup. destruct (act !! i) as [b0|] eqn:Hb0; [|done].
  simpl. intros [= <-]. case_bool_decide as Hi.
  - rewrite (Hfresh i Hi) in Hb0 by (by eapply lookup_lt_Some).
    injection Hb0 as <-. unfold in_bounds. lia.
  - by eapply Forall_lookup_1.
Qed.

Lemma step3a_for_inv fuel per_step :
  (0 <= per_step)%Q ->
  forall groups floor (s : Step3aState) (ws : World St) s' w',
    NoDup (concat groups) -> Forall (fun g => g <> []) groups ->
    (forall i, i ∈ concat groups -> (i < length (step3a_act_bits s))%nat ->
               step3a_act_bits s !! i = Some c0) ->
    Forall (in_bounds c0) (step3a_act_bits s) ->
    (floor <= step3a_acc s)%Q ->
    step3a_for quantized_test fuel w d per_step c0 groups floor s ws = (Ok s', w') ->
    Forall (in_bounds c0) (step3a_act_bits s') /\
    (floor - inject_Z (Z.of_nat (length groups)) * per_step <= step3a_acc s')%Q.
Proof.
  intros Hper. induction groups as [|g groups IH];
    intros floor s ws s' w' Hnd Hne Hfresh Hall Hacc H; simpl in H.
  - minv. simplify_eq. split; [done|]. simpl.
    eapply Qle_trans; [|exact Hacc]. apply Qle_lteq. right. ring.
  - apply bind_Ok_inv in H as (s1 & w1 & Hwhile & H).
    cbn [concat] in Hnd. apply NoDup_app in Hnd as (Hndg & Hdisj & Hndrest).
    apply Forall_cons in Hne as [Hneg Hnerest].
    assert (Hfloor' : (floor - per_step <= step3a_acc s)%Q).
    { eapply Qle_trans; [|exact Hacc].
      rewrite <- (Qplus_0_r floor) at 2. unfold Qminus. apply Qplus_le_r.
      change 0%Q with (- 0)%Q. by apply Qopp_le_compat. }
    apply (step3a_while_inv g (floor - per_step)%Q (step3a_act_bits s) Hndg Hneg) with (n := 0%nat)
      in Hwhile as (m & Hact1 & Hacc1 & Hm).
    2:{ intros i Hi Hlt. apply Hfresh; [|done]. cbn [concat]. apply elem_of_app. by left. }
    2:{ cbn [step3a_act_bits]. by rewrite shift_group_0. }
    2:{ cbn [curr_bits]. lia. }
    2:{ done. }
    2:{ lia. }
    2:{ lia. }
    apply IH in H as (Hall' & Hacc'); [| done | done | | | done].
    + split; [done|]. eapply Qle_trans; [|exact Hacc']. apply Qle_lteq. right.
      cbn [length]. rewrite Nat2Z.inj_succ. unfold Z.succ. rewrite inject_Z_plus. ring.
    + intros i Hi Hlt. rewrite Hact1, shift_group_length in Hlt.
      rewrite Hact1, shift_group_lookup.
      rewrite Hfresh; [|cbn [concat]; apply elem_of_app; by right|done].
      simpl. rewrite bool_decide_eq_false_2; [done|].
      intros Hg. by apply (Hdisj i Hg).
    + rewrite Hact1. apply shift_group_in_bounds; [done| |done].
      intros i Hi Hlt. apply Hfresh; [|done]. cbn [concat]. apply elem_of_app. by left.
Qed.
End Step3aBounds.

Lemma inject_Z_of_nat_pos (n : nat) : (0 < n)%nat -> (0 < inject_Z (Z.of_nat n))%Q.
Proof. intros Hn. change 0%Q with (inject_Z 0). rewrite <- Zlt_Qlt. lia. Qed.

Lemma share_nonneg (budget : Q) (n : nat) :
  (0 <= budget)%Q -> (0 < n)%nat -> (0 <= budget / inject_Z (Z.of_nat n))%Q.
Proof.
  intros Hb Hn. apply Qle_shift_div_l; [by apply inject_Z_of_nat_pos|].
  by rewrite Qmult_0_l.
Qed.

Lemma shares_sum (budget : Q) (n : nat) :
  (0 < n)%nat -> (inject_Z (Z.of_nat n) * (budget / inject_Z (Z.of_nat n)) == budget)%Q.
Proof.
  intros Hn. field. intros H0. pose proof (inject_Z_of_nat_pos n Hn) as Hpos.
  rewrite H0 in Hpos. by apply Qlt_irrefl in Hpos.
Qed.

Section Step3aResult.
Context {St : Type}.
Variable quantized_test : Config -> St -> Q * St.
Variable inp : Inputs.

(** STEP 3A, entered with all activation widths at [bits] and an accuracy
    of at least [minimum_accuracy]: the weights and routing widths are left
    alone, the activation widths stay within bounds, and the accuracy handed
    on is still at least [minimum_accuracy]. *)
Lemma step3a_inv fuel c acc2 bits (ws : World St) c3 acc3 w' :
  Forall (fun b => b = bits) (act_bits c) ->
  (minimum_accuracy inp <= acc2)%Q ->
  step3a quantized_test inp fuel c acc2 ws = (Ok (c3, acc3), w') ->
  weight_bits c3 = weight_bits c /\ dr_bits c3 = dr_bits c /\
  Forall (fun b => (Z.min 2 bits <= b <= bits)%Z) (act_bits c3) /\
  (minimum_accuracy inp <= acc3)%Q.
Proof.
  intros Huni Hacc2 H. unfold step3a in H.
  apply bind_Ok_inv in H as (per & w1 & Hdiv & H).
  apply truediv_Ok_inv in Hdiv as (Hnz & -> & ->).
  apply bind_Ok_inv in H as (start & w2 & Hstart & H).
  apply getitem_Ok_inv in Hstart as (Hstart & ->).
  assert (start = bits) as -> by (by eapply Forall_lookup_1 in Huni).
  apply bind_Ok_inv in H as (s' & w3 & Hfor & H). minv. simplify_eq.
  set (groups := act_sqnr_grouped_index inp) in *.
  assert (Hn : (0 < length groups)%nat).
  { destruct groups; [|simpl; lia]. exfalso. by apply Hnz. }
  assert (Hshare : (step3a_accuracy_budget inp acc2
                    == (acc2 - minimum_accuracy inp) * (55 # 100))%Q)
    by (unfold step3a_accuracy_budget; field).
  assert (Hbudget : (0 <= step3a_accuracy_budget inp acc2)%Q) by (rewrite Hshare; lra).
  apply step3a_for_inv in Hfor as (Hall & Hacc).
  - split; [done|]. split; [done|]. split; [done|]. cbn [snd].
    eapply Qle_trans; [|exact Hacc]. rewrite shares_sum by done.
    rewrite Hshare. lra.
  - by apply share_nonneg.
  - apply act_groups_NoDup.
  - apply group_indices_nonempty.
  - intros i _ Hlt. cbn [step3a_act_bits] in *.
    destruct (act_bits c !! i) as [b|] eqn:Hb; [|by apply lookup_ge_None in Hb; lia].
    by eapply Forall_lookup_1 in Huni as ->.
  - cbn [step3a_act_bits]. eapply Forall_impl; [exact Huni|]. intros b ->.
    apply lookup_lt_Some in Hstart. unfold in_bounds. lia.
  - cbn [step3a_acc]. apply Qle_refl.
Qed.
End Step3aResult.

(** ** Bounds kept by STEP 4A *)

Section Step4aBounds.
Context {St : Type}.
Variable quantized_test : Config -> St -> Q * St.
Variable inp : Inputs.
Variable P : Z -> Prop.

Lemma gather_inv bits pos :
  forall (w : World St) q w',
    gather bits pos w = (Ok q, w') ->
    Forall P bits -> Forall P q /\ length q = length pos.
Proof.
  induction pos as [|x pos IH]; intros w q w' H Hall; simpl in H; minv; simplify_eq.
  - done.
  - match goal with H : gather _ _ _ = _ |- _ => apply IH in H as [Hq Hlen]; [|done] end.
    split; [|simpl; lia]. constructor; [|done]. by eapply Forall_lookup_1.
Qed.

Lemma scatter_inv pos :
  forall bits q (w : World St) bits' w',
    scatter bits pos q w = (Ok bits', w') ->
    Forall P bits -> Forall P q -> Forall P bits'.
Proof.
  induction pos as [|p pos IH]; intros bits q w bits' w' H Hbits Hq; simpl in H.
  - minv. by simplify_eq.
  - destruct q as [|v q]; [minv; by simplify_eq|]. minv. simplify_eq.
    apply Forall_cons in Hq as [Hv Hq]. eapply IH; [done| |done].
    by apply Forall_insert.
Qed.

Lemma scatter_restore_inv pos :
  forall bits q acc prev (w : World St) bits' acc' w',
    scatter_restore bits pos q acc prev w = (Ok (bits', acc'), w') ->
    Forall P bits -> Forall P q ->
    Forall P bits' /\ ((pos = [] \/ q = []) /\ acc' = acc \/ prev = Some acc').
Proof.
  induction pos as [|p pos IH]; intros bits q acc prev w bits' acc' w' H Hbits Hq;
    simpl in H.
  - minv. simplify_eq. split; [done|]. left. split; [by left | done].
  - destruct q as [|v q]; [minv; simplify_eq; split; [done|]; left; split; [by right|done]|].
    minv. simplify_eq. apply Forall_cons in Hq as [Hv Hq].
    eapply IH in H as [Hall Hacc]; [|by apply Forall_insert|done].
    split; [done|]. right. destruct Hacc as [[_ ->]|Hacc]; done.
Qed.
End Step4aBounds.

Section Step4aLoops.
Context {St : Type}.
Variable quantized_test : Config -> St -> Q * St.
Variable inp : Inputs.
Variables (w a : list Z) (c0 : Z).

Lemma step4a_while_inv fuel l floor :
  forall (s : Step4aState) (ws : World St) s1 w1,
    Forall (in_bounds c0) (dr_quantization_bits s) -> Forall (in_bounds c0) (step4a_dr_bits s) ->
    length (dr_quantization_bits s) = length (dr_quantization_pos inp) ->
    ((step4a_acc s < floor)%Q ->
     exists p b, step4a_acc_prev s = Some p /\ (floor <= p)%Q /\
                 dr_quantization_bits s !! l = Some b /\ (b < c0)%Z) ->
    step4a_while quantized_test inp fuel w a l floor s ws = (Ok s1, w1) ->
    Forall (in_bounds c0) (dr_quantization_bits s1) /\ Forall (in_bounds c0) (step4a_dr_bits s1) /\
    length (dr_quantization_bits s1) = length (dr_quantization_pos inp) /\
    (floor <= step4a_acc s1)%Q.
Proof.
  induction fuel as [|fuel IH]; intros s ws s1 w1 Hq Hd Hlen Hlow H; [done|].
  simpl in H. destruct (Qle_bool floor (step4a_acc s)) eqn:Eacc.
  - apply Qle_bool_iff in Eacc.
    apply bind_Ok_inv in H as (b & w2 & Hb & H). apply getitem_Ok_inv in Hb as [Hb ->].
    pose proof (Forall_lookup_1 _ _ _ _ Hq Hb) as Hbb.
    destruct (b <? 3)%Z eqn:Eb.
    + minv. by simplify_eq.
    + apply Z.ltb_ge in Eb.
      assert (Hq' : Forall (in_bounds c0) (<[l := (b - 1)%Z]> (dr_quantization_bits s))).
      { apply Forall_insert; [done|]. unfold in_bounds in *. lia. }
      apply bind_Ok_inv in H as (d' & w3 & Hsc & H).
      apply (scatter_inv (in_bounds c0)) in Hsc; [|done|done].
      apply bind_Ok_inv in H as (acc' & w4 & _ & H).
      apply IH in H; [done|done|done| |].
      * cbn [dr_quantization_bits]. by rewrite length_insert.
      * intros _. cbn [step4a_acc_prev dr_quantization_bits].
        exists (step4a_acc s), (b - 1)%Z. split; [done|]. split; [done|].
        split; [|unfold in_bounds in *; lia].
        apply list_lookup_insert_eq. by eapply lookup_lt_Some.
  - apply Qle_bool_false in Eacc. destruct (Hlow Eacc) as (p & b & Hp & Hpfloor & Hb & Hbc).
    rewrite (bind_Ok _ _ _ _ _ (getitem_Some _ _ _ _ Hb)) in H.
    pose proof (Forall_lookup_1 _ _ _ _ Hq Hb) as Hbb.
    assert (Hq' : Forall (in_bounds c0) (<[l := (b + 1)%Z]> (dr_quantization_bits s))).
    { apply Forall_insert; [done|]. unfold in_bounds in *. lia. }
    apply bind_Ok_inv in H as ([d' acc'] & w3 & Hsc & H).
    apply (scatter_restore_inv (in_bounds c0)) in Hsc as [Hd' Hacc']; [|done|done].
    minv. simplify_eq. cbn [dr_quantization_bits step4a_dr_bits step4a_acc].
    rewrite length_insert. split; [done|]. split; [done|]. split; [done|].
    destruct Hacc' as [[Hempty _]|Hacc']; [|by simplify_eq].
    exfalso. apply lookup_lt_Some in Hb.
    destruct Hempty as [Hpos|Hqe].
    + rewrite Hlen, Hpos in Hb. simpl in Hb. lia.
    + apply (f_equal length) in Hqe. rewrite length_insert in Hqe. simpl in Hqe. lia.
Qed.

Lemma step4a_for_inv fuel per_step :
  (0 <= per_step)%Q ->
  forall ls floor (s : Step4aState) (ws : World St) s' w',
    Forall (in_bounds c0) (dr_quantization_bits s) -> Forall (in_bounds c0) (step4a_dr_bits s) ->
    length (dr_quantization_bits s) = length (dr_quantization_pos inp) ->
    (floor <= step4a_acc s)%Q ->
    step4a_for quantized_test inp fuel w a per_step ls floor s ws = (Ok s', w') ->
    Forall (in_bounds c0) (step4a_dr_bits s').
Proof.
  intros Hper. induction ls as [|l ls IH]; intros floor s ws s' w' Hq Hd Hlen Hacc H;
    simpl in H.
  - minv. by simplify_eq.
  - apply bind_Ok_inv in H as (s1 & w1 & Hwhile & H).
    assert (Hfloor' : (floor - per_step <= step4a_acc s)%Q) by lra.
    apply step4a_while_inv in Hwhile as (Hq1 & Hd1 & Hlen1 & Hacc1); [|done|done|done|].
    + by eapply IH in H.
    + intros Hlt. exfalso. by apply (Qlt_not_le _ _ Hlt).
Qed.
End Step4aLoops.

Section Step4aResult.
Context {St : Type}.
Variable quantized_test : Config -> St -> Q * St.
Variable inp : Inputs.

(** STEP 4A, entered with an accuracy of at least [minimum_accuracy] and all
    routing widths within bounds, returns the weights and activation widths
    it was given and routing widths that are still within bounds. *)
Lemma step4a_inv fuel c acc3 bits (ws : World St) r w' :
  (minimum_accuracy inp <= acc3)%Q ->
  Forall (fun b => (Z.min 2 bits <= b <= bits)%Z) (dr_bits c) ->
  step4a quantized_test inp fuel c acc3 ws = (Ok r, w') ->
  exists dl, r = RetSatisfied dl /\ d_weight_bits dl = weight_bits c /\
             d_act_bits dl = act_bits c /\
             Forall (fun b => (Z.min 2 bits <= b <= bits)%Z) (d_dr_bits dl).
Proof.
  intros Hacc Hd H. unfold step4a in H.
  apply bind_Ok_inv in H as (q & w1 & Hg & H).
  apply (gather_inv (fun b => (Z.min 2 bits <= b <= bits)%Z)) in Hg as [Hq Hlen]; [|done].
  apply bind_Ok_inv in H as (per & w2 & Hdiv & H).
  apply truediv_Ok_inv in Hdiv as (Hnz & -> & ->).
  apply bind_Ok_inv in H as (s' & w3 & Hfor & H).
  assert (Hn : (0 < length q)%nat).
  { destruct q; [|simpl; lia]. exfalso. by apply Hnz. }
  apply (step4a_for_inv quantized_test inp _ _ bits) in Hfor; [|..]; try done.
  - minv. simplify_eq. eexists. split; [done|]. done.
  - apply share_nonneg; [lra | done].
  - apply Qle_refl.
Qed.
End Step4aResult.

(** ** Bounds on everything [qcapsnets] returns *)

Lemma minimum_mem_required_nonneg (inp : Inputs) : (0 <= minimum_mem_required inp)%Z.
Proof.
  unfold minimum_mem_required, number_of_weights_inlayers.
  induction (leaf_children inp) as [|c leaves IH]; simpl; lia.
Qed.

Lemma Forall_uniform {A} (P : Z -> Prop) (b : Z) (l : list A) :
  P b -> Forall P (map (fun _ => b) l).
Proof. intros Hb. induction l; simpl; by constructor. Qed.

Section Step2Result.
Context {St : Type}.
Variable quantized_test : Config -> St -> Q * St.
Variable inp : Inputs.

Lemma uniform_memory_bits_Ok_inv (w : World St) b2 w' :
  uniform_memory_bits inp w = (Ok b2, w') ->
  minimum_mem_required inp <> 0%Z /\
  b2 = Qfloor (memory_budget_bits inp / inject_Z (minimum_mem_required inp)) /\ w' = w.
Proof.
  unfold uniform_memory_bits. destruct (minimum_mem_required inp =? 0)%Z eqn:E.
  - by destruct (Qeq_bool _ _).
  - intros H. apply ret_Ok_inv in H as [<- <-]. by apply Z.eqb_neq in E.
Qed.

Lemma step2_inv fuel bits (ws : World St) r w' :
  (1 <= bits)%Z ->
  step2 quantized_test inp fuel bits ws = (Ok r, w') ->
  match r with
  | inl (RetError _) => True
  | inl (RetBranch mm ma) => within_bounds bits mm /\ within_bounds bits ma
  | inl (RetSatisfied _) => False
  | inr (c, acc2) =>
      Forall (fun b => (1 <= b)%Z) (weight_bits c) /\
      act_bits c = step1_act_bits inp bits /\ dr_bits c = step1_dr_bits inp bits /\
      (minimum_accuracy inp <= acc2)%Q
  end.
Proof.
  intros Hbits. unfold step2.
  destruct (Qltb _ _) eqn:Efeas; [intros H; minv; by simplify_eq|].
  apply Qltb_ge in Efeas. intros H.
  apply bind_Ok_inv in H as (b2 & w1 & Hb2 & H).
  apply uniform_memory_bits_Ok_inv in Hb2 as (Hne & -> & ->).
  pose proof (minimum_mem_required_nonneg inp) as Hnn.
  assert (Hpos : (0 < minimum_mem_required inp)%Z) by lia.
  pose proof (uniform_bits_ge_1 _ _ Hpos Efeas) as Hb2.
  set (b2 := Qfloor _) in *.
  assert (Hact : Forall (fun b => (Z.min 2 bits <= b <= bits)%Z) (step1_act_bits inp bits))
    by (apply Forall_uniform; simpl; lia).
  assert (Hdr : Forall (fun b => (Z.min 2 bits <= b <= bits)%Z) (step1_dr_bits inp bits))
    by (apply Forall_uniform; simpl; lia).
  assert (Hw0 : Forall (fun b => (1 <= b)%Z)
                  (map (fun _ : Z => b2) (step1_weight_bits inp bits)))
    by (by apply Forall_uniform).
  apply bind_Ok_inv in H as (acc0 & w2 & _ & H).
  apply bind_Ok_inv in H as ([branchB s] & w3 & Hmid & H).
  assert (Hs : Forall (fun b => (1 <= b)%Z) (step2_weight_bits s) /\
               (branchB = false -> (minimum_accuracy inp <= step2_acc s)%Q)).
  { destruct (Qle_bool (minimum_accuracy inp) acc0) eqn:Eacc.
    - minv. simplify_eq. split; [done|]. intros _. by apply Qle_bool_iff.
    - apply bind_Ok_inv in Hmid as ([w1' acc1] & w4 & Hraise & Hmid).
      apply step2_raise_spec in Hraise as (_ & n & -> & _).
      apply step2_lower_for_inv in Hmid as (_ & Hfloor & Hres); [|done].
      split.
      + apply Hfloor. cbn [step2_weight_bits].
        apply Forall_fmap. eapply Forall_impl; [exact Hw0|]. intros b Hb.
        unfold compose. simpl in *. lia.
      + intros ->. destruct Hres as [_ Hres]. by apply Qlt_le_weak. }
  destruct Hs as [Hws Hacc]. unfold step2_finish in H. destruct branchB.
  - minv. simplify_eq. by repeat split.
  - minv. simplify_eq. cbn. split; [done|]. split; [done|]. split; [done|]. by apply Hacc.
Qed.
End Step2Result.

(** C2, as amended to what the code does.  Whenever [qcapsnets] returns
    configurations, with [step1_bits] the width STEP 1 selected, between 1
    and 32: every
    returned weight vector is at least 1 everywhere (there is no cap at 32:
    the uniform memory candidate is [floor(budget / weights)], whatever the
    budget); every returned activation and dynamic-routing vector is at most
    [step1_bits], hence at most 32, and at least 2 everywhere, or equal to
    [step1_bits] where STEP 1 already selected 1 bit. *)
Theorem returned_widths_within_bounds {St : Type}
    (quantized_test : Config -> St -> Q * St) (inp : Inputs) (fuel : nat)
    (w : World St) (r : Returned) (w' : World St) :
  qcapsnets quantized_test inp fuel w = (Ok r, w') ->
  exists step1_bits acc1 s1 w1,
    step1_search quantized_test inp fuel w = (Ok (step1_bits, acc1, s1), w1) /\
    (1 <= step1_bits <= 32)%Z /\
    match r with
    | RetError _ => True
    | RetBranch model_memory model_accuracy =>
        within_bounds step1_bits model_memory /\ within_bounds step1_bits model_accuracy
    | RetSatisfied model_satisfied => within_bounds step1_bits model_satisfied
    end.
Proof.
  intros H. unfold qcapsnets in H.
  apply bind_Ok_inv in H as ([[bits acc1] s1] & w1 & Hrun & H).
  pose proof (step1_search_range _ _ _ _ _ _ _ _ Hrun) as Hrange.
  exists bits, acc1, s1, w1. split; [done|]. split; [done|].
  apply bind_Ok_inv in H as (r2 & w2 & H2 & H).
  apply step2_inv in H2; [|lia].
  destruct r2 as [ret|[c acc2]].
  - apply ret_Ok_inv in H as [<- _]. by destruct ret.
  - destruct H2 as (Hw & Ha & Hd & Hacc2).
    apply bind_Ok_inv in H as ([c3 acc3] & w3 & H3 & H).
    apply (step3a_inv _ _ _ _ _ bits) in H3 as (Hw3 & Hd3 & Ha3 & Hacc3); [| |done].
    2:{ rewrite Ha. apply Forall_uniform. done. }
    apply (step4a_inv _ _ _ _ _ bits) in H as (dl & -> & Hdw & Hda & Hdd); [|done|].
    2:{ rewrite Hd3, Hd. apply Forall_uniform. simpl. lia. }
    unfold within_bounds. rewrite Hdw, Hda, Hw3. done.
Qed.

(** ** The claims on concrete runs *)

Lemma linear_accuracy_mono (b b' : Z) :
  (b <= b')%Z -> (linear_accuracy b <= linear_accuracy b')%Q.
Proof.
  intros Hb. unfold linear_accuracy. apply Qplus_le_r. apply Qmult_le_l; [done|].
  by rewrite <- Zle_Qle.
Qed.

(** C1, as stated, fails on [ten_layers] with [oracle_plateau], whose
    accuracy is non-decreasing in the width, equal to the STEP 1 floor on 8
    to 31 bits and above it at 32 bits.  The scan with the test
    [accuracy >= floor] stops at 8 bits.  The code tests [>]: the trials at
    16, 24, 28, 30 and 31 bits all fail, and 32 bits is returned. *)
Lemma step1_binary_search_counterexample :
  (forall b b', (b <= b')%Z -> (plateau_accuracy b <= plateau_accuracy b')%Q) /\
  (step1_min_acc ten_layers == 39501 # 400)%Q /\
  (step1_min_acc ten_layers < plateau_accuracy 32)%Q /\
  linear_scan (fun b => Qle_bool (step1_min_acc ten_layers) (plateau_accuracy b)) = Some 8%Z /\
  exists acc s w',
    step1_search (pure_oracle oracle_plateau) ten_layers 5 (start tt)
      = (Ok (32%Z, acc, s), w') /\
    step1_bit_search s = [32; 16; 24; 28; 30; 31]%Z /\
    step1_bit_search_sat s = [true; false; false; false; false; false].
Proof.
  split.
  { intros b b' Hb. unfold plateau_accuracy.
    destruct (b <? 8)%Z eqn:E1, (b <? 32)%Z eqn:E2, (b' <? 8)%Z eqn:E3, (b' <? 32)%Z eqn:E4;
      try (by vm_compute); lia. }
  split; [reflexivity|]. split; [reflexivity|]. split; [reflexivity|].
  eexists _, _, _. split; [vm_compute; reflexivity|]. split; reflexivity.
Qed.

(** C1, as amended, on the scenario of the specification (accuracy
    [60 + 1.5 b], floor 98.7525): the search and the linear scan with the
    strict test agree on 26 bits. *)
Lemma step1_binary_search_minimal_witness :
  (step1_min_acc ten_layers < linear_accuracy 32)%Q /\
  linear_scan (fun b => Qltb (step1_min_acc ten_layers) (linear_accuracy b)) = Some 26%Z /\
  exists acc s w',
    step1_search (pure_oracle oracle_linear) ten_layers 5 (start tt)
      = (Ok (26%Z, acc, s), w').
Proof.
  split; [reflexivity|].
  destruct (step1_binary_search_minimal (pure_oracle oracle_linear) ten_layers
              linear_accuracy 5 (start tt))
    as (bits & acc & s & w' & Hrun & Hscan & _).
  - lia.
  - intros b s. reflexivity.
  - apply linear_accuracy_mono.
  - reflexivity.
  - change (linear_scan (fun b => Qltb (step1_min_acc ten_layers) (linear_accuracy b))
            = Some bits) in Hscan.
    assert (Hbits : bits = 26%Z) by (vm_compute in Hscan; by injection Hscan).
    subst bits. split; [exact Hscan|]. exists acc, s, w'. exact Hrun.
Defined.

(** C2, as stated, fails on [one_layer] with [oracle_four]: the run returns a
    satisfied configuration whose weight width is 40 (above 32) and whose
    activation and dynamic-routing widths are 2 (below 3). *)
Lemma returned_widths_counterexample :
  ~ (forall dl,
       (qcapsnets (pure_oracle oracle_four) one_layer 10 (start tt)).1 = Ok (RetSatisfied dl) ->
       Forall (fun b => (1 <= b <= 32)%Z) (d_weight_bits dl) /\
       Forall (fun b => (3 <= b <= 32)%Z) (d_act_bits dl) /\
       Forall (fun b => (3 <= b <= 32)%Z) (d_dr_bits dl)).
Proof.
  intros H. edestruct H as (_ & Ha & _); [vm_compute; reflexivity|].
  vm_compute in Ha. apply Forall_cons in Ha as [[Ha _] _]. by apply Ha.
Qed.

(** C2, as amended, on the same run. *)
Lemma returned_widths_within_bounds_witness :
  exists r w',
    qcapsnets (pure_oracle oracle_four) one_layer 10 (start tt) = (Ok r, w') /\
    exists step1_bits,
      (1 <= step1_bits <= 32)%Z /\
      match r with
      | RetError _ => True
      | RetBranch mm ma => within_bounds step1_bits mm /\ within_bounds step1_bits ma
      | RetSatisfied dl => within_bounds step1_bits dl
      end.
Proof.
  eexists _, _. split; [vm_compute; reflexivity|].
  edestruct (returned_widths_within_bounds (pure_oracle oracle_four) one_layer 10 (start tt))
    as (bits & _ & _ & _ & _ & Hr & Hb); [vm_compute; reflexivity |].
  exists bits. split; [exact Hr | exact Hb].
Defined.

(** C3, as stated, fails on [two_layers] with [oracle_equal].  After the
    raise phase ([5; 5], accuracy 95) the lower phase visits the second layer
    and evaluates [5; 4]: accuracy 90, which is [>= minimum_accuracy] (equal
    to it), on a width of 4 bits, which exceeds 1.  The claim has the layer
    decremented again; the code stops there: [5; 3] is never evaluated, and
    [5; 5] is what is restored and finally returned. *)
Lemma lower_phase_counterexample :
  let r := qcapsnets (pure_oracle oracle_equal) two_layers 10 (start tt) in
  weight_bits <$> (log r.2).*1 =
    [[32; 32]; [4; 4]; [5; 5]; [5; 4]; [4; 5]; [5; 5]]%Z /\
  log r.2 !! 3%nat = Some (mk_config [5; 4]%Z [32; 32]%Z [32]%Z, 90%Q) /\
  (minimum_accuracy two_layers <= 90)%Q /\ (1 < 4)%Z /\
  exists mm ma, r.1 = Ok (RetBranch mm ma) /\ d_weight_bits ma = [5; 5]%Z.
Proof.
  split; [by vm_compute|]. split; [by vm_compute|]. split; [by vm_compute|].
  split; [lia|]. eexists _, _. split; vm_compute; reflexivity.
Qed.

(** C3, as amended, on the first layer the lower phase visits in the run of
    [oracle_lower] on [two_layers]: after [4; 4] (accuracy 80) and the raise
    to [5; 5] (95), the second layer, which has the higher SQNR, is visited
    first.  [5; 4] (93) and [5; 3] (92) pass, [5; 2] (80) does not; [5; 3]
    is restored with its accuracy, its 800 bits fit the budget, and STEP 3A
    starts from it. *)
Lemma lower_phase_layer_witness :
  sqnr_tuples two_layers = [(5%Q, 1%nat); (3%Q, 0%nat)] /\
  exists w',
    weight_bits <$> (log w').*1 =
      [[32; 32]; [4; 4]; [5; 5]; [5; 4]; [5; 3]; [5; 2]]%Z /\
    (log w').*2 = [80; 80; 95; 93; 92; 80]%Q /\
    qcapsnets (pure_oracle oracle_lower) two_layers 40 (start tt) =
      (do ' (c3, step3a_acc) <-
         step3a (pure_oracle oracle_lower) two_layers 40
           (mk_config [5; 3]%Z [32; 32]%Z [32]%Z) 92;
       step4a (pure_oracle oracle_lower) two_layers 40 c3 step3a_acc) w'.
Proof.
  split; [reflexivity|].
  edestruct (fun s1 w1 w3 ws =>
               lower_phase_layer (pure_oracle oracle_lower) two_layers 40 (start tt)
                 32%Z 80%Q s1 w1 80%Q tt [5; 5]%Z 95%Q w3
                 [] (5%Q, 1%nat) [(3%Q, 0%nat)]
                 {| step2_weight_bits := [5; 5]%Z; step2_acc := 95; prev_step2_acc := None |}
                 ws 5%Z)
    as (_ & _ & pre & c_last & a_last & w' & Hwhile & _ & _ & _ & _ & _ & Hend).
  - vm_compute; reflexivity.
  - reflexivity.
  - by vm_compute.
  - vm_compute; reflexivity.
  - reflexivity.
  - vm_compute; reflexivity.
  - reflexivity.
  - vm_compute; reflexivity.
  - reflexivity.
  - lia.
  - reflexivity.
  - vm_compute. lia.
  - (* the loop of the layer, computed: two decrements pass *)
    match type of Hwhile with
    | ?run = _ => let v := eval vm_compute in run in change run with v in Hwhile
    end.
    injection Hwhile as Hbits _ Hprev Hw'.
    assert (Hk : (5 - Z.of_nat (S (length pre)) + 1 = 3)%Z) by lia.
    cbv zeta in Hend. cbn [step2_acc step2_weight_bits snd] in Hend.
    rewrite Hk, <- Hprev in Hend.
    change (if true then ?A else _) with A in Hend.
    exists w'. rewrite <- Hw'. split; [reflexivity|]. split; [reflexivity|].
    rewrite Hw'. exact Hend.
Defined.

(** C4, as stated, fails on [two_layers] with [oracle_branch].  The raise
    phase ends on [5; 5]; the lower phase ends on [5; 4], over budget; the
    two configurations returned are [4; 4] and [5; 4].  The first one is not
    the raise-phase configuration and it does not violate the budget: it is
    the uniform memory candidate, and it fits. *)
Lemma stage2_branch_counterexample :
  (step2_raise (pure_oracle oracle_branch) two_layers 10 [32; 32]%Z [32]%Z [4; 4]%Z 80
     (start tt)).1 = Ok ([5; 5]%Z, 95%Q) /\
  exists mm ma,
    (qcapsnets (pure_oracle oracle_branch) two_layers 10 (start tt)).1 = Ok (RetBranch mm ma) /\
    d_weight_bits mm = [4; 4]%Z /\ d_weight_bits ma = [5; 4]%Z /\
    (inject_Z (weight_memory two_layers (d_weight_bits mm)) <= memory_budget_bits two_layers)%Q.
Proof.
  split; [by vm_compute|]. eexists _, _. split; [vm_compute; reflexivity|].
  split; [done|]. split; [done|]. by vm_compute.
Qed.

(** C4, as amended, on the same run: [4; 4] and [5; 4] are returned, and
    the raise phase had ended on one bit more than [4; 4] on both layers. *)
Lemma stage2_branch_returns_two_witness :
  exists mm ma w',
    qcapsnets (pure_oracle oracle_branch) two_layers 10 (start tt)
      = (Ok (RetBranch mm ma), w') /\
    (inject_Z (weight_memory two_layers (d_weight_bits mm)) <= memory_budget_bits two_layers)%Q /\
    (d_acc mm < minimum_accuracy two_layers)%Q /\
    (memory_budget_bits two_layers < inject_Z (weight_memory two_layers (d_weight_bits ma)))%Q /\
    (minimum_accuracy two_layers <= d_acc ma)%Q /\
    exists n : nat,
      (0 < n)%nat /\
      [5; 5]%Z = map (fun _ => (4 + Z.of_nat n)%Z) (leaf_children two_layers) /\
      d_weight_bits mm <> [5; 5]%Z.
Proof.
  edestruct (stage2_branch_returns_two (pure_oracle oracle_branch) two_layers 10 (start tt))
    as (Hrun & Hfit & Hlow & Hover & Hacc & n & Hn & Hraised & _ & _ & Hne).
  - vm_compute; reflexivity.
  - vm_compute; reflexivity.
  - by vm_compute.
  - vm_compute; reflexivity.
  - vm_compute; reflexivity.
  - vm_compute; reflexivity.
  - vm_compute; reflexivity.
  - vm_compute; reflexivity.
  - eexists _, _, _. split; [exact Hrun|]. split; [exact Hfit|]. split; [exact Hlow|].
    split; [exact Hover|]. split; [exact Hacc|].
    exists n. split; [exact Hn|]. split; [exact Hraised | exact Hne].
Defined.

(** C5 on [one_layer]: the budget is feasible and the run does not return the
    error string. *)
Lemma stage2_entry_fail_fast_witness :
  exists step1_bits acc s w1,
    step1_search (pure_oracle oracle_four) one_layer 5 (start tt)
      = (Ok (step1_bits, acc, s), w1) /\
    forall m, (qcapsnets (pure_oracle oracle_four) one_layer 5 (start tt)).1 <> Ok (RetError m).
Proof.
  destruct (stage2_entry_fail_fast (pure_oracle oracle_four) one_layer 5 (start tt))
    as (bits & acc & s & w1 & Hrun & _ & Hfeas); [lia|].
  exists bits, acc, s, w1. split; [exact Hrun|]. apply Hfeas. by vm_compute.
Defined.

(** C6 on [two_layers] with [oracle_four]: STEP 1 selects 4 bits; 800 bits
    of budget for 200 weights give 4 bits on both layers; this candidate
    reaches an accuracy of 100, and STEP 3A starts from it after this single
    call. *)
Lemma stage2_uniform_candidate_witness :
  let qt := pure_oracle oracle_four in
  let c := mk_config [4; 4]%Z [4; 4]%Z [4]%Z in
  let w1 := (step1_search qt two_layers 10 (start tt)).2 in
  let w2 := {| ost := tt; log := log w1 ++ [(c, 100%Q)] |} in
  (inject_Z 200 <= memory_budget two_layers * 8 * inject_Z (2 ^ 20))%Q /\
  Qfloor (memory_budget two_layers * 8 * inject_Z (2 ^ 20) / inject_Z 200) = 4%Z /\
  (minimum_accuracy two_layers <= 100)%Q /\
  step2 qt two_layers 10 4 w1 = (Ok (inr (c, 100%Q)), w2) /\
  qcapsnets qt two_layers 10 (start tt) =
    bind (step3a qt two_layers 10 c 100) (fun r => step4a qt two_layers 10 r.1 r.2) w2.
Proof.
  intros qt c w1 w2.
  assert (Hfeas : (inject_Z 200 <= memory_budget two_layers * 8 * inject_Z (2 ^ 20))%Q)
    by (by vm_compute).
  assert (Hacc : (minimum_accuracy two_layers <= 100)%Q) by (by vm_compute).
  split; [exact Hfeas|]. split; [reflexivity|]. split; [exact Hacc|].
  destruct (stage2_uniform_candidate qt two_layers 10 4 w1 ltac:(reflexivity) Hfeas)
    as (_ & _ & Hrun).
  destruct (Hrun 100%Q tt ltac:(reflexivity) Hacc) as [H2 Hq].
  split; [exact H2|].
  eapply (Hq (start tt)). vm_compute; reflexivity.
Defined.

(** C7, as stated, fails on [one_layer] with [oracle_four].  STEP 3A starts
    from 4 bits; the joint decrements to 3 and then to 2 bits both stay above
    the floor; the layer has dropped below 3 bits, and nothing is rolled back:
    the group keeps 2 bits. *)
Lemma step3a_counterexample :
  let r := step3a (pure_oracle oracle_four) one_layer 10
             (mk_config [40]%Z [4]%Z [4]%Z) 100 (start tt) in
  r.1 = Ok (mk_config [40]%Z [2]%Z [4]%Z, 100%Q) /\
  (log r.2).*1 = [mk_config [40]%Z [3]%Z [4]%Z; mk_config [40]%Z [2]%Z [4]%Z] /\
  (2 < 3)%Z.
Proof. split; [by vm_compute|]. split; [by vm_compute | lia]. Qed.

(** C7, as amended, on the group of that run. *)
Lemma step3a_group_witness :
  NoDup [0%nat] /\ (100 - (11 # 2) <= 100)%Q /\
  concat (act_sqnr_grouped_index one_layer) = (act_sqnr one_layer).*2.
Proof.
  assert (Hnd : NoDup [0%nat]) by apply NoDup_singleton.
  assert (Hacc : (100 - (11 # 2) <= 100)%Q) by (by vm_compute).
  split; [exact Hnd|]. split; [exact Hacc|].
  apply (step3a_group (pure_oracle oracle_four) one_layer 10 [40]%Z [4]%Z (11 # 2) 4
           [0%nat] [] 100
           {| step3a_act_bits := [4]%Z; step3a_acc := 100; step3a_acc_prev := None;
              curr_bits := 4 |} (start tt)).
  - exact Hnd.
  - discriminate.
  - intros i Hi. apply list_elem_of_singleton in Hi. rewrite Hi. reflexivity.
  - exact Hacc.
  - lia.
  - vm_compute. lia.
Defined.

(** C9 on [one_layer_no_routing]: the run reaches STEP 4A and stops there. *)
Lemma step4a_without_routing_witness :
  Forall (fun c => capsule_layer c && dynamic_routing c = false)
    (leaf_children one_layer_no_routing) /\
  exists w3,
    qcapsnets (pure_oracle oracle_four) one_layer_no_routing 10 (start tt)
      = (Raise ZeroDivisionError, w3).
Proof.
  assert (Hno : Forall (fun c => capsule_layer c && dynamic_routing c = false)
                  (leaf_children one_layer_no_routing)) by (repeat constructor).
  split; [exact Hno|].
  destruct (step4a_without_routing (pure_oracle oracle_four) one_layer_no_routing 10 Hno)
    as (_ & Hreach & _).
  eexists. eapply Hreach; vm_compute; reflexivity.
Defined.

(** C10 on [two_layers] with [oracle_exact]: the raise phase stops on exactly
    [minimum_accuracy]. *)
Lemma lower_phase_unbound_local_witness :
  exists w3,
    qcapsnets (pure_oracle oracle_exact) two_layers 10 (start tt)
      = (Raise (UnboundLocalError "prev_step2_acc"), w3).
Proof.
  eexists. eapply lower_phase_unbound_local.
  - vm_compute; reflexivity.
  - vm_compute; reflexivity.
  - by vm_compute.
  - vm_compute; reflexivity.
  - vm_compute; reflexivity.
  - vm_compute; reflexivity.
  - vm_compute; reflexivity.
  - vm_compute; reflexivity.
  - vm_compute. lia.
Defined.

(** ** What a satisfied configuration guarantees *)

Section Lengths.
Context {St : Type}.
Variable quantized_test : Config -> St -> Q * St.
Variable inp : Inputs.

Lemma decrement_group_length group :
  forall act curr (w : World St) act' curr' w',
    decrement_group group act curr w = (Ok (act', curr'), w') -> length act' = length act.
Proof.
  induction group as [|i group IH]; intros act curr w act' curr' w' H; simpl in H.
  - minv. by simplify_eq.
  - minv. apply IH in H. by rewrite length_insert in H.
Qed.

Lemma increment_group_length group :
  forall act (w : World St) act' w',
    increment_group group act w = (Ok act', w') -> length act' = length act.
Proof.
  induction group as [|i group IH]; intros act w act' w' H; simpl in H.
  - minv. by simplify_eq.
  - minv. apply IH in H. by rewrite length_insert in H.
Qed.

Lemma step3a_while_length fuel w d group floor :
  forall (s : Step3aState) (ws : World St) s1 w1,
    step3a_while quantized_test fuel w d group floor s ws = (Ok s1, w1) ->
    length (step3a_act_bits s1) = length (step3a_act_bits s).
Proof.
  induction fuel as [|fuel IH]; intros s ws s1 w1 H; [done|]. simpl in H.
  destruct (Qle_bool floor (step3a_acc s)).
  - destruct (curr_bits s <? 3)%Z; [minv; by simplify_eq|].
    apply bind_Ok_inv in H as ([act' curr'] & w2 & Hdec & H).
    apply decrement_group_length in Hdec.
    apply bind_Ok_inv in H as (acc' & w3 & _ & H).
    apply IH in H. cbn [step3a_act_bits] in H. congruence.
  - apply bind_Ok_inv in H as (act' & w2 & Hinc & H).
    apply increment_group_length in Hinc. minv. by simplify_eq.
Qed.

Lemma step3a_for_length fuel w d per_step start_bits :
  forall groups floor (s : Step3aState) (ws : World St) s' w',
    step3a_for quantized_test fuel w d per_step start_bits groups floor s ws = (Ok s', w') ->
    length (step3a_act_bits s') = length (step3a_act_bits s).
Proof.
  induction groups as [|g groups IH]; intros floor s ws s' w' H; simpl in H.
  - minv. by simplify_eq.
  - apply bind_Ok_inv in H as (s1 & w1 & Hwhile & H).
    apply step3a_while_length in Hwhile. apply IH in H.
    cbn [step3a_act_bits] in Hwhile. congruence.
Qed.

Lemma step3a_length fuel c acc2 (ws : World St) c3 acc3 w' :
  step3a quantized_test inp fuel c acc2 ws = (Ok (c3, acc3), w') ->
  length (act_bits c3) = length (act_bits c).
Proof.
  unfold step3a. intros H.
  apply bind_Ok_inv in H as (per & w1 & _ & H).
  apply bind_Ok_inv in H as (start & w2 & _ & H).
  apply bind_Ok_inv in H as (s' & w3 & Hfor & H).
  apply step3a_for_length in Hfor. minv. by simplify_eq.
Qed.

Lemma scatter_length pos :
  forall bits q (w : World St) bits' w',
    scatter bits pos q w = (Ok bits', w') -> length bits' = length bits.
Proof.
  induction pos as [|p pos IH]; intros bits q w bits' w' H; simpl in H.
  - minv. by simplify_eq.
  - destruct q as [|v q]; [minv; by simplify_eq|]. minv. simplify_eq.
    apply IH in H. by rewrite length_insert in H.
Qed.

Lemma scatter_restore_length pos :
  forall bits q acc prev (w : World St) bits' acc' w',
    scatter_restore bits pos q acc prev w = (Ok (bits', acc'), w') ->
    length bits' = length bits.
Proof.
  induction pos as [|p pos IH]; intros bits q acc prev w bits' acc' w' H; simpl in H.
  - minv. by simplify_eq.
  - destruct q as [|v q]; [minv; by simplify_eq|]. minv. simplify_eq.
    apply IH in H. by rewrite length_insert in H.
Qed.

Lemma step4a_while_length fuel w a l floor :
  forall (s : Step4aState) (ws : World St) s1 w1,
    step4a_while quantized_test inp fuel w a l floor s ws = (Ok s1, w1) ->
    length (step4a_dr_bits s1) = length (step4a_dr_bits s).
Proof.
  induction fuel as [|fuel IH]; intros s ws s1 w1 H; [done|]. simpl in H.
  destruct (Qle_bool floor (step4a_acc s)).
  - apply bind_Ok_inv in H as (b & w2 & _ & H).
    destruct (b <? 3)%Z; [minv; by simplify_eq|].
    apply bind_Ok_inv in H as (d' & w3 & Hsc & H). apply scatter_length in Hsc.
    apply bind_Ok_inv in H as (acc' & w4 & _ & H).
    apply IH in H. cbn [step4a_dr_bits] in H. congruence.
  - apply bind_Ok_inv in H as (b & w2 & _ & H).
    apply bind_Ok_inv in H as ([d' acc'] & w3 & Hsc & H).
    apply scatter_restore_length in Hsc. minv. by simplify_eq.
Qed.

Lemma step4a_for_length fuel w a per_step :
  forall ls floor (s : Step4aState) (ws : World St) s' w',
    step4a_for quantized_test inp fuel w a per_step ls floor s ws = (Ok s', w') ->
    length (step4a_dr_bits s') = length (step4a_dr_bits s).
Proof.
  induction ls as [|l ls IH]; intros floor s ws s' w' H; simpl in H.
  - minv. by simplify_eq.
  - apply bind_Ok_inv in H as (s1 & w1 & Hwhile & H).
    apply step4a_while_length in Hwhile. apply IH in H. congruence.
Qed.
End Lengths.

Section Step2Handover.
Context {St : Type}.
Variable quantized_test : Config -> St -> Q * St.
Variable inp : Inputs.

Lemma step2_raise_length fuel a d :
  forall wb acc (w : World St) wb' acc' w',
    step2_raise quantized_test inp fuel a d wb acc w = (Ok (wb', acc'), w') ->
    length wb' = length wb.
Proof.
  intros wb acc w wb' acc' w' H.
  apply step2_raise_spec in H as (_ & n & -> & _). by rewrite length_map.
Qed.

(** What STEP 2 hands on to STEP 3A fits the memory budget, has one weight
    width per leaf, and carries the activation and routing widths of STEP 1. *)
Lemma step2_handover fuel bits (ws : World St) c acc2 w' :
  step2 quantized_test inp fuel bits ws = (Ok (inr (c, acc2)), w') ->
  (inject_Z (weight_memory inp (weight_bits c)) <= memory_budget_bits inp)%Q /\
  (0 < minimum_mem_required inp)%Z /\
  length (weight_bits c) = length (leaf_children inp) /\
  act_bits c = step1_act_bits inp bits /\ dr_bits c = step1_dr_bits inp bits.
Proof.
  unfold step2. destruct (Qltb _ _) eqn:Efeas; [intros H; minv; by simplify_eq|].
  apply Qltb_ge in Efeas. intros H.
  apply bind_Ok_inv in H as (b2 & w1 & Hb2 & H).
  apply uniform_memory_bits_Ok_inv in Hb2 as (Hne & -> & ->).
  pose proof (minimum_mem_required_nonneg inp) as Hnn.
  assert (Hpos : (0 < minimum_mem_required inp)%Z) by lia.
  set (b2 := Qfloor _) in *.
  apply bind_Ok_inv in H as (acc0 & w2 & _ & H).
  apply bind_Ok_inv in H as ([branchB s] & w3 & Hmid & H).
  unfold step2_finish in H. destruct branchB; [minv; by simplify_eq|].
  apply ret_Ok_inv in H as [H _]. injection H as <- <-.
  unfold mk_config. cbn [weight_bits act_bits dr_bits].
  split; [|split; [done|split; [|done]]].
  - destruct (Qle_bool (minimum_accuracy inp) acc0) eqn:Eacc.
    + minv. simplify_eq. cbn [step2_weight_bits]. unfold step1_weight_bits.
      rewrite map_map, (weight_memory_uniform inp b2). by apply uniform_bits_fit.
    + apply bind_Ok_inv in Hmid as ([w1' acc1] & w4 & Hraise & Hmid).
      apply step2_lower_for_inv in Hmid as (_ & _ & Hres); [|done]. by destruct Hres.
  - destruct (Qle_bool (minimum_accuracy inp) acc0) eqn:Eacc.
    + minv. simplify_eq. cbn [step2_weight_bits]. unfold step1_weight_bits.
      by rewrite !length_map.
    + apply bind_Ok_inv in Hmid as ([w1' acc1] & w4 & Hraise & Hmid).
      apply step2_raise_length in Hraise.
      apply step2_lower_for_inv in Hmid as (Hlen & _ & _); [|done].
      cbn [step2_weight_bits] in Hlen. rewrite Hlen, Hraise.
      unfold step1_weight_bits. by rewrite !length_map.
Qed.
End Step2Handover.

Section Satisfied.
Context {St : Type}.
Variable quantized_test : Config -> St -> Q * St.
Variable inp : Inputs.

(** Everything known about a run that returns a satisfied configuration,
    stage by stage. *)
Lemma satisfied_inv fuel (w : World St) dl w' :
  qcapsnets quantized_test inp fuel w = (Ok (RetSatisfied dl), w') ->
  exists bits c acc2 acc3,
    (1 <= bits <= 32)%Z /\
    (inject_Z (weight_memory inp (weight_bits c)) <= memory_budget_bits inp)%Q /\
    (0 < minimum_mem_required inp)%Z /\
    Forall (fun b => (1 <= b)%Z) (weight_bits c) /\
    length (weight_bits c) = length (leaf_children inp) /\
    (minimum_accuracy inp <= acc2)%Q /\ (minimum_accuracy inp <= acc3)%Q /\
    d_weight_bits dl = weight_bits c /\
    length (d_act_bits dl) = length (leaf_children inp) /\
    length (d_dr_bits dl) = length (filter routes (leaf_children inp)) /\
    exists w3 : World St,
      wmem_reduction inp (weight_bits c) w3 = (Ok (d_wmem_reduction dl), w3).
Proof.
  intros H. unfold qcapsnets in H.
  apply bind_Ok_inv in H as ([[bits acc1] s1] & w1 & Hrun & H).
  pose proof (step1_search_range _ _ _ _ _ _ _ _ Hrun) as Hrange.
  apply bind_Ok_inv in H as (r2 & w2 & H2 & H).
  destruct r2 as [ret|[c acc2]]; [apply ret_Ok_inv in H as [-> _]|].
  { apply step2_inv in H2; [done | lia]. }
  pose proof (step2_handover _ _ _ _ _ _ _ _ H2) as (Hfit & Hpos & Hlen & Ha & Hd).
  apply step2_inv in H2 as (Hw & _ & _ & Hacc2); [|lia].
  apply bind_Ok_inv in H as ([c3 acc3] & w3 & H3 & H).
  pose proof (step3a_length _ _ _ _ _ _ _ _ _ H3) as Hlen3.
  apply (step3a_inv _ _ _ _ _ bits) in H3 as (Hw3 & Hd3 & Ha3 & Hacc3); [| |done].
  2:{ rewrite Ha. apply Forall_uniform. done. }
  exists bits, c, acc2, acc3.
  split; [done|]. split; [done|]. split; [done|]. split; [done|]. split; [done|].
  split; [done|]. split; [done|].
  assert (Hdb : Forall (in_bounds bits) (dr_bits c3)).
  { rewrite Hd3, Hd. apply Forall_uniform. unfold in_bounds. lia. }
  unfold step4a in H.
  apply bind_Ok_inv in H as (q & w4 & Hg & H).
  apply (gather_inv (in_bounds bits)) in Hg as [Hq Hlenq]; [|done].
  apply bind_Ok_inv in H as (per & w5 & Hdiv & H).
  apply truediv_Ok_inv in Hdiv as (Hnz & -> & ->).
  apply bind_Ok_inv in H as (s' & w6 & Hfor & H).
  assert (Hn : (0 < length q)%nat).
  { destruct q; [|simpl; lia]. exfalso. by apply Hnz. }
  pose proof (step4a_for_length _ _ _ _ _ _ _ _ _ _ _ _ Hfor) as Hlen4.
  apply bind_Ok_inv in H as (red & w7 & Hred & H).
  apply ret_Ok_inv in H as [H _]. injection H as <-.
  cbn [d_weight_bits d_act_bits d_dr_bits d_acc d_wmem_reduction].
  split; [done|]. split.
  { rewrite Hlen3, Ha. unfold step1_act_bits. by rewrite length_map. }
  split.
  { rewrite Hlen4. cbn [step4a_dr_bits]. rewrite Hd3, Hd. unfold step1_dr_bits.
    by rewrite length_map. }
  exists w6. rewrite Hw3 in Hred.
  pose proof Hred as Hred'. unfold wmem_reduction in Hred'.
  apply truediv_Ok_inv in Hred' as (_ & _ & <-). done.
Qed.

(** The weight widths of a satisfied configuration are those of the
    configuration STEP 2 handed on. *)
Lemma satisfied_weights fuel (w : World St) dl w' :
  qcapsnets quantized_test inp fuel w = (Ok (RetSatisfied dl), w') ->
  exists step1_bits acc1 s1 w1 c step2_acc w2,
    step1_search quantized_test inp fuel w = (Ok (step1_bits, acc1, s1), w1) /\
    step2 quantized_test inp fuel step1_bits w1 = (Ok (inr (c, step2_acc)), w2) /\
    d_weight_bits dl = weight_bits c.
Proof.
  intros H. unfold qcapsnets in H.
  apply bind_Ok_inv in H as ([[bits acc1] s1] & w1 & Hrun & H).
  pose proof (step1_search_range _ _ _ _ _ _ _ _ Hrun) as Hrange.
  apply bind_Ok_inv in H as (r2 & w2 & H2 & H).
  destruct r2 as [ret|[c acc2]]; [apply ret_Ok_inv in H as [-> _]|].
  { apply step2_inv in H2; [done | lia]. }
  exists bits, acc1, s1, w1, c, acc2, w2. split; [done|]. split; [done|].
  apply bind_Ok_inv in H as ([c3 acc3] & w3 & H3 & H).
  unfold step3a in H3. minv.
  match goal with H : (_, _) = (c3, _) |- _ => injection H as <- _ end.
  unfold step4a in H. minv.
  match goal with H : RetSatisfied _ = RetSatisfied _ |- _ => injection H as <- end.
  done.
Qed.
End Satisfied.

Lemma weight_memory_ge (inp : Inputs) (bits : list Z) :
  Forall (fun b => (1 <= b)%Z) bits -> length bits = length (leaf_children inp) ->
  (minimum_mem_required inp <= weight_memory inp bits)%Z.
Proof.
  unfold weight_memory, minimum_mem_required, number_of_weights_inlayers.
  revert bits. induction (leaf_children inp) as [|c leaves IH]; intros bits Hall Hlen.
  - destruct bits; [simpl; lia | done].
  - destruct bits as [|b bits]; [done|]. apply Forall_cons in Hall as [Hb Hall].
    injection Hlen as Hlen. specialize (IH bits Hall Hlen). simpl in *. nia.
Qed.

Section Step2Branch.
Context {St : Type}.
Variable quantized_test : Config -> St -> Q * St.
Variable inp : Inputs.

(** The two configurations of the branch outcome are index-aligned with the
    model. *)
Lemma step2_branch_aligned fuel bits (ws : World St) mm ma w' :
  step2 quantized_test inp fuel bits ws = (Ok (inl (RetBranch mm ma)), w') ->
  aligned inp mm /\ aligned inp ma.
Proof.
  unfold step2. destruct (Qltb _ _) eqn:Efeas; [intros H; minv; by simplify_eq|].
  intros H.
  apply bind_Ok_inv in H as (b2 & w1 & Hb2 & H).
  apply bind_Ok_inv in H as (acc0 & w2 & _ & H).
  apply bind_Ok_inv in H as ([branchB s] & w3 & Hmid & H).
  assert (Hlen : length (step2_weight_bits s) = length (leaf_children inp)).
  { destruct (Qle_bool (minimum_accuracy inp) acc0) eqn:Eacc.
    - minv; simplify_eq; cbn [step2_weight_bits]; unfold step1_weight_bits;
        by rewrite !length_map.
    - apply bind_Ok_inv in Hmid as ([w1' acc1] & w4 & Hraise & Hmid).
      apply step2_raise_length in Hraise.
      apply step2_lower_for_inv in Hmid as (Hlen & _ & _); [|done].
      cbn [step2_weight_bits] in Hlen. rewrite Hlen, Hraise.
      unfold step1_weight_bits. by rewrite !length_map. }
  unfold step2_finish in H. destruct branchB; [|minv; by simplify_eq].
  minv. simplify_eq. unfold aligned, step1_weight_bits, step1_act_bits, step1_dr_bits.
  cbn [d_weight_bits d_act_bits d_dr_bits]. rewrite !length_map. done.
Qed.
End Step2Branch.

(** A satisfied configuration fits the memory budget: the weight memory
    [sum(bits_i * weights_i)] of the returned weight widths is positive and at
    most [memory_budget_bits], and the memory-reduction factor returned with
    it is the 32-bit footprint of all parameters divided by that weight
    memory.  STEP 3A and STEP 4A do not touch the weight widths: the ones
    returned are those of the configuration STEP 2 handed on. *)
Theorem satisfied_fits_budget {St : Type}
    (quantized_test : Config -> St -> Q * St) (inp : Inputs) (fuel : nat)
    (w : World St) (dl : Deliverable) (w' : World St) :
  qcapsnets quantized_test inp fuel w = (Ok (RetSatisfied dl), w') ->
  (inject_Z (weight_memory inp (d_weight_bits dl)) <= memory_budget_bits inp)%Q /\
  (0 < weight_memory inp (d_weight_bits dl))%Z /\
  d_wmem_reduction dl
    = (inject_Z (tot_memory_b inp) / inject_Z (weight_memory inp (d_weight_bits dl)))%Q /\
  exists step1_bits acc1 s1 w1 c step2_acc w2,
    step1_search quantized_test inp fuel w = (Ok (step1_bits, acc1, s1), w1) /\
    step2 quantized_test inp fuel step1_bits w1 = (Ok (inr (c, step2_acc)), w2) /\
    d_weight_bits dl = weight_bits c.
Proof.
  intros H. pose proof (satisfied_weights _ _ _ _ _ _ H) as Hstep2.
  apply satisfied_inv in H
    as (bits & c & acc2 & acc3 & _ & Hfit & Hpos & Hw & Hlen & _ & _ & Hdw & _ & _ & Hred).
  rewrite Hdw. split; [done|]. split; [|split].
  - pose proof (weight_memory_ge inp _ Hw Hlen). lia.
  - destruct Hred as [w3 Hred]. unfold wmem_reduction in Hred.
    by apply truediv_Ok_inv in Hred as (_ & -> & _).
  - by rewrite <- Hdw.
Qed.

(** Every configuration [qcapsnets] returns is index-aligned with the model:
    one weight width and one activation width per leaf module, one
    dynamic-routing width per leaf with [capsule_layer and dynamic_routing]. *)
Theorem returned_aligned {St : Type}
    (quantized_test : Config -> St -> Q * St) (inp : Inputs) (fuel : nat)
    (w : World St) (r : Returned) (w' : World St) :
  qcapsnets quantized_test inp fuel w = (Ok r, w') ->
  match r with
  | RetError _ => True
  | RetBranch model_memory model_accuracy =>
      aligned inp model_memory /\ aligned inp model_accuracy
  | RetSatisfied model_satisfied => aligned inp model_satisfied
  end.
Proof.
  intros H. destruct r as [m|mm ma|dl]; [done| |].
  - unfold qcapsnets in H.
    apply bind_Ok_inv in H as ([[bits acc1] s1] & w1 & _ & H).
    apply bind_Ok_inv in H as (r2 & w2 & H2 & H).
    destruct r2 as [ret|[c acc2]].
    + apply ret_Ok_inv in H as [-> _]. by eapply step2_branch_aligned.
    + apply bind_Ok_inv in H as ([c3 acc3] & w3 & _ & H).
      by apply step4a_returns_satisfied in H as [d ?].
  - apply satisfied_inv in H
      as (bits & c & acc2 & acc3 & _ & _ & _ & _ & Hlen & _ & _ & Hdw & Ha & Hd & _).
    unfold aligned. by rewrite Hdw.
Qed.

(** On [two_layers] with [oracle_lower] the lower phase reaches the budget
    with widths [5; 3]: 800 bits for a budget of 800 bits.  These are the
    widths STEP 2 hands on and the ones returned. *)
Lemma satisfied_fits_budget_witness :
  exists dl w',
    qcapsnets (pure_oracle oracle_lower) two_layers 40 (start tt) = (Ok (RetSatisfied dl), w') /\
    d_weight_bits dl = [5; 3]%Z /\
    (inject_Z (weight_memory two_layers (d_weight_bits dl)) <= memory_budget_bits two_layers)%Q /\
    exists step1_bits acc1 s1 w1 c step2_acc w2,
      step1_search (pure_oracle oracle_lower) two_layers 40 (start tt)
        = (Ok (step1_bits, acc1, s1), w1) /\
      step2 (pure_oracle oracle_lower) two_layers 40 step1_bits w1
        = (Ok (inr (c, step2_acc)), w2) /\
      d_weight_bits dl = weight_bits c.
Proof.
  eexists _, _. split; [vm_compute; reflexivity|]. split; [reflexivity|].
  edestruct (satisfied_fits_budget (pure_oracle oracle_lower) two_layers 40 (start tt))
    as (Hfit & _ & _ & Hstep2); [vm_compute; reflexivity|].
  split; [exact Hfit | exact Hstep2].
Defined.

Lemma returned_aligned_witness :
  exists mm ma w',
    qcapsnets (pure_oracle oracle_branch) two_layers 10 (start tt) = (Ok (RetBranch mm ma), w') /\
    aligned two_layers mm /\ aligned two_layers ma.
Proof.
  eexists _, _, _. split; [vm_compute; reflexivity|].
  eapply (returned_aligned (pure_oracle oracle_branch) two_layers 10 (start tt)
            (RetBranch _ _)).
  vm_compute; reflexivity.
Defined.

(** ** STEP 1: the path of the search *)

Lemma next_true_head (l : list bool) : l !! 0%nat = Some true -> next_true l = Some 0%nat.
Proof. destruct l as [|b l]; [done|]. by intros [= ->]. Qed.

Lemma halving_length (inp : Inputs) (k : nat) :
  forall c accs, length accs = S k -> length (halving inp k c accs) = S k.
Proof.
  induction k as [|k IH]; intros c accs Hlen; [done|].
  destruct accs as [|a accs]; [done|]. simpl. rewrite IH; [done|]. by injection Hlen.
Qed.

Lemma last_zip {A B} (l1 : list A) (l2 : list B) x y :
  length l1 = length l2 -> last l1 = Some x -> last l2 = Some y ->
  last (zip l1 l2) = Some (x, y).
Proof.
  revert l2. induction l1 as [|a l1 IH]; intros l2 Hlen H1 H2; [done|].
  destruct l2 as [|b l2]; [done|]. injection Hlen as Hlen.
  destruct l1 as [|a' l1], l2 as [|b' l2]; try done.
  - simpl in *. congruence.
  - rewrite last_cons_cons in H1. rewrite last_cons_cons in H2. change (zip (a :: a' :: l1) (b :: b' :: l2))
      with ((a, b) :: (a', b') :: zip l1 l2). rewrite last_cons_cons.
    by apply (IH (b' :: l2)).
Qed.

Section Step1Trace.
Context {St : Type}.
Variable quantized_test : Config -> St -> Q * St.
Variable inp : Inputs.

(** The accuracy picked when the search converges is the last one measured:
    the flags are searched in trial order and the first one is set. *)
Lemma step1_select_last (s : Step1Lists) bits j al a (w : World St) :
  next_true (reverse (step1_bit_search_sat s)) = Some j ->
  step1_bit_search s !! (length (step1_bit_search_sat s) - 1 - j)%nat = Some bits ->
  step1_bit_search_sat s !! 0%nat = Some true ->
  step1_acc_list s = al ++ [a] ->
  length (step1_acc_list s) = length (step1_bit_search_sat s) ->
  step1_select s w = (Ok (bits, a), w).
Proof.
  intros Hj Hb Hfirst Hal Hlen. unfold step1_select, next_true_m. rewrite Hj.
  unfold bind at 1, ret at 1. rewrite (bind_Ok _ _ _ _ _ (getitem_Some _ _ _ _ Hb)).
  rewrite (next_true_head _ Hfirst). unfold bind at 1, ret at 1.
  assert (Ha : step1_acc_list s !! (length (step1_bit_search_sat s) - 1 - 0)%nat = Some a).
  { rewrite <- Hlen, Hal, length_app. simpl. apply list_lookup_middle. lia. }
  by rewrite (bind_Ok _ _ _ _ _ (getitem_Some _ _ _ _ Ha)).
Qed.

(** One turn of the loop that does not converge. *)
Lemma step1_while_step fuel (s : Step1Lists) hist c p k (w : World St) :
  step1_bit_search s = hist ++ [c] -> last hist = Some p ->
  Z.abs (c - p) = (2 ^ Z.of_nat (S k))%Z ->
  let r := quantized_test (uniform_config inp c) (ost w) in
  step1_while quantized_test inp (S fuel) s w =
    step1_while quantized_test inp fuel
      {| step1_bit_search :=
           step1_bit_search s
             ++ [if passes inp r.1 then (c - 2 ^ Z.of_nat k)%Z else (c + 2 ^ Z.of_nat k)%Z];
         step1_acc_list := step1_acc_list s ++ [r.1];
         step1_bit_search_sat := step1_bit_search_sat s ++ [passes inp r.1] |}
      {| ost := r.2; log := log w ++ [(uniform_config inp c, r.1)] |}.
Proof.
  intros Hs Hh Habs r.
  assert (He : (2 ^ Z.of_nat (S k) = 2 * 2 ^ Z.of_nat k)%Z)
    by (rewrite Nat2Z.inj_succ, Z.pow_succ_r; lia).
  assert (Hpos : (0 < 2 ^ Z.of_nat k)%Z) by (apply Z.pow_pos_nonneg; lia).
  simpl step1_while. rewrite Hs.
  rewrite (bind_Ok _ _ _ _ _ (getitem_neg_last _ _ _)).
  unfold step1_quantization_test, evaluate at 1, bind at 1. subst r.
  destruct (quantized_test (uniform_config inp c) (ost w)) as [a st'].
  rewrite (bind_Ok _ _ _ _ _ (getitem_neg_last2 _ _ _ _ Hh)). rewrite Habs, He.
  set (e := (2 ^ Z.of_nat k)%Z) in *.
  replace (2 * e =? 1)%Z with false by (symmetry; apply Z.eqb_neq; lia).
  cbn [fst snd]. unfold passes.
  destruct (Qltb (step1_min_acc inp) a).
  - by rewrite py_int_half_down.
  - by rewrite py_int_half_up.
Qed.

(** The turn of the loop in which the search converges. *)
Lemma step1_while_last fuel (s : Step1Lists) hist c p (w : World St) :
  step1_bit_search s = hist ++ [c] -> last hist = Some p ->
  Z.abs (c - p) = 1%Z ->
  let r := quantized_test (uniform_config inp c) (ost w) in
  let s1 := {| step1_bit_search := step1_bit_search s;
               step1_acc_list := step1_acc_list s ++ [r.1];
               step1_bit_search_sat := step1_bit_search_sat s ++ [passes inp r.1] |} in
  step1_while quantized_test inp (S fuel) s w =
    bind (step1_select s1) (fun x => ret (x, s1))
      {| ost := r.2; log := log w ++ [(uniform_config inp c, r.1)] |}.
Proof.
  intros Hs Hh Habs r s1.
  simpl step1_while. rewrite Hs.
  rewrite (bind_Ok _ _ _ _ _ (getitem_neg_last _ _ _)).
  unfold step1_quantization_test, evaluate at 1, bind at 1. subst s1 r.
  destruct (quantized_test (uniform_config inp c) (ost w)) as [a st'].
  rewrite (bind_Ok _ _ _ _ _ (getitem_neg_last2 _ _ _ _ Hh)). rewrite Habs.
  change (1 =? 1)%Z with true. cbv iota. cbn [fst snd]. by rewrite Hs.
Qed.

(** The invariant of the search is kept from one turn to the next. *)
Lemma step1_inv_next k (s : Step1Lists) hist c a :
  step1_inv quantized_test inp (S k) s hist c ->
  measured quantized_test inp c (passes inp a) ->
  let next := if passes inp a then (c - 2 ^ Z.of_nat k)%Z else (c + 2 ^ Z.of_nat k)%Z in
  step1_inv quantized_test inp k
    {| step1_bit_search := step1_bit_search s ++ [next];
       step1_acc_list := step1_acc_list s ++ [a];
       step1_bit_search_sat := step1_bit_search_sat s ++ [passes inp a] |}
    (hist ++ [c]) next.
Proof.
  intros [Hs (p & Hh & Habs) Hls Hla Hr (j & Hj & Hjl) Hhi Hlo Hmin Hfirst] Hm next.
  assert (He : (2 ^ Z.of_nat (S k) = 2 * 2 ^ Z.of_nat k)%Z)
    by (rewrite Nat2Z.inj_succ, Z.pow_succ_r; lia).
  assert (Hpos : (0 < 2 ^ Z.of_nat k)%Z) by (apply Z.pow_pos_nonneg; lia).
  assert (Hl1 : (0 < length hist)%nat) by (destruct hist; [done | simpl; lia]).
  rewrite He in *. set (e := (2 ^ Z.of_nat k)%Z) in *. subst next.
  destruct (passes inp a) eqn:Hpass; split; simpl; fold e.
  - by rewrite Hs.
  - exists c. rewrite last_snoc. split; [done|]. lia.
  - rewrite !length_app, Hls. done.
  - rewrite !length_app, Hla. done.
  - lia.
  - exists 0%nat. rewrite next_true_reverse_snoc. split; [done|].
    replace (c - e + e)%Z with c by lia. apply list_lookup_middle.
    rewrite length_app. simpl. lia.
  - by replace (c - e + e)%Z with c by lia.
  - replace (c - e - e)%Z with (c - 2 * e)%Z by lia. done.
  - intros i b Hi Hsat. replace (c - e + e)%Z with c by lia.
    apply lookup_snoc_Some in Hi as [[Hlt Hi]|[_ ->]]; [|lia].
    rewrite lookup_app_l in Hsat by lia. specialize (Hmin i b Hi Hsat). lia.
  - by apply lookup_app_l_Some.
  - by rewrite Hs.
  - exists c. rewrite last_snoc. split; [done|]. lia.
  - rewrite !length_app, Hls. done.
  - rewrite !length_app, Hla. done.
  - lia.
  - exists (S j). rewrite next_true_reverse_snoc, Hj. split; [done|].
    replace (c + e + e)%Z with (c + 2 * e)%Z by lia. apply lookup_app_l_Some.
    replace (length (hist ++ [c]) - 1 - S j)%nat with (length hist - 1 - j)%nat; [done|].
    rewrite length_app. simpl. lia.
  - by replace (c + e + e)%Z with (c + 2 * e)%Z by lia.
  - right. by replace (c + e - e)%Z with c by lia.
  - intros i b Hi Hsat. replace (c + e + e)%Z with (c + 2 * e)%Z by lia.
    apply lookup_snoc_Some in Hi as [[Hlt Hi]|[Hi _]].
    + rewrite lookup_app_l in Hsat by lia. by apply (Hmin i b).
    + rewrite Hi, <- Hls in Hsat. rewrite list_lookup_middle in Hsat by done. done.
  - by apply lookup_app_l_Some.
Qed.

(** The loop, from any state that satisfies the invariant: it takes [k + 1]
    more turns, one oracle call each, along the halving path; it reports the
    accuracy of the last trial; and it selects the last width tried when that
    trial passed, the width one bit above it otherwise. *)
Lemma step1_while_trace k :
  forall fuel (s : Step1Lists) hist c (w : World St),
    (k < fuel)%nat -> step1_inv quantized_test inp k s hist c ->
    exists accs a_last c_last bits w',
      step1_while quantized_test inp fuel s w =
        (Ok (bits, a_last,
             {| step1_bit_search := hist ++ halving inp k c accs;
                step1_acc_list := step1_acc_list s ++ accs;
                step1_bit_search_sat := step1_bit_search_sat s ++ (passes inp <$> accs) |}),
         w') /\
      length accs = S k /\
      log w' = log w ++ zip (uniform_config inp <$> halving inp k c accs) accs /\
      last accs = Some a_last /\
      last (halving inp k c accs) = Some c_last /\
      bits = (if passes inp a_last then c_last else c_last + 1)%Z.
Proof.
  induction k as [|k IH]; intros fuel s hist c w Hfuel Hinv;
    (destruct fuel as [|fuel]; [lia|]).
  - destruct Hinv as [Hs (p & Hh & Habs) Hls Hla Hr (j & Hj & Hjl) Hhi Hlo Hmin Hfirst].
    change (2 ^ Z.of_nat 0)%Z with 1%Z in *.
    rewrite (step1_while_last fuel s hist c p w Hs Hh Habs).
    set (r := quantized_test (uniform_config inp c) (ost w)).
    set (s1 := Build_Step1Lists _ _ _). set (w1 := Build_World St _ _).
    assert (Hl1 : (0 < length hist)%nat) by (destruct hist; [done | simpl; lia]).
    assert (Hsel : step1_select s1 w1 =
                     (Ok ((if passes inp r.1 then c else c + 1)%Z, r.1), w1)).
    { apply (step1_select_last s1 _ (if passes inp r.1 then 0%nat else S j)
               (step1_acc_list s) r.1).
      - subst s1. simpl. rewrite next_true_reverse_snoc.
        destruct (passes inp r.1); [done | by rewrite Hj].
      - subst s1. simpl. rewrite Hs, length_app, Hls. simpl.
        destruct (passes inp r.1).
        + apply list_lookup_middle. lia.
        + apply lookup_app_l_Some.
          by replace (length hist + 1 - 1 - S j)%nat with (length hist - 1 - j)%nat by lia.
      - subst s1. simpl. by apply lookup_app_l_Some.
      - done.
      - subst s1. simpl. rewrite !length_app. simpl. lia. }
    rewrite (bind_Ok _ _ _ _ _ Hsel).
    exists [r.1], r.1, c, (if passes inp r.1 then c else c + 1)%Z, w1.
    split; [|done]. unfold ret. subst s1. simpl. by rewrite Hs.
  - pose proof Hinv as [Hs (p & Hh & Habs) _ _ _ _ _ _ _ _].
    rewrite (step1_while_step fuel s hist c p k w Hs Hh Habs).
    set (r := quantized_test (uniform_config inp c) (ost w)).
    set (next := if passes inp r.1 then _ else _).
    set (s1 := Build_Step1Lists _ _ _). set (w1 := Build_World St _ _).
    assert (Hinv1 : step1_inv quantized_test inp k s1 (hist ++ [c]) next).
    { apply step1_inv_next; [done|]. by exists (ost w). }
    destruct (IH fuel s1 (hist ++ [c]) next w1 ltac:(lia) Hinv1)
      as (accs & a_last & c_last & bits & w' & Hrun & Hlen & Hlog & Hla & Hlc & Hbits).
    exists (r.1 :: accs), a_last, c_last, bits, w'.
    rewrite Hrun. subst s1 w1. cbn [step1_acc_list step1_bit_search_sat log] in *.
    cbn [halving]. fold next. rewrite <- !(assoc_L (++)). cbn [app fmap list_fmap].
    split; [done|]. split; [simpl; lia|]. split.
    { rewrite Hlog, <- (assoc_L (++)). done. }
    split; [by rewrite last_cons, Hla|]. split; [by rewrite last_cons, Hlc | done].
Qed.

(** STEP 1 as a whole, for any oracle: the search always takes the same
    number of oracle calls. *)
Lemma step1_search_trace (fuel : nat) (w : World St) :
  (5 <= fuel)%nat ->
  let r := quantized_test (uniform_config inp 32) (ost w) in
  if passes inp r.1 then
    exists accs a_last c_last bits w',
      step1_search quantized_test inp fuel w =
        (Ok (bits, a_last,
             {| step1_bit_search := 32%Z :: halving inp 4 16 accs;
                step1_acc_list := r.1 :: accs;
                step1_bit_search_sat := true :: (passes inp <$> accs) |}), w') /\
      length accs = 5%nat /\
      log w' = log w ++ zip (uniform_config inp <$> (32%Z :: halving inp 4 16 accs)) (r.1 :: accs) /\
      last accs = Some a_last /\
      last (halving inp 4 16 accs) = Some c_last /\
      bits = (if passes inp a_last then c_last else c_last + 1)%Z
  else
    step1_search quantized_test inp fuel w =
      (Ok (32%Z, r.1, {| step1_bit_search := [32%Z]; step1_acc_list := [r.1];
                         step1_bit_search_sat := [] |}),
       {| ost := r.2; log := log w ++ [(uniform_config inp 32, r.1)] |}).
Proof.
  intros Hfuel r.
  assert (Hrun0 : step1_search quantized_test inp fuel w =
            (if passes inp r.1 then
               step1_while quantized_test inp fuel
                 {| step1_bit_search := [32%Z; 16%Z]; step1_acc_list := [r.1];
                    step1_bit_search_sat := [true] |}
             else
               ret (32%Z, r.1, {| step1_bit_search := [32%Z]; step1_acc_list := [r.1];
                                  step1_bit_search_sat := [] |}))
              {| ost := r.2; log := log w ++ [(uniform_config inp 32, r.1)] |}).
  { unfold step1_search, step1_quantization_test, evaluate, bind. subst r.
    by destruct (quantized_test (uniform_config inp 32) (ost w)) as [a st']. }
  rewrite Hrun0. clear Hrun0.
  assert (Hq : exists s0, passes inp (quantized_test (uniform_config inp 32) s0).1
                          = passes inp r.1) by (by exists (ost w)).
  destruct (passes inp r.1) eqn:Hpass; [|reflexivity].
  set (w1 := Build_World St _ _). set (s := Build_Step1Lists _ _ _).
  destruct (step1_while_trace 4 fuel s [32%Z] 16%Z w1)
    as (accs & a_last & c_last & bits & w' & Hrun & Hlen & Hlog & Hla & Hlc & Hbits);
    [lia| |].
  - subst s. split; simpl step1_bit_search; simpl step1_bit_search_sat;
      simpl step1_acc_list; change (2 ^ Z.of_nat 4)%Z with 16%Z;
      change (16 + 16)%Z with 32%Z; try done.
    + by exists 32%Z.
    + by exists 0%nat.
    + by left.
    + intros [|i] b [= <-] _. done.
  - exists accs, a_last, c_last, bits, w'. rewrite Hrun. subst s w1.
    cbn [step1_acc_list step1_bit_search_sat log app] in *.
    split; [done|]. split; [done|]. split; [|done].
    rewrite Hlog, <- (assoc_L (++)). done.
Qed.
End Step1Trace.

(** From one width of a halving path to the next. *)
Lemma halving_lookup (inp : Inputs) (k : nat) :
  forall c accs j x a,
    (j < k)%nat -> halving inp k c accs !! j = Some x -> accs !! j = Some a ->
    halving inp k c accs !! S j =
      Some (if passes inp a then x - 2 ^ Z.of_nat (k - 1 - j) else x + 2 ^ Z.of_nat (k - 1 - j))%Z.
Proof.
  induction k as [|k IH]; intros c accs j x a Hj Hx Ha; [lia|].
  destruct accs as [|a0 accs]; [done|]. cbn [halving] in *.
  destruct j as [|j].
  - injection Hx as <-. injection Ha as <-. rewrite Nat.sub_0_r.
    replace (S k - 1)%nat with k by lia.
    cbn [lookup list_lookup]. by destruct k, accs.
  - cbn [lookup list_lookup] in *.
    replace (S k - 1 - S j)%nat with (k - 1 - j)%nat by lia.
    apply IH; [lia | done | done].
Qed.

(** Whatever the oracle answers, the length of the STEP 1 search is decided
    by the accuracy measured at 32 bits.  When it fails the floor (it is not
    strictly above it), that call is the only one and 32 bits is selected,
    with that accuracy.  When it passes, there are exactly six calls: the
    widths tried are 32, then 16, then four more, each one 8, 4, 2 and
    finally 1 bit away from the width tried before it, lower when that width
    passed and higher when it failed.  Every call is on a uniform
    configuration, and the calls are recorded in trial order. *)
Theorem step1_search_path {St : Type}
    (quantized_test : Config -> St -> Q * St) (inp : Inputs) (fuel : nat) (w : World St) :
  (5 <= fuel)%nat ->
  let first := (quantized_test (uniform_config inp 32) (ost w)).1 in
  exists step1_bits acc s w',
    step1_search quantized_test inp fuel w = (Ok (step1_bits, acc, s), w') /\
    log w' = log w ++ zip (uniform_config inp <$> step1_bit_search s) (step1_acc_list s) /\
    length (step1_acc_list s) = length (step1_bit_search s) /\
    step1_acc_list s !! 0%nat = Some first /\
    if passes inp first
    then length (log w') = (length (log w) + 6)%nat /\
         length (step1_bit_search s) = 6%nat /\
         step1_bit_search s !! 0%nat = Some 32%Z /\
         step1_bit_search s !! 1%nat = Some 16%Z /\
         forall j c a,
           (1 <= j < 5)%nat ->
           step1_bit_search s !! j = Some c -> step1_acc_list s !! j = Some a ->
           step1_bit_search s !! S j =
             Some (if passes inp a then c - 2 ^ Z.of_nat (4 - j)
                   else c + 2 ^ Z.of_nat (4 - j))%Z
    else length (log w') = (length (log w) + 1)%nat /\
         step1_bit_search s = [32%Z] /\ step1_bits = 32%Z /\ acc = first.
Proof.
  intros Hfuel first. pose proof (step1_search_trace quantized_test inp fuel w Hfuel) as H.
  cbv zeta in H. set (r := quantized_test (uniform_config inp 32) (ost w)) in *.
  subst first. destruct (passes inp r.1) eqn:Hpass.
  - destruct H as (accs & a_last & c_last & bits & w' & Hrun & Hlen & Hlog & _).
    pose proof (halving_length inp 4 16 accs Hlen) as Hlh.
    eexists _, _, _, _. split; [exact Hrun|].
    cbn [step1_bit_search step1_acc_list step1_bit_search_sat].
    cbn [length]. rewrite Hlh, Hlen.
    split; [done|]. split; [done|]. split; [done|].
    split.
    { rewrite Hlog, length_app, length_zip_with, length_fmap. cbn [length].
      rewrite Hlh, Hlen. simpl. lia. }
    split; [done|]. split; [done|]. split.
    { cbn [lookup list_lookup]. by destruct accs. }
    intros j c a Hj Hc Ha. destruct j as [|j]; [lia|].
    cbn [lookup list_lookup] in *.
    replace (4 - S j)%nat with (4 - 1 - j)%nat by lia.
    apply halving_lookup; [lia | done | done].
  - eexists _, _, _, _. split; [exact H|].
    cbn [step1_bit_search step1_acc_list step1_bit_search_sat log].
    split; [done|]. split; [done|]. split; [done|].
    split; [|done]. rewrite length_app. simpl. lia.
Qed.

(** On the scenario of the specification the accuracy at 32 bits (108)
    passes the floor: six calls, on 32, 16, 24, 28, 26 and 25 bits. *)
Lemma step1_search_path_witness :
  passes ten_layers (pure_oracle oracle_linear (uniform_config ten_layers 32) tt).1 = true /\
  exists step1_bits acc s w',
    step1_search (pure_oracle oracle_linear) ten_layers 5 (start tt)
      = (Ok (step1_bits, acc, s), w') /\
    length (log w') = 6%nat /\
    step1_bit_search s = [32; 16; 24; 28; 26; 25]%Z.
Proof.
  assert (Hp : passes ten_layers
                 (pure_oracle oracle_linear (uniform_config ten_layers 32) tt).1 = true)
    by reflexivity.
  split; [exact Hp|].
  destruct (step1_search_path (pure_oracle oracle_linear) ten_layers 5 (start tt))
    as (bits & acc & s & w' & Hrun & _ & _ & _ & Hpath); [lia|].
  cbv zeta in Hpath. change (ost (start tt)) with tt in Hpath. rewrite Hp in Hpath.
  destruct Hpath as (Hcalls & _).
  exists bits, acc, s, w'. split; [exact Hrun|]. split; [exact Hcalls|].
  vm_compute in Hrun. by injection Hrun as <- <- <- <-.
Defined.

(** When the search runs, the accuracy STEP 1 reports is the one measured in
    the last trial, whichever width is selected: the two selections index
    their lists differently.  The selected width is the last width tried when
    that trial passed and one bit more when it failed; in the second case the
    reported accuracy is one that fails the floor, measured for a width that
    was not selected, while the selected width did pass when it was tried. *)
Theorem step1_reported_accuracy {St : Type}
    (quantized_test : Config -> St -> Q * St) (inp : Inputs) (fuel : nat) (w : World St) :
  (5 <= fuel)%nat ->
  passes inp (quantized_test (uniform_config inp 32) (ost w)).1 = true ->
  exists step1_bits step1_acc s w' c_last,
    step1_search quantized_test inp fuel w = (Ok (step1_bits, step1_acc, s), w') /\
    last (step1_bit_search s) = Some c_last /\
    last (step1_acc_list s) = Some step1_acc /\
    last (log w') = Some (uniform_config inp c_last, step1_acc) /\
    step1_bits = (if passes inp step1_acc then c_last else c_last + 1)%Z /\
    measured quantized_test inp step1_bits true.
Proof.
  intros Hfuel Hpass.
  pose proof (step1_search_trace quantized_test inp fuel w Hfuel) as H.
  cbv zeta in H. rewrite Hpass in H.
  destruct H as (accs & a_last & c_last & bits & w' & Hrun & Hlen & Hlog & Hla & Hlc & Hbits).
  destruct (step1_search_correct quantized_test inp fuel w Hfuel)
    as (bits' & acc' & s' & w'' & Hrun' & _ & Hpost).
  rewrite Hrun in Hrun'. injection Hrun' as <- <- <- <-.
  destruct (Hpost Hpass) as [_ _ _ Hmeasured _ _ _].
  eexists _, _, _, _, c_last. split; [exact Hrun|].
  cbn [step1_bit_search step1_acc_list].
  pose proof (halving_length inp 4 16 accs Hlen) as Hlh.
  split; [by rewrite last_cons, Hlc|]. split; [by rewrite last_cons, Hla|].
  split; [|done].
  rewrite Hlog, last_app, fmap_cons.
  rewrite (last_zip (uniform_config inp 32 :: (uniform_config inp <$> halving inp 4 16 accs))
             (_ :: accs) (uniform_config inp c_last) a_last); [done| | |].
  - cbn [length]. rewrite length_fmap, Hlh, Hlen. done.
  - by rewrite last_cons, fmap_last, Hlc.
  - by rewrite last_cons, Hla.
Qed.

Lemma step1_reported_accuracy_witness :
  exists step1_bits step1_acc s w',
    step1_search (pure_oracle oracle_linear) ten_layers 5 (start tt)
      = (Ok (step1_bits, step1_acc, s), w') /\
    step1_bits = 26%Z /\ (step1_acc == linear_accuracy 25)%Q /\
    passes ten_layers step1_acc = false.
Proof.
  destruct (step1_reported_accuracy (pure_oracle oracle_linear) ten_layers 5 (start tt))
    as (bits & acc & s & w' & c_last & Hrun & _); [lia | reflexivity |].
  exists bits, acc, s, w'. split; [exact Hrun|].
  vm_compute in Hrun. injection Hrun as <- <- <- <-. repeat split; reflexivity.
Defined.

(** What the search guarantees for an arbitrary oracle, monotone or not, with
    or without hidden state: the width returned lies between 1 and 32; when
    32 bits fail the floor it is 32; otherwise it is a width that passed when
    it was tried, and it is 1 bit or the width just below it failed when it
    was tried. *)
Theorem step1_locally_minimal {St : Type}
    (quantized_test : Config -> St -> Q * St) (inp : Inputs) (fuel : nat) (w : World St) :
  (5 <= fuel)%nat ->
  exists step1_bits acc s w',
    step1_search quantized_test inp fuel w = (Ok (step1_bits, acc, s), w') /\
    (1 <= step1_bits <= 32)%Z /\
    (passes inp (quantized_test (uniform_config inp 32) (ost w)).1 = false ->
     step1_bits = 32%Z) /\
    (passes inp (quantized_test (uniform_config inp 32) (ost w)).1 = true ->
     measured quantized_test inp step1_bits true /\
     (step1_bits = 1%Z \/ measured quantized_test inp (step1_bits - 1) false)).
Proof.
  intros Hfuel.
  destruct (step1_search_correct quantized_test inp fuel w Hfuel)
    as (bits & acc & s & w' & Hrun & Hrange & Hpost).
  exists bits, acc, s, w'. split; [done|]. split; [done|]. split.
  - intros Hfail. pose proof (step1_search_trace quantized_test inp fuel w Hfuel) as H.
    cbv zeta in H. rewrite Hfail in H. rewrite Hrun in H. by injection H as -> _ _ _.
  - intros Hpass. by destruct (Hpost Hpass) as [_ _ _ Hm Hb _ _].
Qed.

Lemma step1_locally_minimal_witness :
  exists step1_bits acc s w',
    step1_search (pure_oracle oracle_linear) ten_layers 5 (start tt)
      = (Ok (step1_bits, acc, s), w') /\
    (1 <= step1_bits <= 32)%Z.
Proof.
  destruct (step1_locally_minimal (pure_oracle oracle_linear) ten_layers 5 (start tt))
    as (bits & acc & s & w' & Hrun & Hrange & _); [lia|].
  by exists bits, acc, s, w'.
Defined.

(** ** STEP 2: a raise phase that never ends *)

Section RaiseDiverges.
Context {St : Type}.
Variable quantized_test : Config -> St -> Q * St.
Variable inp : Inputs.
Hypothesis never_enough :
  forall c s, ((quantized_test c s).1 < minimum_accuracy inp)%Q.

Lemma step2_raise_out_of_fuel fuel a d :
  forall wb acc (w : World St),
    (acc < minimum_accuracy inp)%Q ->
    exists w',
      step2_raise quantized_test inp fuel a d wb acc w = (OutOfFuel, w') /\
      (log w').*1 = (log w).*1 ++
        ((fun j => mk_config (map (fun b => b + Z.of_nat j)%Z wb) a d) <$> seq 1 fuel).
Proof using never_enough.
  induction fuel as [|fuel IH]; intros wb acc w Hacc; simpl;
    apply Qltb_lt in Hacc; rewrite Hacc.
  - eexists. split; [done|]. simpl. by rewrite app_nil_r.
  - unfold bind at 1, evaluate at 1.
    set (c1 := mk_config _ a d).
    pose proof (never_enough c1 (ost w)) as Hlow.
    destruct (quantized_test c1 (ost w)) as [a1 st']. cbn [fst] in Hlow.
    destruct (IH (map (fun b => (b + 1)%Z) wb) a1 (Build_World St st' (log w ++ [(c1, a1)])) Hlow)
      as (w' & Hrun & Hlog).
    exists w'. split; [done|]. rewrite Hlog. cbn [log].
    rewrite fmap_app, <- (assoc_L (++)). f_equal.
    change (seq 1 (S fuel)) with (1%nat :: seq 2 fuel).
    rewrite <- (fmap_S_seq 1 fuel), <- list_fmap_compose.
    cbn [fmap list_fmap fst app].
    f_equal.
    apply list_fmap_ext. intros k j _. unfold compose. f_equal.
    rewrite map_map. apply map_ext. intros b. lia.
Qed.
End RaiseDiverges.

Section Step1NoRaise.
Context {St : Type}.
Variable quantized_test : Config -> St -> Q * St.
Variable inp : Inputs.

(** STEP 1 raises no exception. *)
Lemma step1_search_no_raise fuel (w : World St) e w' :
  step1_search quantized_test inp fuel w <> (Raise e, w').
Proof.
  destruct (decide (5 <= fuel)%nat) as [Hfuel|Hfuel].
  - destruct (step1_search_correct quantized_test inp fuel w Hfuel)
      as (b & a & s & w1 & Hrun & _). by rewrite Hrun.
  - unfold step1_search, step1_quantization_test, evaluate at 1, bind at 1.
    destruct (quantized_test (uniform_config inp 32) (ost w)) as [a st'].
    simpl. destruct (Qltb _ a); [|done].
    set (w1 := Build_World St st' _). set (s := Build_Step1Lists _ _ _).
    destruct (step1_while_needs_fuel quantized_test inp 4 fuel s [32%Z] 16%Z 32%Z w1)
      as [w2 Hout]; [lia | done | done | done |].
    by rewrite Hout.
Qed.
End Step1NoRaise.

(** The raise phase of STEP 2 has neither an iteration limit nor a cap on the
    width.  With an oracle that never reaches [minimum_accuracy], the loop
    evaluates the uniform configurations one bit, two bits, three bits, ...
    above its starting widths and never stops: whatever the number of
    iterations allowed, it uses them all.  Consequently [qcapsnets] itself
    does not return on such an oracle as soon as the memory budget is
    feasible and the model has weights. *)
Theorem raise_phase_diverges {St : Type}
    (quantized_test : Config -> St -> Q * St) (inp : Inputs) :
  (forall c s, ((quantized_test c s).1 < minimum_accuracy inp)%Q) ->
  (forall fuel a d wb acc (w : World St),
     (acc < minimum_accuracy inp)%Q ->
     exists w',
       step2_raise quantized_test inp fuel a d wb acc w = (OutOfFuel, w') /\
       (log w').*1 = (log w).*1 ++
         ((fun j => mk_config (map (fun b => b + Z.of_nat j)%Z wb) a d) <$> seq 1 fuel)) /\
  ((0 < minimum_mem_required inp)%Z ->
   (inject_Z (minimum_mem_required inp) <= memory_budget_bits inp)%Q ->
   forall fuel (w : World St), (qcapsnets quantized_test inp fuel w).1 = OutOfFuel).
Proof.
  intros Hnever. split.
  { intros fuel a d wb acc w Hacc. by apply step2_raise_out_of_fuel. }
  intros Hpos Hfeas fuel w. unfold qcapsnets.
  unfold bind at 1.
  destruct (step1_search quantized_test inp fuel w) as [[[[bits acc1] s1]|e|] w1] eqn:E1;
    [|by apply step1_search_no_raise in E1|done].
  unfold bind at 1.
  assert (H2 : (step2 quantized_test inp fuel bits w1).1 = OutOfFuel).
  { unfold step2.
    replace (Qltb (memory_budget_bits inp) (inject_Z (minimum_mem_required inp))) with false
      by (symmetry; by apply Qltb_ge).
    rewrite (bind_Ok _ _ _ _ _ (uniform_memory_bits_ok inp w1 ltac:(lia))).
    set (c0 := mk_config _ _ _). unfold bind at 1, evaluate at 1.
    pose proof (Hnever c0 (ost w1)) as Hlow.
    destruct (quantized_test c0 (ost w1)) as [a0 st']. cbn [fst] in Hlow.
    replace (Qle_bool (minimum_accuracy inp) a0) with false
      by (symmetry; by apply Qle_bool_false).
    set (w2 := Build_World St st' _).
    destruct (step2_raise_out_of_fuel quantized_test inp Hnever fuel
                (step1_act_bits inp bits) (step1_dr_bits inp bits)
                (weight_bits c0) a0 w2 Hlow) as (w3 & Hrun & _).
    unfold bind. subst c0. cbn [weight_bits mk_config] in Hrun. by rewrite Hrun. }
  by destruct (step2 quantized_test inp fuel bits w1) as [[r| |] w2].
Qed.

(** An oracle that always answers 0 on [two_layers]: after seven iterations
    the raise phase has reached 11 bits on every layer and is still going. *)
Lemma raise_phase_diverges_witness :
  (qcapsnets (pure_oracle (fun _ => 0%Q)) two_layers 7 (start tt)).1 = OutOfFuel /\
  (weight_bits <$> last (log (qcapsnets (pure_oracle (fun _ => 0%Q)) two_layers 7 (start tt)).2).*1)
    = Some [11; 11]%Z.
Proof.
  split; [|vm_compute; reflexivity].
  apply (raise_phase_diverges (pure_oracle (fun _ => 0%Q)) two_layers).
  - intros c s. reflexivity.
  - reflexivity.
  - vm_compute. discriminate.
Defined.

(** ** The sensitivity orderings break ties by position *)

Section Stability.
Variable before : Q -> Q -> bool.
Hypothesis before_negtrans :
  forall a b c, before a c = true -> before a b = true \/ before b c = true.

Lemma insert_by_stable x l :
  StronglySorted (ahead before) l -> Forall (fun y => (x.2 < y.2)%nat) l ->
  StronglySorted (ahead before) (insert_by before x l).
Proof using before_negtrans.
  induction 1 as [|y l Hl IH Hy]; intros Hx; simpl.
  - by repeat constructor.
  - apply Forall_cons in Hx as [Hxy Hx]. destruct (before y.1 x.1) eqn:E.
    + constructor; [by apply IH|]. rewrite insert_by_perm. constructor; [by left | done].
    + constructor; [by constructor|]. constructor.
      { unfold ahead. destruct (before x.1 y.1) eqn:E'; [by left | by right]. }
      apply Forall_forall. intros z Hz.
      pose proof (proj1 (Forall_forall _ _) Hy z Hz) as Hyz.
      pose proof (proj1 (Forall_forall _ _) Hx z Hz) as Hxz.
      destruct (before x.1 z.1) eqn:Exz; [by left|]. right. split; [|done].
      destruct (before z.1 x.1) eqn:Ezx; [|done]. exfalso.
      destruct Hyz as [Hyz|[Hzy _]].
      * destruct (before_negtrans _ x.1 _ Hyz); congruence.
      * destruct (before_negtrans _ y.1 _ Ezx); congruence.
Qed.

Lemma stable_sort_stable l :
  StronglySorted (fun x y => (x.2 < y.2)%nat) l -> StronglySorted (ahead before) (stable_sort before l).
Proof using before_negtrans.
  induction 1 as [|x l Hl IH Hx]; simpl; [constructor|].
  apply insert_by_stable; [done|]. by rewrite stable_sort_perm.
Qed.
End Stability.

Lemma enumerate_sqnr_increasing (l : list Q) :
  StronglySorted (fun x y : Q * nat => (x.2 < y.2)%nat) (enumerate_sqnr l).
Proof.
  unfold enumerate_sqnr. generalize 0%nat as k. induction l as [|q l IH]; intros k.
  - constructor.
  - simpl. constructor; [apply IH|]. apply Forall_forall. intros [q' i] Hi.
    apply elem_of_zip_r, elem_of_seq in Hi. simpl. lia.
Qed.

(** Both orderings rank every entry of their statistics exactly once, and
    they are stable.  The weight ranking goes by descending SQNR, the
    activation ranking by ascending SQNR; in both, entries with equal SQNR
    keep the order of their positions. *)
Theorem sensitivity_rankings_stable (inp : Inputs) :
  (StronglySorted (fun x y => (y.1 < x.1)%Q \/ ((x.1 == y.1)%Q /\ (x.2 < y.2)%nat))
     (sqnr_tuples inp) /\
   sqnr_tuples inp ≡ₚ enumerate_sqnr (weight_sqnr inp)) /\
  (StronglySorted (fun x y => (x.1 < y.1)%Q \/ ((x.1 == y.1)%Q /\ (x.2 < y.2)%nat))
     (act_sqnr inp) /\
   act_sqnr inp ≡ₚ enumerate_sqnr (act_info_sqnr inp)).
Proof.
  split; (split; [|apply stable_sort_perm]).
  - unfold sqnr_tuples.
    eapply StronglySorted_weaken; [|apply stable_sort_stable, enumerate_sqnr_increasing].
    + intros x y [H|[H Hi]]; simpl in H.
      * left. by apply Qltb_lt.
      * apply Qltb_ge in H. destruct (Qlt_le_dec y.1 x.1) as [Hlt|Hle]; [by left|].
        right. split; [by apply Qle_antisym | done].
    + intros a b c H. apply Qltb_lt in H.
      destruct (Qlt_le_dec b a) as [Hlt|Hle].
      * left. by apply Qltb_lt.
      * right. apply Qltb_lt. by eapply Qlt_le_trans.
  - unfold act_sqnr.
    eapply StronglySorted_weaken; [|apply stable_sort_stable, enumerate_sqnr_increasing].
    + intros x y [H|[H Hi]]; simpl in H.
      * left. by apply Qltb_lt.
      * apply Qltb_ge in H. destruct (Qlt_le_dec x.1 y.1) as [Hlt|Hle]; [by left|].
        right. split; [by apply Qle_antisym | done].
    + intros a b c H. apply Qltb_lt in H.
      destruct (Qlt_le_dec a b) as [Hlt|Hle].
      * left. by apply Qltb_lt.
      * right. apply Qltb_lt. by eapply Qle_lt_trans.
Qed.

(** ** The shape of the activation groups *)

Lemma act_sqnr_length (inp : Inputs) : length (act_sqnr inp) = length (act_info_sqnr inp).
Proof.
  destruct (act_sqnr_sorted inp) as [_ Hperm]. rewrite Hperm.
  unfold enumerate_sqnr. rewrite length_zip_with, length_seq. lia.
Qed.

(** The activation groups partition the positions [0 .. n-1] of the
    activation statistics, in ascending-SQNR order.  With more than four
    entries there are exactly four groups: the first three hold
    [floor(n / 4)] positions each and the last one holds all the others
    (up to three more); with four entries or fewer every position is a
    group of its own. *)
Theorem act_groups_shape (inp : Inputs) :
  let n := length (act_info_sqnr inp) in
  concat (act_sqnr_grouped_index inp) = (act_sqnr inp).*2 /\
  NoDup (concat (act_sqnr_grouped_index inp)) /\
  (forall i, i ∈ concat (act_sqnr_grouped_index inp) <-> (i < n)%nat) /\
  length <$> act_sqnr_grouped_index inp =
    if (4 <? n)%nat then [n / 4; n / 4; n / 4; n - 3 * (n / 4)]%nat else replicate n 1%nat.
Proof.
  intros n. split; [apply group_indices_concat|]. split; [apply act_groups_NoDup|]. split.
  - intros i. unfold act_sqnr_grouped_index. rewrite group_indices_concat.
    destruct (act_sqnr_sorted inp) as [_ Hperm].
    rewrite Hperm, enumerate_sqnr_indices, elem_of_seq. subst n. lia.
  - unfold act_sqnr_grouped_index, group_indices. rewrite act_sqnr_length. fold n.
    destruct (4 <? n)%nat eqn:E.
    + apply Nat.ltb_lt in E. set (k := (n / 4)%nat).
      assert (H4k : (4 * k <= n)%nat) by (subst k; apply Nat.Div0.mul_div_le).
      cbn [fmap list_fmap]. unfold index_range.
      rewrite !length_fmap, !length_take, !length_drop, act_sqnr_length. fold n.
      repeat f_equal; lia.
    + subst n. rewrite <- act_sqnr_length. clear E.
      induction (act_sqnr inp) as [|t s IH]; [done|].
      simpl. f_equal. apply IH.
Qed.

(** ** STEP 4A: the position list is the identity *)

Lemma positions_all_true {A} (l : list A) (k : nat) :
  (filter (fun p : nat * bool => p.2 = true)
     (zip (seq k (length l)) (map (fun _ => true) l))).*1 = seq k (length l).
Proof.
  revert k. induction l as [|x l IH]; intros k; [done|].
  cbn [length seq map zip_with]. rewrite filter_cons_True by done.
  cbn [fmap list_fmap fst]. f_equal. apply IH.
Qed.

Section GatherScatter.
Context {St : Type}.

Lemma gather_seq (rest : list Z) :
  forall pre (w : World St),
    gather (pre ++ rest) (seq (length pre) (length rest)) w = (Ok rest, w).
Proof.
  induction rest as [|b rest IH]; intros pre w; [done|].
  simpl. rewrite (bind_Ok _ _ _ _ _ (getitem_Some _ _ _ w (list_lookup_middle pre rest b _ eq_refl))).
  replace (pre ++ b :: rest) with ((pre ++ [b]) ++ rest) by (by rewrite <- (assoc_L (++))).
  replace (S (length pre)) with (length (pre ++ [b])) by (rewrite length_app; simpl; lia).
  by rewrite (bind_Ok _ _ _ _ _ (IH (pre ++ [b]) w)).
Qed.

Lemma scatter_seq (q : list Z) :
  forall pre old (w : World St),
    length old = length q ->
    scatter (pre ++ old) (seq (length pre) (length q)) q w = (Ok (pre ++ q), w).
Proof.
  induction q as [|v q IH]; intros pre old w Hlen.
  - destruct old; [done | done].
  - destruct old as [|o old]; [done|]. injection Hlen as Hlen. simpl.
    unfold setitem. rewrite (list_lookup_middle pre old o _ eq_refl).
    unfold bind at 1, ret at 1.
    replace (<[length pre:=v]> (pre ++ o :: old)) with ((pre ++ [v]) ++ old).
    2:{ rewrite <- (assoc_L (++)). replace (length pre) with (length pre + 0)%nat at 1 by lia.
        by rewrite insert_app_r. }
    replace (S (length pre)) with (length (pre ++ [v])) by (rewrite length_app; simpl; lia).
    rewrite (IH (pre ++ [v]) old w Hlen). by rewrite <- (assoc_L (++)).
Qed.
End GatherScatter.

(** The list [dynamic_routing_quantization] holds one [True] per routing
    layer and nothing else, so the positions read off it are 0, 1, ..., m-1:
    they index the routing widths themselves, not the leaves.  Gathering
    along them copies the vector of routing widths, and scattering along them
    overwrites it with the working vector, position by position. *)
Theorem dr_positions_identity {St : Type} (inp : Inputs) (bits q : list Z) (w : World St) :
  length bits = length (filter routes (leaf_children inp)) ->
  length q = length bits ->
  dr_quantization_pos inp = seq 0 (length (filter routes (leaf_children inp))) /\
  gather bits (dr_quantization_pos inp) w = (Ok bits, w) /\
  scatter bits (dr_quantization_pos inp) q w = (Ok q, w).
Proof.
  intros Hbits Hq.
  assert (Hpos : dr_quantization_pos inp = seq 0 (length (filter routes (leaf_children inp)))).
  { unfold dr_quantization_pos, dynamic_routing_quantization, positions_true.
    rewrite length_map. apply positions_all_true. }
  split; [done|]. rewrite Hpos, <- Hbits. split.
  - apply (gather_seq bits [] w).
  - rewrite <- Hq. by apply (scatter_seq q [] bits w).
Qed.

Lemma dr_positions_identity_witness :
  dr_quantization_pos two_layers = [0%nat] /\
  gather (St := unit) [7%Z] (dr_quantization_pos two_layers) (start tt) = (Ok [7%Z], start tt) /\
  scatter (St := unit) [7%Z] (dr_quantization_pos two_layers) [6%Z] (start tt)
    = (Ok [6%Z], start tt).
Proof.
  apply (dr_positions_identity two_layers [7%Z] [6%Z] (start tt)); reflexivity.
Defined.

(** ** Indices that do not name a leaf *)

(** A ranked weight tensor whose index is not a position of the weight
    widths (the statistics list more weight tensors than the model has
    leaves) makes the lower phase stop with [IndexError] as soon as it
    reaches that entry, before any oracle call for it: either the loop
    condition or the unconditional [+= 1] that follows the loop reads
    [step2_weight_bits] out of range. *)
Theorem lower_phase_index_error {St : Type}
    (quantized_test : Config -> St -> Q * St) (inp : Inputs) (fuel : nat) (a d : list Z)
    (l : Q * nat) (rest : list (Q * nat)) (s : Step2State) (w : World St) :
  (length (step2_weight_bits s) <= l.2)%nat ->
  step2_lower_for quantized_test inp fuel a d (l :: rest) s w = (Raise IndexError, w).
Proof.
  intros Hl. apply lookup_ge_None in Hl. cbn [step2_lower_for].
  assert (Hwhile : step2_lower_while quantized_test inp fuel a d l.2 s w = (Raise IndexError, w)
                   \/ step2_lower_while quantized_test inp fuel a d l.2 s w = (Ok s, w)).
  { destruct fuel; simpl; (destruct (Qltb _ _); [left | by right]);
      by rewrite (bind_Raise _ _ _ _ _ (getitem_None _ _ w Hl)). }
  destruct Hwhile as [Hwhile|Hwhile].
  - by rewrite (bind_Raise _ _ _ _ _ Hwhile).
  - rewrite (bind_Ok _ _ _ _ _ Hwhile). apply bind_Raise. unfold step2_restore.
    by rewrite (bind_Raise _ _ _ _ _ (getitem_None _ _ w Hl)).
Qed.

Lemma lower_phase_index_error_witness :
  step2_lower_for (pure_oracle oracle_branch) two_layers 10 [32; 32]%Z [32]%Z
    [(1%Q, 2%nat)] {| step2_weight_bits := [5; 5]%Z; step2_acc := 95; prev_step2_acc := None |}
    (start tt) = (Raise IndexError, start tt).
Proof.
  apply (lower_phase_index_error (pure_oracle oracle_branch) two_layers 10 [32; 32]%Z [32]%Z
           (1%Q, 2%nat) []). simpl. lia.
Defined.

(** ** STEP 3A without activation statistics *)

(** When the activation statistics hold no SQNR entry there is no group, and
    STEP 3A divides its accuracy budget by zero before it looks at any width:
    every run that gets as far as STEP 3A ends in [ZeroDivisionError], and
    [qcapsnets] never returns a satisfied configuration. *)
Theorem step3a_without_statistics {St : Type}
    (quantized_test : Config -> St -> Q * St) (inp : Inputs) (fuel : nat) :
  act_info_sqnr inp = [] ->
  (forall c acc (w : World St),
     step3a quantized_test inp fuel c acc w = (Raise ZeroDivisionError, w)) /\
  (forall (w : World St) d,
     (qcapsnets quantized_test inp fuel w).1 <> Ok (RetSatisfied d)).
Proof.
  intros Hno.
  assert (H3 : forall c acc (w : World St),
            step3a quantized_test inp fuel c acc w = (Raise ZeroDivisionError, w)).
  { intros c acc w. unfold step3a, act_sqnr_grouped_index, act_sqnr. rewrite Hno. done. }
  split; [done|].
  intros w d Hd. unfold qcapsnets, bind in Hd.
  destruct (step1_search quantized_test inp fuel w) as [[[[bits acc1] s1]| |] w1];
    simpl in Hd; try done.
  destruct (step2 quantized_test inp fuel bits w1) as [[[r|[c acc2]]| |] w2] eqn:E2;
    simpl in Hd; try done.
  - injection Hd as ->. unfold step2 in E2.
    destruct (Qltb _ _); minv; [done|]. unfold step2_finish in E2.
    destruct b; minv; done.
  - by rewrite H3 in Hd.
Qed.

Lemma step3a_without_statistics_witness :
  let inp := {| leaf_children := [leaf 1 true]; weight_sqnr := [1]%Q; act_info_sqnr := [];
                tot_numer_of_weights := 1; top_accuracy := 100; accuracy_tolerance := 10;
                memory_budget := 40 # 8388608 |} in
  qcapsnets (pure_oracle oracle_four) inp 10 (start tt)
    = (Raise ZeroDivisionError,
       (qcapsnets (pure_oracle oracle_four) inp 10 (start tt)).2) /\
  forall d, (qcapsnets (pure_oracle oracle_four) inp 10 (start tt)).1 <> Ok (RetSatisfied d).
Proof.
  intros inp. split; [vm_compute; reflexivity|].
  apply (step3a_without_statistics (pure_oracle oracle_four) inp 10). reflexivity.
Defined.

(** ** [get_leaf_modules] *)

Lemma string_app_assoc (a b c : string) : ((a ++ b) ++ c = a ++ b ++ c)%string.
Proof.
  induction a as [|x a IH]; [done|].
  change (String x ((a ++ b) ++ c) = String x (a ++ b ++ c))%string. by rewrite IH.
Qed.

Lemma string_app_nil_r (a : string) : (a ++ "" = a)%string.
Proof.
  induction a as [|x a IH]; [done|].
  change (String x (a ++ "") = String x a)%string. by rewrite IH.
Qed.

(** Induction on the module tree. *)
Lemma NnModule_tree_ind (P : NnModule -> Prop) :
  (forall l c r ps ch, Forall (fun kv => P kv.2) ch -> P (mkModule l c r ps ch)) ->
  forall value, P value.
Proof.
  intros H. fix IH 1. intros [l c r ps ch]. apply H.
  induction ch as [|[k v] ch IHch]; constructor; [apply IH | apply IHch].
Qed.

(** The function, written as the source has it. *)
Lemma get_leaf_modules_from_eq top_name key value leaves names :
  get_leaf_modules_from top_name key value leaves names =
    if is_leaf value
    then (leaves ++ [value], names ++ [(top_name ++ "." ++ key)%string])
    else get_leaf_modules (top_name ++ "." ++ key) (named_children value) leaves names.
Proof.
  destruct value as [l c r ps ch]. unfold is_leaf. cbn [leaf_attr named_children].
  assert (Hloop : forall leaves names,
    (fix loop (m : list (string * NnModule)) (leaves : list NnModule) (names : list string)
       {struct m} : list NnModule * list string :=
       match m with
       | [] => (leaves, names)
       | (k, v) :: m' =>
           let '(leaves', names') :=
             get_leaf_modules_from (top_name ++ "." ++ key) k v leaves names in
           loop m' leaves' names'
       end) ch leaves names
    = get_leaf_modules (top_name ++ "." ++ key) ch leaves names).
  { clear. induction ch as [|[k v] ch IH]; intros leaves names; [done|].
    cbn [get_leaf_modules].
    destruct (get_leaf_modules_from (top_name ++ "." ++ key) k v leaves names) as [l' n'].
    apply IH. }
  destruct l as [[]|]; [done | apply Hloop | apply Hloop].
Qed.

Lemma get_leaf_modules_cons top_name key value m leaves names :
  get_leaf_modules top_name ((key, value) :: m) leaves names =
    (let '(leaves', names') :=
       if is_leaf value
       then (leaves ++ [value], names ++ [(top_name ++ "." ++ key)%string])
       else get_leaf_modules (top_name ++ "." ++ key) (named_children value) leaves names in
     get_leaf_modules top_name m leaves' names').
Proof. cbn [get_leaf_modules]. by rewrite get_leaf_modules_from_eq. Qed.

Lemma leaf_at_nil path x : ~ leaf_at [] path x.
Proof. inversion 1; subst; by eapply not_elem_of_nil. Qed.

Lemma leaf_at_tail key value m path x : leaf_at m path x -> leaf_at ((key, value) :: m) path x.
Proof.
  intros H. destruct H as [m k v Hin Hl|m k v path x Hin Hl Hx].
  - apply leaf_here; [by apply elem_of_cons; right | done].
  - eapply leaf_below; [by apply elem_of_cons; right | done | done].
Qed.

Lemma collects_list (m : list (string * NnModule)) :
  Forall (fun kv => collects (named_children kv.2)) m -> collects m.
Proof.
  induction 1 as [|[key value] m Hv _ IH]; intros top_name.
  - exists [], []. split; [intros; by rewrite !app_nil_r|]. split; [done|].
    intros x name. split; [by intros ?%elem_of_nil|].
    intros (path & H & _). by apply leaf_at_nil in H.
  - destruct (IH top_name) as (ls' & ns' & Hrun' & Hlen' & Hmem').
    destruct (is_leaf value) eqn:Hleaf.
    + exists (value :: ls'), ((top_name ++ "." ++ key)%string :: ns').
      split; [|split; [simpl; by rewrite Hlen'|]].
      { intros leaves names. rewrite get_leaf_modules_cons, Hleaf, Hrun'.
        by rewrite <- !(assoc_L (++)). }
      intros x name. cbn [zip_with]. rewrite elem_of_cons, Hmem'. split.
      * intros [[= -> ->]|(path & Hp & ->)].
        -- exists [key]. split; [apply leaf_here; [by left | done]|].
           cbn [dotted]. by rewrite string_app_nil_r.
        -- exists path. split; [by apply leaf_at_tail | done].
      * intros (path & Hp & ->). inversion Hp as [m0 k v Hin Hl|m0 k v p0 x0 Hin Hl Hx]; subst.
        -- apply elem_of_cons in Hin as [[= -> ->]|Hin].
           ++ left. cbn [dotted]. by rewrite string_app_nil_r.
           ++ right. exists [k]. split; [by apply leaf_here | done].
        -- apply elem_of_cons in Hin as [[= -> ->]|Hin]; [congruence|].
           right. exists (k :: p0). split; [by eapply leaf_below | done].
    + destruct (Hv (top_name ++ "." ++ key)%string) as (lsv & nsv & Hrunv & Hlenv & Hmemv).
      cbn [snd] in *.
      exists (lsv ++ ls'), (nsv ++ ns').
      split; [|split; [rewrite !length_app; lia|]].
      { intros leaves names. rewrite get_leaf_modules_cons, Hleaf, Hrunv, Hrun'.
        by rewrite <- !(assoc_L (++)). }
      intros x name. rewrite zip_with_app by done. rewrite elem_of_app, Hmemv, Hmem'. split.
      * intros [(path & Hp & ->)|(path & Hp & ->)].
        -- exists (key :: path). split; [eapply leaf_below; [by left | done | done]|].
           cbn [dotted]. by rewrite !string_app_assoc.
        -- exists path. split; [by apply leaf_at_tail | done].
      * intros (path & Hp & ->). inversion Hp as [m0 k v Hin Hl|m0 k v p0 x0 Hin Hl Hx]; subst.
        -- apply elem_of_cons in Hin as [[= -> ->]|Hin]; [congruence|].
           right. exists [k]. split; [by apply leaf_here | done].
        -- apply elem_of_cons in Hin as [[= -> ->]|Hin].
           ++ left. exists p0. split; [done|]. cbn [dotted]. by rewrite !string_app_assoc.
           ++ right. exists (k :: p0). split; [by eapply leaf_below | done].
Qed.

Lemma collects_all (m : list (string * NnModule)) : collects m.
Proof.
  apply collects_list. apply Forall_forall. intros [k v] _. cbn [snd]. revert v.
  apply NnModule_tree_ind. intros l c r ps ch Hch. cbn [named_children].
  by apply collects_list.
Qed.

Lemma leaf_at_is_leaf m path x : leaf_at m path x -> is_leaf x = true.
Proof. induction 1; done. Qed.

Lemma leaf_at_path_nonempty m path x : leaf_at m path x -> path <> [].
Proof. by inversion 1. Qed.

(** Stripping the leading dot of a dotted path leaves the keys joined by
    dots. *)
Lemma py_tail_dotted (path : list string) :
  path <> [] -> py_tail (dotted path) = String.concat "." path.
Proof.
  destruct path as [|key path]; [done|]. intros _. cbn [dotted].
  change (py_tail ("." ++ key ++ dotted path)%string) with (key ++ dotted path)%string.
  revert key. induction path as [|k path IH]; intros key.
  - cbn [dotted String.concat]. apply string_app_nil_r.
  - cbn [dotted]. rewrite IH. done.
Qed.

(** [get_leaf_modules] only appends to the two lists it is given, and what it
    appends does not depend on them: it is what a call with two empty lists
    returns.  Both lists grow by the same number of entries, and the children
    are searched from left to right, each one completely before the next. *)
Theorem get_leaf_modules_accumulates (top_name : string) (m m' : list (string * NnModule))
    (leaves : list NnModule) (names : list string) :
  let fresh := get_leaf_modules top_name m [] [] in
  get_leaf_modules top_name m leaves names = (leaves ++ fresh.1, names ++ fresh.2) /\
  length fresh.1 = length fresh.2 /\
  get_leaf_modules top_name (m ++ m') leaves names =
    get_leaf_modules top_name m' (leaves ++ fresh.1) (names ++ fresh.2).
Proof.
  intros fresh. destruct (collects_all m top_name) as (ls & ns & Hrun & Hlen & _).
  assert (Hfresh : fresh = (ls, ns)) by (subst fresh; by rewrite Hrun).
  rewrite Hfresh. cbn [fst snd]. split; [apply Hrun|]. split; [done|].
  assert (Happ : forall leaves names,
            get_leaf_modules top_name (m ++ m') leaves names =
              (let '(l, n) := get_leaf_modules top_name m leaves names in
               get_leaf_modules top_name m' l n)).
  { clear. induction m as [|[key value] m IH]; intros leaves names; [done|].
    cbn [app get_leaf_modules].
    destruct (get_leaf_modules_from top_name key value leaves names) as [l' n']. apply IH. }
  by rewrite Happ, Hrun.
Qed.

(** Called with an empty prefix, as everywhere in [qcapsnets],
    [get_leaf_modules] collects exactly the modules flagged [leaf == True]
    that are reached from the model through modules that are not flagged,
    each paired with the keys on the way to it, every key with a dot in
    front; what lies inside a flagged module is never looked at.  Without
    its first character, as it is used to form the keys of the scale factors,
    the name is the path joined by dots. *)
Theorem get_leaf_modules_collects (top_name : string) (m : list (string * NnModule))
    (x : NnModule) (name : string) :
  let fresh := get_leaf_modules top_name m [] [] in
  ((x, name) ∈ zip fresh.1 fresh.2 <->
   exists path, leaf_at m path x /\ name = (top_name ++ dotted path)%string) /\
  Forall (fun value => is_leaf value = true) fresh.1 /\
  (top_name = ""%string ->
   Forall2 (fun value name' => exists path, leaf_at m path value /\
                                            py_tail name' = String.concat "." path)
     fresh.1 fresh.2).
Proof.
  intros fresh. destruct (collects_all m top_name) as (ls & ns & Hrun & Hlen & Hmem).
  assert (Hfresh : fresh = (ls, ns)) by (subst fresh; by rewrite Hrun).
  rewrite Hfresh. cbn [fst snd]. split; [apply Hmem|].
  assert (Hall : Forall2 (fun value name' =>
                   exists path, leaf_at m path value /\ name' = (top_name ++ dotted path)%string)
                   ls ns).
  { apply Forall2_same_length_lookup. split; [done|]. intros i v n Hv Hn.
    apply Hmem. apply list_elem_of_lookup. exists i. by rewrite lookup_zip_with, Hv, Hn. }
  split.
  - apply Forall_forall. intros v Hv. apply list_elem_of_lookup in Hv as [i Hv].
    destruct (Forall2_lookup_l _ _ _ _ _ Hall Hv) as (n & _ & path & Hp & _).
    by eapply leaf_at_is_leaf.
  - intros ->. eapply Forall2_impl; [exact Hall|].
    intros v n (path & Hp & ->). exists path. split; [done|].
    change ("" ++ dotted path)%string with (dotted path).
    apply py_tail_dotted. by eapply leaf_at_path_nonempty.
Qed.

Lemma get_leaf_modules_collects_witness :
  (get_leaf_modules "" example_model [] []).2 = [".conv"; ".block.l1"; ".digit"]%string /\
  Forall (fun value => is_leaf value = true) (get_leaf_modules "" example_model [] []).1 /\
  Forall2 (fun value name' => exists path, leaf_at example_model path value /\
                                           py_tail name' = String.concat "." path)
    (get_leaf_modules "" example_model [] []).1 (get_leaf_modules "" example_model [] []).2.
Proof.
  split; [reflexivity|].
  destruct (get_leaf_modules_collects "" example_model
              (mkModule (Some true) true true [("weight"%string, 20%nat)] []) ".digit")
    as (_ & Hall & Hnames).
  split; [exact Hall | apply Hnames; reflexivity].
Defined.

(** ** Termination *)

Section Finishes.
Context {St : Type}.
Variable quantized_test : Config -> St -> Q * St.
Implicit Types w : World St.

Lemma finishes_bind {A B} (m : M St A) (k : A -> M St B) w :
  finishes m w -> (forall a w1, m w = (Ok a, w1) -> finishes (k a) w1) ->
  finishes (bind m k) w.
Proof.
  unfold finishes, bind. intros Hm Hk. destruct (m w) as [[a| |] w1]; [by apply Hk|done|done].
Qed.

Lemma finishes_ret {A} (a : A) w : finishes (ret a) w.
Proof. done. Qed.

Lemma finishes_throw {A} e w : finishes (A := A) (throw e) w.
Proof. done. Qed.

Lemma finishes_getitem {A} (l : list A) i w : finishes (getitem l i) w.
Proof. unfold getitem. by destruct (l !! i). Qed.

Lemma finishes_setitem {A} (l : list A) i v w : finishes (setitem l i v) w.
Proof. unfold setitem. by destruct (l !! i). Qed.

Lemma finishes_read_local {A} var (v : option A) w : finishes (read_local var v) w.
Proof. by destruct v. Qed.

Lemma finishes_truediv a b w : finishes (truediv a b) w.
Proof. unfold truediv. by destruct (Qeq_bool b 0). Qed.

Lemma finishes_evaluate c w : finishes (evaluate quantized_test c) w.
Proof. unfold finishes, evaluate. by destruct (quantized_test c (ost w)). Qed.

Lemma finishes_decrement_group group : forall act curr w, finishes (decrement_group group act curr) w.
Proof.
  induction group as [|i group IH]; intros act curr w; simpl; [done|].
  apply finishes_bind; [apply finishes_getitem | intros; apply IH].
Qed.

Lemma finishes_increment_group group : forall act w, finishes (increment_group group act) w.
Proof.
  induction group as [|i group IH]; intros act w; simpl; [done|].
  apply finishes_bind; [apply finishes_getitem | intros; apply IH].
Qed.

Lemma finishes_gather bits pos : forall w, finishes (gather bits pos) w.
Proof.
  induction pos as [|x pos IH]; intros w; simpl; [done|].
  apply finishes_bind; [apply finishes_getitem | intros].
  apply finishes_bind; [apply IH | intros; apply finishes_ret].
Qed.

Lemma finishes_scatter pos : forall bits q w, finishes (scatter bits pos q) w.
Proof.
  induction pos as [|p pos IH]; intros bits q w; simpl; [done|].
  destruct q as [|v q]; [done|].
  apply finishes_bind; [apply finishes_setitem | intros; apply IH].
Qed.

Lemma finishes_scatter_restore pos :
  forall bits q acc prev w, finishes (scatter_restore bits pos q acc prev) w.
Proof.
  induction pos as [|p pos IH]; intros bits q acc prev w; simpl; [done|].
  destruct q as [|v q]; [done|].
  apply finishes_bind; [apply finishes_setitem | intros].
  apply finishes_bind; [apply finishes_read_local | intros; apply IH].
Qed.
End Finishes.

Lemma evaluate_Ok_inv {St} (quantized_test : Config -> St -> Q * St) c (w : World St) a w' :
  evaluate quantized_test c w = (Ok a, w') -> a = (quantized_test c (ost w)).1.
Proof. unfold evaluate. destruct (quantized_test c (ost w)). by intros [= <- _]. Qed.

Lemma sqnr_tuples_length (inp : Inputs) : length (sqnr_tuples inp) = length (weight_sqnr inp).
Proof.
  destruct (sqnr_tuples_sorted inp) as [_ Hperm]. rewrite Hperm.
  unfold enumerate_sqnr. rewrite length_zip_with, length_seq. lia.
Qed.

Section Stage2Terminates.
Context {St : Type}.
Variable quantized_test : Config -> St -> Q * St.
Variable inp : Inputs.
Variable B : Z.
Hypothesis enough :
  forall c s, Forall (fun b => (B <= b)%Z) (weight_bits c) ->
              (minimum_accuracy inp <= (quantized_test c s).1)%Q.

(** The raise phase stops at [B] bits at the latest. *)
Lemma step2_raise_finishes {A} (l : list A) a d :
  forall fuel b acc (w : World St),
    (Forall (fun x => (B <= x)%Z) (map (fun _ => b) l) -> (minimum_accuracy inp <= acc)%Q) ->
    (Z.to_nat (B - b) <= fuel)%nat ->
    exists (n : nat) acc' w',
      step2_raise quantized_test inp fuel a d (map (fun _ => b) l) acc w =
        (Ok (map (fun _ => (b + Z.of_nat n)%Z) l, acc'), w') /\
      (b + Z.of_nat n <= Z.max b B)%Z.
Proof using enough.
  induction fuel as [|fuel IH]; intros b acc w Hacc Hfuel; simpl;
    destruct (Qltb acc (minimum_accuracy inp)) eqn:E.
  - exfalso. apply Qltb_lt in E. apply (Qlt_not_le _ _ E), Hacc.
    apply Forall_uniform. lia.
  - exists 0%nat, acc, w. split; [|lia]. unfold ret.
    by rewrite (map_ext (fun _ => (b + Z.of_nat 0)%Z) (fun _ => b)) by (intros; lia).
  - apply Qltb_lt in E.
    assert (Hb : (b < B)%Z).
    { destruct (decide (b < B)%Z) as [?|Hge]; [done|]. exfalso.
      apply (Qlt_not_le _ _ E), Hacc. apply Forall_uniform. lia. }
    rewrite map_map. set (c1 := mk_config _ a d). unfold bind at 1, evaluate at 1.
    pose proof (enough c1 (ost w)) as Hc1.
    destruct (quantized_test c1 (ost w)) as [a1 st']. cbn [fst] in Hc1.
    destruct (IH (b + 1)%Z a1 (Build_World St st' (log w ++ [(c1, a1)])) Hc1 ltac:(lia))
      as (n & acc' & w' & Hrun & Hn).
    exists (S n), acc', w'. split; [|lia]. rewrite Hrun.
    by rewrite (map_ext (fun _ => (b + 1 + Z.of_nat n)%Z) (fun _ => (b + Z.of_nat (S n))%Z))
      by (intros; lia).
  - exists 0%nat, acc, w. split; [|lia]. unfold ret.
    by rewrite (map_ext (fun _ => (b + Z.of_nat 0)%Z) (fun _ => b)) by (intros; lia).
Qed.

Lemma step2_lower_while_finishes a d i :
  forall fuel (s : Step2State) (w : World St),
    (forall b, step2_weight_bits s !! i = Some b -> (Z.to_nat (b - 1) <= fuel)%nat) ->
    finishes (step2_lower_while quantized_test inp fuel a d i s) w.
Proof.
  induction fuel as [|fuel IH]; intros s w Hb; simpl;
    (destruct (Qltb _ _); [|done]);
    (apply finishes_bind; [apply finishes_getitem|]); intros b w1 Hget;
    apply getitem_Ok_inv in Hget as [Hget <-]; specialize (Hb b Hget);
    destruct (1 <? b)%Z eqn:E; try done.
  - apply Z.ltb_lt in E. lia.
  - apply Z.ltb_lt in E.
    apply finishes_bind; [apply finishes_evaluate|]. intros acc' w2 _.
    apply IH. cbn [step2_weight_bits]. intros b'.
    rewrite list_lookup_insert_eq by (by eapply lookup_lt_Some). intros [= <-]. lia.
Qed.

Lemma step2_lower_while_le a d i (m : Z) :
  forall fuel (s : Step2State) (w : World St) s1 w1,
    step2_lower_while quantized_test inp fuel a d i s w = (Ok s1, w1) ->
    Forall (fun b => (b <= m)%Z) (step2_weight_bits s) ->
    Forall (fun b => (b <= m)%Z) (step2_weight_bits s1).
Proof.
  induction fuel as [|fuel IH]; intros s w s1 w1; simpl;
    (destruct (Qltb (minimum_accuracy inp) (step2_acc s)) eqn:Eacc;
     [|intros H; minv; by simplify_eq]);
    intros H; minv;
    (destruct (1 <? _)%Z eqn:Eb; [|minv; by simplify_eq]); minv.
  intros Hall. eapply IH; [exact H|]. cbn [step2_weight_bits].
  apply Forall_insert; [done|].
  match goal with Hl : step2_weight_bits s !! i = Some _ |- _ =>
    pose proof (Forall_lookup_1 _ _ _ _ Hall Hl) end. simpl in *. lia.
Qed.

Lemma step2_lower_for_finishes fuel a d :
  forall tuples (s : Step2State) (w : World St) (m : Z),
    Forall (fun b => (b <= m)%Z) (step2_weight_bits s) ->
    (Z.to_nat (m + Z.of_nat (length tuples)) <= fuel)%nat ->
    finishes (step2_lower_for quantized_test inp fuel a d tuples s) w.
Proof.
  induction tuples as [|l rest IH]; intros s w m Hall Hfuel; simpl; [done|].
  apply finishes_bind.
  { apply step2_lower_while_finishes. intros b Hb.
    pose proof (Forall_lookup_1 _ _ _ _ Hall Hb). simpl in *. lia. }
  intros s1 w1 Hwhile. apply (step2_lower_while_le _ _ _ m) in Hwhile; [|done].
  apply finishes_bind.
  { unfold step2_restore. apply finishes_bind; [apply finishes_getitem|]. intros.
    apply finishes_bind; [apply finishes_read_local | done]. }
  intros [fits s2] w2 Hres.
  apply step2_restore_inv in Hres as (-> & b0 & p & Hb0 & Hp & -> & _).
  destruct fits; [done|]. apply (IH _ _ (m + 1)%Z).
  - cbn [step2_weight_bits]. apply Forall_insert.
    + eapply Forall_impl; [exact Hwhile|]. simpl. intros; lia.
    + pose proof (Forall_lookup_1 _ _ _ _ Hwhile Hb0). simpl in *. lia.
  - simpl in Hfuel. lia.
Qed.

Lemma step2_finishes fuel bits (w : World St) :
  (Z.to_nat B + length (weight_sqnr inp) <= fuel)%nat ->
  finishes (step2 quantized_test inp fuel bits) w.
Proof using enough.
  intros Hfuel. unfold step2. destruct (Qltb _ _) eqn:Efeas; [done|].
  apply Qltb_ge in Efeas.
  apply finishes_bind.
  { unfold uniform_memory_bits. destruct (_ =? _)%Z; [by destruct (Qeq_bool _ _) | done]. }
  intros b2 w1 Hb2. apply uniform_memory_bits_Ok_inv in Hb2 as (Hne & -> & ->).
  pose proof (minimum_mem_required_nonneg inp) as Hnn.
  assert (Hpos : (0 < minimum_mem_required inp)%Z) by lia.
  pose proof (uniform_bits_ge_1 _ _ Hpos Efeas) as Hb2.
  set (b2 := Qfloor _) in *.
  apply finishes_bind; [apply finishes_evaluate|]. intros acc0 w2 Heval.
  apply evaluate_Ok_inv in Heval.
  assert (Hacc0 : Forall (fun x => (B <= x)%Z) (map (fun _ => b2) (step1_weight_bits inp bits))
                  -> (minimum_accuracy inp <= acc0)%Q).
  { intros Hall. rewrite Heval. by apply enough. }
  apply finishes_bind.
  - destruct (Qle_bool (minimum_accuracy inp) acc0) eqn:Eacc; [done|].
    apply Qle_bool_false in Eacc.
    assert (Hlt : (b2 < B)%Z).
    { destruct (decide (b2 < B)%Z) as [?|Hge]; [done|]. exfalso.
      apply (Qlt_not_le _ _ Eacc), Hacc0. apply Forall_uniform. lia. }
    assert (Hraise : (Z.to_nat (B - b2) <= fuel)%nat) by lia.
    destruct (step2_raise_finishes (step1_weight_bits inp bits)
                (step1_act_bits inp bits) (step1_dr_bits inp bits) fuel b2 acc0 w2 Hacc0
                Hraise) as (n & acc' & w' & Hrun & Hn).
    unfold finishes. rewrite (bind_Ok _ _ _ _ _ Hrun).
    apply (step2_lower_for_finishes _ _ _ _ _ _ B).
    + cbn [step2_weight_bits]. apply Forall_uniform. lia.
    + rewrite sqnr_tuples_length. lia.
  - intros [branchB s] w3 _. unfold step2_finish, wmem_reduction. destruct branchB; [|done].
    apply finishes_bind; [apply finishes_truediv|]. intros.
    apply finishes_bind; [apply finishes_evaluate|]. intros.
    apply finishes_bind; [apply finishes_truediv | done].
Qed.
End Stage2Terminates.

Section Stage3aTerminates.
Context {St : Type}.
Variable quantized_test : Config -> St -> Q * St.
Variables (w d : list Z) (c0 : Z).

(** The loop of one group ends after at most [c0 - 1] turns: every turn but
    the last takes one bit off the group. *)
Lemma step3a_while_finishes (group : list nat) (floor : Q) (act0 : list Z) :
  NoDup group -> group <> [] ->
  (forall i, i ∈ group -> (i < length act0)%nat -> act0 !! i = Some c0) ->
  forall fuel (n : nat) (s : Step3aState) (ws : World St),
    step3a_act_bits s = shift_group (- Z.of_nat n) group act0 ->
    curr_bits s = (c0 - Z.of_nat n)%Z ->
    (1 <= fuel)%nat -> (Z.to_nat (c0 - Z.of_nat n - 1) <= fuel)%nat ->
    finishes (step3a_while quantized_test fuel w d group floor s) ws.
Proof.
  intros Hnd Hne Hfresh.
  induction fuel as [|fuel IH]; intros n s ws Hact Hcurr Hf1 Hfuel; [lia|].
  simpl. destruct (Qle_bool floor (step3a_acc s)).
  - destruct (curr_bits s <? 3)%Z eqn:Ec; [done|]. apply Z.ltb_ge in Ec.
    apply finishes_bind; [apply finishes_decrement_group|].
    intros [act' curr'] w1 Hdec.
    pose proof (decrement_group_in_range _ _ _ _ _ _ _ Hdec) as Hrange.
    assert (Huni : forall i, i ∈ group -> step3a_act_bits s !! i = Some (c0 - Z.of_nat n)%Z).
    { intros i Hi. specialize (Hrange i Hi). rewrite Hact, shift_group_length in Hrange.
      rewrite Hact, shift_group_lookup, (Hfresh i Hi Hrange). simpl.
      by rewrite bool_decide_eq_true_2. }
    rewrite (decrement_group_spec group _ _ (c0 - Z.of_nat n)%Z ws Hnd Huni) in Hdec.
    injection Hdec as <- <- <-.
    apply finishes_bind; [apply finishes_evaluate|]. intros acc' w2 _.
    apply (IH (S n)).
    + cbn [step3a_act_bits]. rewrite Hact, shift_group_shift. f_equal. lia.
    + cbn [curr_bits]. destruct group; [done | lia].
    + lia.
    + lia.
  - apply finishes_bind; [apply finishes_increment_group|]. intros.
    apply finishes_bind; [apply finishes_read_local | done].
Qed.

Lemma step3a_for_finishes fuel per_step :
  (0 <= per_step)%Q -> (1 <= fuel)%nat -> (Z.to_nat (c0 - 1) <= fuel)%nat ->
  forall groups floor (s : Step3aState) (ws : World St),
    NoDup (concat groups) -> Forall (fun g => g <> []) groups ->
    (forall i, i ∈ concat groups -> (i < length (step3a_act_bits s))%nat ->
               step3a_act_bits s !! i = Some c0) ->
    Forall (in_bounds c0) (step3a_act_bits s) ->
    (floor <= step3a_acc s)%Q ->
    finishes (step3a_for quantized_test fuel w d per_step c0 groups floor s) ws.
Proof.
  intros Hper Hf1 Hfuel. induction groups as [|g groups IH];
    intros floor s ws Hnd Hne Hfresh Hall Hacc; simpl; [done|].
  cbn [concat] in Hnd. apply NoDup_app in Hnd as (Hndg & Hdisj & Hndrest).
  apply Forall_cons in Hne as [Hneg Hnerest].
  assert (Hfresh_g : forall i, i ∈ g -> (i < length (step3a_act_bits s))%nat ->
                               step3a_act_bits s !! i = Some c0).
  { intros i Hi Hlt. apply Hfresh; [|done]. cbn [concat]. apply elem_of_app. by left. }
  assert (Hfloor' : (floor - per_step <= step3a_acc s)%Q) by lra.
  apply finishes_bind.
  { apply (step3a_while_finishes g _ (step3a_act_bits s) Hndg Hneg Hfresh_g _ 0%nat).
    - cbn [step3a_act_bits]. by rewrite shift_group_0.
    - cbn [curr_bits]. lia.
    - done.
    - replace (c0 - Z.of_nat 0 - 1)%Z with (c0 - 1)%Z by lia. done. }
  intros s1 w1 Hwhile.
  apply (step3a_while_inv quantized_test w d c0 g (floor - per_step)%Q (step3a_act_bits s)
           Hndg Hneg Hfresh_g) with (n := 0%nat) in Hwhile as (m & Hact1 & Hacc1 & Hm).
  2:{ cbn [step3a_act_bits]. by rewrite shift_group_0. }
  2:{ cbn [curr_bits]. lia. }
  2:{ done. }
  2:{ lia. }
  2:{ lia. }
  apply IH; [done | done | | | done].
  - intros i Hi Hlt. rewrite Hact1, shift_group_length in Hlt.
    rewrite Hact1, shift_group_lookup.
    rewrite Hfresh; [|cbn [concat]; apply elem_of_app; by right|done].
    simpl. rewrite bool_decide_eq_false_2; [done|].
    intros Hg. by apply (Hdisj i Hg).
  - rewrite Hact1. by apply shift_group_in_bounds.
Qed.
End Stage3aTerminates.

Section Stage4aTerminates.
Context {St : Type}.
Variable quantized_test : Config -> St -> Q * St.
Variable inp : Inputs.
Variables (w a : list Z) (c0 : Z).

Lemma step4a_while_finishes l floor :
  forall fuel (s : Step4aState) (ws : World St),
    (1 <= fuel)%nat ->
    (forall b, dr_quantization_bits s !! l = Some b -> (Z.to_nat (b - 1) <= fuel)%nat) ->
    finishes (step4a_while quantized_test inp fuel w a l floor s) ws.
Proof.
  induction fuel as [|fuel IH]; intros s ws Hf1 Hb; [lia|].
  simpl. destruct (Qle_bool floor (step4a_acc s)).
  - apply finishes_bind; [apply finishes_getitem|]. intros b w1 Hget.
    apply getitem_Ok_inv in Hget as [Hget <-]. specialize (Hb b Hget).
    destruct (b <? 3)%Z eqn:E; [done|]. apply Z.ltb_ge in E.
    apply finishes_bind; [apply finishes_scatter|]. intros d' w2 _.
    apply finishes_bind; [apply finishes_evaluate|]. intros acc' w3 _.
    apply IH; [lia|]. cbn [dr_quantization_bits]. intros b'.
    rewrite list_lookup_insert_eq by (by eapply lookup_lt_Some). intros [= <-]. lia.
  - apply finishes_bind; [apply finishes_getitem|]. intros b w1 _.
    apply finishes_bind; [apply finishes_scatter_restore|]. by intros [d' acc'] w2 _.
Qed.

Lemma step4a_for_finishes fuel per_step :
  (0 <= per_step)%Q -> (1 <= fuel)%nat -> (Z.to_nat (c0 - 1) <= fuel)%nat ->
  forall ls floor (s : Step4aState) (ws : World St),
    Forall (in_bounds c0) (dr_quantization_bits s) -> Forall (in_bounds c0) (step4a_dr_bits s) ->
    length (dr_quantization_bits s) = length (dr_quantization_pos inp) ->
    (floor <= step4a_acc s)%Q ->
    finishes (step4a_for quantized_test inp fuel w a per_step ls floor s) ws.
Proof.
  intros Hper Hf1 Hfuel. induction ls as [|l ls IH]; intros floor s ws Hq Hd Hlen Hacc;
    simpl; [done|].
  assert (Hfloor' : (floor - per_step <= step4a_acc s)%Q) by lra.
  apply finishes_bind.
  { apply step4a_while_finishes; [done|]. intros b Hb.
    pose proof (Forall_lookup_1 _ _ _ _ Hq Hb) as Hbb. unfold in_bounds in Hbb. lia. }
  intros s1 w1 Hwhile.
  apply (step4a_while_inv _ _ _ _ c0) in Hwhile as (Hq1 & Hd1 & Hlen1 & Hacc1);
    [|done|done|done|].
  - by apply IH.
  - intros Hlt. exfalso. by apply (Qlt_not_le _ _ Hlt).
Qed.
End Stage4aTerminates.

Section PipelineTerminates.
Context {St : Type}.
Variable quantized_test : Config -> St -> Q * St.
Variable inp : Inputs.

Lemma step3a_finishes fuel c acc2 bits (ws : World St) :
  Forall (fun b => b = bits) (act_bits c) ->
  (minimum_accuracy inp <= acc2)%Q ->
  (1 <= fuel)%nat -> (Z.to_nat (bits - 1) <= fuel)%nat ->
  finishes (step3a quantized_test inp fuel c acc2) ws.
Proof.
  intros Huni Hacc2 Hf1 Hfuel. unfold step3a.
  apply finishes_bind; [apply finishes_truediv|]. intros per w1 Hdiv.
  apply truediv_Ok_inv in Hdiv as (Hnz & -> & ->).
  apply finishes_bind; [apply finishes_getitem|]. intros start w2 Hstart.
  apply getitem_Ok_inv in Hstart as (Hstart & ->).
  assert (start = bits) as -> by (by eapply Forall_lookup_1 in Huni).
  set (groups := act_sqnr_grouped_index inp) in *.
  assert (Hn : (0 < length groups)%nat).
  { destruct groups; [|simpl; lia]. exfalso. by apply Hnz. }
  assert (Hshare : (step3a_accuracy_budget inp acc2
                    == (acc2 - minimum_accuracy inp) * (55 # 100))%Q)
    by (unfold step3a_accuracy_budget; field).
  assert (Hbudget : (0 <= step3a_accuracy_budget inp acc2)%Q) by (rewrite Hshare; lra).
  apply finishes_bind; [|done].
  apply step3a_for_finishes; try done.
  - by apply share_nonneg.
  - apply act_groups_NoDup.
  - apply group_indices_nonempty.
  - intros i _ Hlt. cbn [step3a_act_bits] in *.
    destruct (act_bits c !! i) as [b|] eqn:Hb; [|by apply lookup_ge_None in Hb; lia].
    by eapply Forall_lookup_1 in Huni as ->.
  - cbn [step3a_act_bits]. eapply Forall_impl; [exact Huni|]. intros b ->.
    unfold in_bounds. lia.
  - cbn [step3a_acc]. apply Qle_refl.
Qed.

Lemma step4a_finishes fuel c acc3 bits (ws : World St) :
  (minimum_accuracy inp <= acc3)%Q ->
  Forall (in_bounds bits) (dr_bits c) ->
  (1 <= fuel)%nat -> (Z.to_nat (bits - 1) <= fuel)%nat ->
  finishes (step4a quantized_test inp fuel c acc3) ws.
Proof.
  intros Hacc Hd Hf1 Hfuel. unfold step4a.
  apply finishes_bind; [apply finishes_gather|]. intros q w1 Hg.
  apply (gather_inv (in_bounds bits)) in Hg as [Hq Hlen]; [|done].
  apply finishes_bind; [apply finishes_truediv|]. intros per w2 Hdiv.
  apply truediv_Ok_inv in Hdiv as (Hnz & -> & ->).
  assert (Hn : (0 < length q)%nat).
  { destruct q; [|simpl; lia]. exfalso. by apply Hnz. }
  apply finishes_bind.
  - apply (step4a_for_finishes quantized_test inp _ _ bits); try done.
    + apply share_nonneg; [lra | done].
    + apply Qle_refl.
  - intros s' w3 _. unfold wmem_reduction.
    apply finishes_bind; [apply finishes_truediv | done].
Qed.
End PipelineTerminates.

(** The raise phase of STEP 2 is the only loop of [qcapsnets] that can run
    for ever.  If there is a width [B] such that every configuration with at
    least [B] bits on every weight reaches [minimum_accuracy], the function
    comes to an end, by returning or by raising: STEP 1 takes five turns of
    its loop, the raise phase stops at [B] bits at the latest, each loop of
    the lower phase takes bits off one layer until one bit is left, and each
    loop of STEP 3A and STEP 4A takes bits off widths of at most 32 bits
    until two are left. *)
Theorem qcapsnets_terminates {St : Type}
    (quantized_test : Config -> St -> Q * St) (inp : Inputs) (B : Z) (fuel : nat)
    (w : World St) :
  (forall c s, Forall (fun b => (B <= b)%Z) (weight_bits c) ->
               (minimum_accuracy inp <= (quantized_test c s).1)%Q) ->
  (32 <= fuel)%nat ->
  (Z.to_nat B + length (weight_sqnr inp) <= fuel)%nat ->
  (qcapsnets quantized_test inp fuel w).1 <> OutOfFuel.
Proof.
  intros Henough Hf32 Hfuel. change (finishes (qcapsnets quantized_test inp fuel) w).
  unfold qcapsnets.
  destruct (step1_search_correct quantized_test inp fuel w ltac:(lia))
    as (bits & acc1 & s1 & w1 & Hrun & Hrange & _).
  unfold finishes. rewrite (bind_Ok _ _ _ _ _ Hrun).
  apply finishes_bind; [by apply (step2_finishes quantized_test inp B)|].
  intros r w2 H2. apply step2_inv in H2; [|lia].
  destruct r as [ret|[c acc2]]; [done|]. destruct H2 as (Hw & Ha & Hd & Hacc2).
  apply finishes_bind.
  - apply (step3a_finishes _ _ _ _ _ bits); [|done|lia|lia].
    rewrite Ha. by apply Forall_uniform.
  - intros [c3 acc3] w3 H3.
    apply (step3a_inv _ _ _ _ _ bits) in H3 as (Hw3 & Hd3 & Ha3 & Hacc3); [| |done].
    2:{ rewrite Ha. by apply Forall_uniform. }
    apply (step4a_finishes _ _ _ _ _ bits); [done| |lia|lia].
    rewrite Hd3, Hd. apply Forall_uniform. unfold in_bounds. lia.
Qed.

Lemma oracle_four_enough (c : Config) (s : unit) :
  Forall (fun b => (4 <= b)%Z) (weight_bits c) ->
  (minimum_accuracy one_layer <= (pure_oracle oracle_four c s).1)%Q.
Proof.
  intros Hall. unfold pure_oracle, oracle_four. cbn [fst].
  replace (forallb (fun b => (4 <=? b)%Z) (weight_bits c)) with true; [done|].
  symmetry. induction Hall as [|b l Hb _ IH]; [done|].
  cbn [forallb]. rewrite IH. by apply Z.leb_le in Hb as ->.
Qed.

Lemma qcapsnets_terminates_witness :
  (qcapsnets (pure_oracle oracle_four) one_layer 32 (start tt)).1 <> OutOfFuel.
Proof.
  apply (qcapsnets_terminates (pure_oracle oracle_four) one_layer 4 32 (start tt)).
  - apply oracle_four_enough.
  - lia.
  - simpl. lia.
Defined.

(** ** The ranking index counts weight tensors *)

Lemma collect_sqnr_tuples_spec (items : list (string * WeightStats)) :
  forall i,
    collect_sqnr_tuples items i =
      zip_with (fun kv j => (kv.1, stat_sqnr kv.2, j))
        (filter (fun kv => is_weight_key kv.1 = true) items)
        (seq i (length (filter (fun kv => is_weight_key kv.1 = true) items))).
Proof.
  induction items as [|[key value] items IH]; intros i; [done|].
  cbn [collect_sqnr_tuples]. destruct (is_weight_key key) eqn:E.
  - rewrite filter_cons_True by done. cbn [length seq zip_with fst snd]. by rewrite IH.
  - rewrite filter_cons_False by (simpl; congruence). apply IH.
Qed.

(** The position stored with a ranked weight tensor is its rank among the
    entries of the statistics whose key contains "weight" and not
    "batchnorm": the entries that are skipped (biases, batch-norm tensors)
    do not use up a position.  So the SQNR values that are ranked are those
    of the entries kept, numbered 0, 1, 2, ... in the order of the file. *)
Theorem sqnr_index_counts_weight_entries (items : list (string * WeightStats)) :
  let kept := filter (fun kv => is_weight_key kv.1 = true) items in
  (fun t : string * Q * nat => (t.1.2, t.2)) <$> collect_sqnr_tuples items 0
    = enumerate_sqnr ((fun kv => stat_sqnr kv.2) <$> kept) /\
  (fun t : string * Q * nat => t.1.1) <$> collect_sqnr_tuples items 0 = kept.*1 /\
  (fun t : string * Q * nat => t.2) <$> collect_sqnr_tuples items 0 = seq 0 (length kept).
Proof.
  intros kept. rewrite collect_sqnr_tuples_spec. fold kept. unfold enumerate_sqnr.
  rewrite length_fmap. generalize 0%nat as i.
  induction kept as [|kv kept IH]; intros i; [done|].
  cbn [length seq zip_with fmap list_fmap fst snd].
  destruct (IH (S i)) as (IH1 & IH2 & IH3). split; [|split].
  - f_equal. apply IH1.
  - f_equal. apply IH2.
  - f_equal. apply IH3.
Qed.

(** ** The scale factors and the quantization of the weights *)

Lemma torch_min_le_l (a b : Q) : (torch_min a b <= a)%Q.
Proof.
  unfold torch_min. destruct (Qle_bool a b) eqn:E; [apply Qle_refl|].
  apply Qle_bool_false in E. by apply Qlt_le_weak.
Qed.

Lemma scale_factors_foldl (original : list (string * WeightStats)) (m : Q) (key : string) :
  forall d : gmap string Q,
    let f := fun (d : gmap string Q) (kv : string * WeightStats) =>
               <[kv.1 := torch_min (stat_range kv.2) (stat_std kv.2 * m)]> d in
    (foldl f d original !! key = None <-> d !! key = None /\ key ∉ original.*1) /\
    (forall s, foldl f d original !! key = Some s ->
       d !! key = Some s \/
       exists value, (key, value) ∈ original /\
                     s = torch_min (stat_range value) (stat_std value * m)).
Proof.
  induction original as [|[k v] original IH]; intros d f.
  - cbn [foldl fmap list_fmap]. split; [|by left].
    split; [intros H; split; [done | apply not_elem_of_nil] | by intros [H _]].
  - cbn [foldl fmap list_fmap fst]. destruct (IH (f d (k, v))) as [IHn IHs]. fold f in IHn, IHs.
    split.
    + rewrite IHn. unfold f at 1. cbn [fst snd]. rewrite not_elem_of_cons.
      destruct (decide (k = key)) as [->|Hne].
      * rewrite lookup_insert_eq. split; [by intros [? _] | by intros (_ & ? & _)].
      * rewrite lookup_insert_ne by done. split; [by intros [? ?] | by intros (? & _ & ?)].
    + intros s Hs. apply IHs in Hs as [Hs|(value & Hin & ->)].
      * unfold f in Hs. cbn [fst snd] in Hs. destruct (decide (k = key)) as [->|Hne].
        -- rewrite lookup_insert_eq in Hs. injection Hs as <-.
           right. exists v. split; [by left | done].
        -- rewrite lookup_insert_ne in Hs by done. by left.
      * right. exists value. split; [by right | done].
Qed.

Lemma concat_two (a b : string) : String.concat "." [a; b] = (a ++ "." ++ b)%string.
Proof. done. Qed.

Lemma elem_of_concat {A} (x : A) (ls : list (list A)) :
  x ∈ concat ls <-> exists l, x ∈ l /\ l ∈ ls.
Proof.
  induction ls as [|l ls IH]; cbn [concat].
  - split; [by intros ?%elem_of_nil | by intros (l & _ & ?%elem_of_nil)].
  - rewrite elem_of_app, IH. split.
    + intros [Hx|(l' & Hx & Hl')]; [exists l; split; [done | by left]|].
      exists l'. split; [done | by right].
    + intros (l' & Hx & Hl'). apply elem_of_cons in Hl' as [->|Hl']; [by left|].
      right. by exists l'.
Qed.

(** The leaves and their names, as every quantization loop pairs them:
    without its first character a name is the path to the leaf, joined by
    dots. *)
Lemma get_leaf_modules_paths (m : list (string * NnModule)) :
  Forall2 (fun value name' => exists path, leaf_at m path value /\
                                           py_tail name' = String.concat "." path)
    (get_leaf_modules "" m [] []).1 (get_leaf_modules "" m [] []).2.
Proof.
  destruct (collects_all m "") as (ls & ns & Hrun & Hlen & Hmem).
  rewrite Hrun. cbn [fst snd app].
  apply Forall2_same_length_lookup. split; [done|]. intros i v n Hv Hn.
  assert (Hin : (v, n) ∈ zip ls ns).
  { apply list_elem_of_lookup. exists i. by rewrite lookup_zip_with, Hv, Hn. }
  apply Hmem in Hin as (path & Hp & ->). exists path. split; [done|].
  change ("" ++ dotted path)%string with (dotted path).
  apply py_tail_dotted. by eapply leaf_at_path_nonempty.
Qed.

Section Quantize.
Variable wsf : gmap string Q.
Variable widths : nat -> option Z.

Lemma quantize_parameters_inr name width ps :
  forall calls,
    quantize_parameters wsf name width ps = inr calls ->
    Forall2 (call_for wsf name width) (filter (fun p => contains "batchnorm" p.1 = false) ps) calls.
Proof.
  induction ps as [|p ps IH]; intros calls; cbn [quantize_parameters].
  - intros [= <-]. constructor.
  - destruct (contains "batchnorm" p.1) eqn:E; cbn [negb].
    + rewrite filter_cons_False by (simpl; congruence). apply IH.
    + rewrite filter_cons_True by done.
      destruct (wsf !! scale_key name p) as [scale|] eqn:Hk; [|done].
      destruct width as [bits|]; [|done].
      destruct (quantize_parameters wsf name (Some bits) ps) as [e|calls']; [done|].
      intros [= <-]. constructor; [done | by apply IH].
Qed.

Lemma quantize_parameters_inl name width ps e :
  quantize_parameters wsf name width ps = inl e ->
  match e with
  | KeyError key =>
      wsf !! key = None /\
      exists p, p ∈ filter (fun p => contains "batchnorm" p.1 = false) ps /\ key = scale_key name p
  | WidthIndexError => width = None
  end.
Proof.
  induction ps as [|p ps IH]; cbn [quantize_parameters]; [done|].
  destruct (contains "batchnorm" p.1) eqn:E; cbn [negb].
  - rewrite filter_cons_False by (simpl; congruence). apply IH.
  - rewrite filter_cons_True by done.
    destruct (wsf !! scale_key name p) as [scale|] eqn:Hk.
    + destruct width as [bits|]; [|by intros [= <-]].
      destruct (quantize_parameters wsf name (Some bits) ps) as [e'|calls'] eqn:Hrest; [|done].
      intros [= ->]. specialize (IH eq_refl). destruct e as [key|]; [|done].
      destruct IH as (Hnone & q & Hq & ->). split; [done|]. exists q. split; [by right | done].
    + intros [= <-]. split; [done|]. exists p. split; [by left | done].
Qed.

Lemma quantize_leaves_inr :
  forall named i calls,
    quantize_leaves wsf widths i named = inr calls ->
    exists per_leaf,
      calls = concat per_leaf /\ length per_leaf = length named /\
      forall j name leaf cs,
        named !! j = Some (name, leaf) -> per_leaf !! j = Some cs ->
        Forall2 (call_for wsf name (widths (i + j)%nat)) (quantized_parameters leaf) cs.
Proof.
  induction named as [|[name leaf] named IH]; intros i calls; cbn [quantize_leaves].
  - intros [= <-]. exists []. split; [done|]. split; [done|]. by intros j ? ? ? ?.
  - destruct (quantize_parameters wsf name (widths i) (named_parameters leaf)) as [e|cs0] eqn:H0;
      [done|].
    destruct (quantize_leaves wsf widths (S i) named) as [e|calls'] eqn:Hrest; [done|].
    intros [= <-]. destruct (IH (S i) calls' Hrest) as (per & -> & Hlen & Hper).
    exists (cs0 :: per). split; [done|]. split; [simpl; by rewrite Hlen|].
    intros [|j] name' leaf' cs Hn Hc; cbn [lookup list_lookup] in Hn, Hc.
    + injection Hn as <- <-. injection Hc as <-. rewrite Nat.add_0_r.
      by apply quantize_parameters_inr.
    + replace (i + S j)%nat with (S i + j)%nat by lia. by eapply Hper.
Qed.

Lemma quantize_leaves_inl :
  forall named i e,
    quantize_leaves wsf widths i named = inl e ->
    exists j name leaf,
      named !! j = Some (name, leaf) /\
      match e with
      | KeyError key =>
          wsf !! key = None /\ exists p, p ∈ quantized_parameters leaf /\ key = scale_key name p
      | WidthIndexError => widths (i + j)%nat = None
      end.
Proof.
  induction named as [|[name leaf] named IH]; intros i e; cbn [quantize_leaves]; [done|].
  destruct (quantize_parameters wsf name (widths i) (named_parameters leaf)) as [e0|cs0] eqn:H0.
  - intros [= <-]. exists 0%nat, name, leaf. split; [done|]. rewrite Nat.add_0_r.
    by apply quantize_parameters_inl in H0.
  - destruct (quantize_leaves wsf widths (S i) named) as [e1|calls'] eqn:Hrest; [|done].
    intros [= <-]. destruct (IH (S i) e1 Hrest) as (j & name' & leaf' & Hj & He).
    exists (S j), name', leaf'. split; [done|].
    by replace (i + S j)%nat with (S i + j)%nat by lia.
Qed.
End Quantize.

(** Before an evaluation the weights are quantized leaf by leaf, in the order
    [get_leaf_modules] collects the leaves, and within a leaf parameter by
    parameter.  Every parameter whose name does not contain "batchnorm" is
    quantized exactly once, and no other: with the scale factor stored under
    the path of its leaf and its own name joined by dots, and with the width
    at the position of its leaf. *)
Theorem quantize_weights_aligned (wsf : gmap string Q) (model : list (string * NnModule))
    (widths : nat -> option Z) (calls : list QuantizeCall) :
  quantize_weights wsf model widths = inr calls ->
  exists per_leaf,
    calls = concat per_leaf /\
    length per_leaf = length (get_leaf_modules "" model [] []).1 /\
    forall i leaf cs,
      (get_leaf_modules "" model [] []).1 !! i = Some leaf -> per_leaf !! i = Some cs ->
      exists path,
        leaf_at model path leaf /\
        Forall2 (fun p call =>
                   call_key call = (String.concat "." path ++ "." ++ p.1)%string /\
                   wsf !! call_key call = Some (call_scale call) /\
                   widths i = Some (call_bits call))
          (quantized_parameters leaf) cs.
Proof.
  unfold quantize_weights. intros H.
  pose proof (get_leaf_modules_paths model) as Hnames.
  destruct (get_leaf_modules "" model [] []) as [leaves names]. cbn [fst snd] in *.
  apply quantize_leaves_inr in H as (per & -> & Hlen & Hper).
  pose proof (Forall2_length _ _ _ Hnames) as Hln.
  exists per. split; [done|]. split.
  { rewrite Hlen, length_zip_with. lia. }
  intros i leaf cs Hleaf Hcs.
  destruct (Forall2_lookup_l _ _ _ _ _ Hnames Hleaf) as (name & Hname & path & Hpath & Htail).
  exists path. split; [done|].
  specialize (Hper i name leaf cs). rewrite lookup_zip_with, Hname, Hleaf in Hper.
  specialize (Hper eq_refl Hcs). eapply Forall2_impl; [exact Hper|].
  intros p call (Hkey & Hscale & Hwidth). cbn [Nat.add] in Hwidth.
  unfold scale_key in *. rewrite concat_two, Htail in *.
  split; [done|]. split; [by rewrite Hkey | done].
Qed.

Lemma quantize_weights_aligned_witness :
  exists calls,
    quantize_weights (weights_scale_factors example_statistics 100) example_model
      (fun i => [8; 6; 4]%Z !! i) = inr calls /\
    (fun call => (call_key call, call_bits call)) <$> calls =
      [("conv.weight", 8); ("conv.bias", 8); ("block.l1.weight", 6); ("digit.weight", 4)]%Z /\
    exists per_leaf, calls = concat per_leaf /\ length per_leaf = 3%nat.
Proof.
  eexists. split; [vm_compute; reflexivity|]. split; [vm_compute; reflexivity|].
  edestruct (quantize_weights_aligned (weights_scale_factors example_statistics 100)
               example_model (fun i => [8; 6; 4]%Z !! i)) as (per & Hc & Hl & _);
    [vm_compute; reflexivity|].
  exists per. split; [exact Hc | exact Hl].
Defined.

(** What can go wrong when the weights are quantized.  A [KeyError] names
    the key of a parameter that is to be quantized (its leaf's path and its
    own name, joined by dots) for which the statistics file has no entry.
    An index error needs a leaf without a width, which does not happen with
    one width per leaf.  And every scale factor that is used comes from an
    entry of the statistics file, and is at most the range recorded there. *)
Theorem quantize_weights_errors (original : list (string * WeightStats)) (std_multiplier : Q)
    (model : list (string * NnModule)) (bits : list Z) :
  length bits = length (get_leaf_modules "" model [] []).1 ->
  let wsf := weights_scale_factors original std_multiplier in
  let result := quantize_weights wsf model (fun i => bits !! i) in
  result <> inl WidthIndexError /\
  (forall key, result = inl (KeyError key) ->
     (key ∉ original.*1) /\
     exists leaf path p,
       leaf_at model path leaf /\ p ∈ quantized_parameters leaf /\
       key = (String.concat "." path ++ "." ++ p.1)%string) /\
  (forall calls call, result = inr calls -> call ∈ calls ->
     exists value,
       (call_key call, value) ∈ original /\
       call_scale call = torch_min (stat_range value) (stat_std value * std_multiplier) /\
       (call_scale call <= stat_range value)%Q).
Proof.
  intros Hbits wsf result. subst result. unfold quantize_weights.
  pose proof (get_leaf_modules_paths model) as Hnames.
  destruct (get_leaf_modules "" model [] []) as [leaves names]. cbn [fst snd] in *.
  pose proof (Forall2_length _ _ _ Hnames) as Hln.
  assert (Hnamed : forall j name leaf,
            zip names leaves !! j = Some (name, leaf) ->
            (j < length leaves)%nat /\
            exists path, leaf_at model path leaf /\ py_tail name = String.concat "." path).
  { intros j name leaf Hj. rewrite lookup_zip_with in Hj.
    destruct (names !! j) as [n|] eqn:Hn; [|done].
    destruct (leaves !! j) as [l|] eqn:Hl; [|done]. injection Hj as -> ->.
    split; [by eapply lookup_lt_Some|].
    by destruct (Forall2_lookup_lr _ _ _ _ _ _ Hnames Hl Hn) as (path & ? & ?); eauto. }
  split; [|split].
  - intros H. apply quantize_leaves_inl in H as (j & name & leaf & Hj & Hnone).
    apply Hnamed in Hj as [Hlt _]. cbn [Nat.add] in Hnone.
    apply lookup_ge_None in Hnone. lia.
  - intros key H. apply quantize_leaves_inl in H as (j & name & leaf & Hj & Hnone & p & Hp & ->).
    apply Hnamed in Hj as (_ & path & Hpath & Htail). split.
    + by apply (scale_factors_foldl original std_multiplier _ ∅) in Hnone as [_ ?].
    + exists leaf, path, p. split; [done|]. split; [done|].
      unfold scale_key. by rewrite concat_two, Htail.
  - intros calls call H Hcall. apply quantize_leaves_inr in H as (per & -> & Hlen & Hper).
    apply elem_of_concat in Hcall as (cs & Hcall & Hcs).
    apply list_elem_of_lookup in Hcs as [j Hcs].
    destruct (zip names leaves !! j) as [[name leaf]|] eqn:Hj.
    2:{ apply lookup_ge_None in Hj. apply lookup_lt_Some in Hcs. lia. }
    specialize (Hper j name leaf cs Hj Hcs).
    apply list_elem_of_lookup in Hcall as [k Hcall].
    destruct (Forall2_lookup_r _ _ _ _ _ Hper Hcall) as (p & _ & Hkey & Hscale & _).
    rewrite <- Hkey in Hscale.
    destruct (scale_factors_foldl original std_multiplier (call_key call) ∅) as [_ Hsome].
    destruct (Hsome _ Hscale) as [Hempty|(value & Hin & Heq)]; [by rewrite lookup_empty in Hempty|].
    exists value. split; [done|]. split; [done|]. rewrite Heq. apply torch_min_le_l.
Qed.

(** With the statistics of the convolution left out, the first parameter to
    be quantized has no scale factor. *)
Lemma quantize_weights_errors_witness :
  quantize_weights (weights_scale_factors (drop 3 example_statistics) 100) example_model
    (fun i => [8; 6; 4]%Z !! i) = inl (KeyError "conv.weight") /\
  ("conv.weight"%string ∉ (drop 3 example_statistics).*1).
Proof.
  split; [vm_compute; reflexivity|].
  destruct (quantize_weights_errors (drop 3 example_statistics) 100 example_model [8; 6; 4]%Z)
    as (_ & Hkey & _); [reflexivity|].
  destruct (Hkey "conv.weight"%string) as [Hnot _]; [vm_compute; reflexivity | exact Hnot].
Defined.

(** ** STEP 4A: the loop of one routing layer *)

Lemma dr_quantization_pos_seq (inp : Inputs) :
  dr_quantization_pos inp = seq 0 (length (filter routes (leaf_children inp))).
Proof.
  unfold dr_quantization_pos, dynamic_routing_quantization, positions_true.
  rewrite length_map. apply positions_all_true.
Qed.

Section Step4aWhile.
Context {St : Type}.
Variable quantized_test : Config -> St -> Q * St.
Variable inp : Inputs.
Variables (w a : list Z) (l : nat) (floor : Q).

Lemma scatter_restore_seq (q : list Z) (p : Q) :
  forall pre old acc (ws : World St),
    length old = length q -> q <> [] ->
    scatter_restore (pre ++ old) (seq (length pre) (length q)) q acc (Some p) ws
      = (Ok (pre ++ q, p), ws).
Proof.
  induction q as [|v q IH]; intros pre old acc ws Hlen Hne; [done|].
  destruct old as [|o old]; [done|]. injection Hlen as Hlen. simpl.
  unfold setitem. rewrite (list_lookup_middle pre old o _ eq_refl).
  unfold bind at 1, ret at 1. unfold bind at 1, ret at 1.
  replace (<[length pre:=v]> (pre ++ o :: old)) with ((pre ++ [v]) ++ old).
  2:{ rewrite <- (assoc_L (++)). replace (length pre) with (length pre + 0)%nat at 1 by lia.
      by rewrite insert_app_r. }
  replace (S (length pre)) with (length (pre ++ [v])) by (rewrite length_app; simpl; lia).
  destruct q as [|v' q].
  - destruct old; [|done]. simpl. by rewrite <- (assoc_L (++)).
  - rewrite (IH (pre ++ [v]) old p ws Hlen ltac:(done)). by rewrite <- (assoc_L (++)).
Qed.

(** A turn entered below the floor puts the layer one bit up again. *)
Lemma step4a_while_rollback fuel (s : Step4aState) (ws : World St) c p :
  (step4a_acc s < floor)%Q -> step4a_acc_prev s = Some p ->
  dr_quantization_bits s !! l = Some c ->
  length (dr_quantization_bits s) = length (filter routes (leaf_children inp)) ->
  length (step4a_dr_bits s) = length (filter routes (leaf_children inp)) ->
  step4a_while quantized_test inp (S fuel) w a l floor s ws =
    (Ok {| dr_quantization_bits := <[l := (c + 1)%Z]> (dr_quantization_bits s);
           step4a_dr_bits := <[l := (c + 1)%Z]> (dr_quantization_bits s);
           step4a_acc := p; step4a_acc_prev := Some p |}, ws).
Proof.
  intros Hlt Hp Hc Hq Hd. simpl. apply Qle_bool_false in Hlt. rewrite Hlt.
  rewrite (bind_Ok _ _ _ _ _ (getitem_Some _ _ _ _ Hc)).
  rewrite dr_quantization_pos_seq, <- Hq, Hp.
  set (q' := <[l := (c + 1)%Z]> (dr_quantization_bits s)).
  assert (Hq' : length q' = length (dr_quantization_bits s)) by (subst q'; apply length_insert).
  rewrite <- Hq'.
  rewrite (bind_Ok _ _ _ _ _
             (scatter_restore_seq q' p [] (step4a_dr_bits s) (step4a_acc s) ws
                ltac:(lia) ltac:(intros E; rewrite E in Hq'; apply lookup_lt_Some in Hc;
                                 simpl in Hq'; lia))).
  done.
Qed.

(** The loop of one routing layer, entered with an accuracy that is not
    below the floor of the layer and with the working vector equal to the
    routing widths.  [pre] are the decrements that stayed at or above the
    floor; [tail] is the decrement that fell below it, if there was one. *)
Lemma step4a_while_run :
  forall fuel (s : Step4aState) (ws : World St) c,
    dr_quantization_bits s !! l = Some c ->
    step4a_dr_bits s = dr_quantization_bits s ->
    length (dr_quantization_bits s) = length (filter routes (leaf_children inp)) ->
    (floor <= step4a_acc s)%Q ->
    (1 <= fuel)%nat -> (Z.to_nat (c - 1) <= fuel)%nat ->
    exists pre tail s1 w1,
      step4a_while quantized_test inp fuel w a l floor s ws = (Ok s1, w1) /\
      log w1 = log ws ++ pre ++ tail /\
      (pre ++ tail).*1 =
        (fun j => mk_config w a (<[l := (c - Z.of_nat j)%Z]> (dr_quantization_bits s)))
          <$> seq 1 (length (pre ++ tail)) /\
      Forall (fun p => (floor <= p.2)%Q) pre /\
      dr_quantization_bits s1 = <[l := (c - Z.of_nat (length pre))%Z]> (dr_quantization_bits s) /\
      step4a_dr_bits s1 = dr_quantization_bits s1 /\
      step4a_acc s1 = default (step4a_acc s) (last pre.*2) /\
      (Z.of_nat (length pre) <= Z.max 0 (c - 2))%Z /\
      ((tail = [] /\ (c - Z.of_nat (length pre) < 3)%Z) \/
       (exists cf af, tail = [(cf, af)] /\ (af < floor)%Q /\
                      (3 <= c - Z.of_nat (length pre))%Z)).
Proof.
  induction fuel as [|fuel IH]; intros s ws c Hc Hdq Hlen Hacc Hf1 Hfuel; [lia|].
  simpl. apply Qle_bool_iff in Hacc. rewrite Hacc. apply Qle_bool_iff in Hacc.
  rewrite (bind_Ok _ _ _ _ _ (getitem_Some _ _ _ _ Hc)).
  assert (Hl : (l < length (dr_quantization_bits s))%nat) by (by eapply lookup_lt_Some).
  destruct (c <? 3)%Z eqn:Ec.
  - apply Z.ltb_lt in Ec. exists [], [], s, ws. simpl.
    rewrite app_nil_r, Z.sub_0_r, list_insert_id by done.
    repeat split; try done; [lia|]. left. split; [done | lia].
  - apply Z.ltb_ge in Ec.
    set (q' := <[l := (c - 1)%Z]> (dr_quantization_bits s)).
    assert (Hq' : length q' = length (dr_quantization_bits s)) by (subst q'; apply length_insert).
    assert (Hsc : scatter (step4a_dr_bits s) (dr_quantization_pos inp) q' ws = (Ok q', ws)).
    { rewrite dr_quantization_pos_seq, <- Hlen, <- Hq'.
      apply (scatter_seq q' [] (step4a_dr_bits s) ws). rewrite Hdq. lia. }
    rewrite (bind_Ok _ _ _ _ _ Hsc).
    set (c1 := mk_config w a q'). unfold bind at 1, evaluate at 1.
    destruct (quantized_test c1 (ost ws)) as [a1 st'].
    set (ws' := Build_World St st' _). set (s' := Build_Step4aState _ _ _ _).
    assert (Hc' : dr_quantization_bits s' !! l = Some (c - 1)%Z).
    { subst s' q'. cbn [dr_quantization_bits]. by apply list_lookup_insert_eq. }
    assert (E1 : forall k : nat,
               <[l := (c - 1 - Z.of_nat k)%Z]> (dr_quantization_bits s')
               = <[l := (c - Z.of_nat (S k))%Z]> (dr_quantization_bits s)).
    { intros k. subst s' q'. cbn [dr_quantization_bits]. rewrite list_insert_insert_eq.
      f_equal. lia. }
    assert (Hlen' : length (dr_quantization_bits s')
                    = length (filter routes (leaf_children inp))).
    { subst s'. cbn [dr_quantization_bits]. by rewrite Hq'. }
    destruct (Qle_bool floor a1) eqn:Ea1.
    + apply Qle_bool_iff in Ea1.
      destruct (IH s' ws' (c - 1)%Z Hc' eq_refl Hlen' Ea1 ltac:(lia) ltac:(lia))
        as (pre & tail & s1 & w1 & Hrun & Hlog & Hcalls & Hpre & Hq1 & Hd1 & Hacc1 & Hn & Hend).
      exists ((c1, a1) :: pre), tail, s1, w1. rewrite Hrun.
      split; [done|]. split; [|split; [|split; [|split; [|split; [|split; [|split]]]]]].
      * rewrite Hlog. subst ws'. cbn [log]. by rewrite <- (assoc_L (++)).
      * rewrite <- app_comm_cons, fmap_cons, Hcalls. cbn [fst length].
        change (seq 1 (S (length (pre ++ tail))))
          with (1%nat :: seq 2 (length (pre ++ tail))).
        rewrite fmap_cons. f_equal.
        rewrite <- (fmap_S_seq 1 (length (pre ++ tail))), <- list_fmap_compose.
        apply list_fmap_ext. intros k j _. unfold compose. by rewrite E1.
      * by constructor.
      * rewrite Hq1. cbn [length]. apply E1.
      * done.
      * rewrite Hacc1. subst s'. cbn [step4a_acc]. rewrite fmap_cons, last_cons.
        cbn [snd]. by destruct (last pre.*2).
      * cbn [length]. lia.
      * cbn [length]. destruct Hend as [[-> Hlt]|(cf & af & -> & Haf & Hge)].
        -- left. split; [done | lia].
        -- right. exists cf, af. split; [done|]. split; [done | lia].
    + apply Qle_bool_false in Ea1.
      destruct fuel as [|fuel]; [lia|].
      rewrite (step4a_while_rollback fuel s' ws' (c - 1)%Z (step4a_acc s) Ea1 eq_refl Hc'
                 Hlen' Hlen').
      exists [], [(c1, a1)]. eexists _, _. split; [done|].
      subst s' q'. cbn [dr_quantization_bits step4a_dr_bits step4a_acc app length fmap
                          list_fmap last default].
      rewrite list_insert_insert_eq. replace (c - 1 + 1)%Z with c by lia.
      rewrite Z.sub_0_r, !list_insert_id by done.
      repeat split; try done; [lia|]. right. exists c1, a1. split; [done|].
      split; [done | lia].
Qed.
End Step4aWhile.

(** STEP 4A spends all of (STEP 3A accuracy - [minimum_accuracy]), one equal
    share per routing layer, and visits the routing layers in position
    order; the floor of a layer is the previous floor minus one share.  For a
    layer entered at or above its floor: its routing width is lowered one bit
    and one oracle call at a time, as long as the accuracy is at or above the
    floor and the width before the decrement is at least 3 (so a routing
    width can reach 2 bits).  A decrement that falls below the floor is
    rolled back by one bit and the accuracy measured before it is restored; a
    loop stopped by the width test keeps its last configuration.  Either way
    the layer ends [length pre] bits lower, with the accuracy measured for
    exactly that configuration, and the next layer starts from there. *)
Theorem step4a_layer {St : Type}
    (quantized_test : Config -> St -> Q * St) (inp : Inputs) (fuel : nat)
    (w a : list Z) (per_step : Q) (l : nat) (rest : list nat) (floor : Q)
    (s : Step4aState) (ws : World St) (c : Z) :
  dr_quantization_bits s !! l = Some c ->
  step4a_dr_bits s = dr_quantization_bits s ->
  length (dr_quantization_bits s) = length (filter routes (leaf_children inp)) ->
  (floor - per_step <= step4a_acc s)%Q ->
  (1 <= fuel)%nat -> (Z.to_nat (c - 1) <= fuel)%nat ->
  (forall cfg acc3 (w0 : World St),
     length (dr_bits cfg) = length (filter routes (leaf_children inp)) ->
     dr_bits cfg <> [] ->
     step4a quantized_test inp fuel cfg acc3 w0 =
       bind (step4a_for quantized_test inp fuel (weight_bits cfg) (act_bits cfg)
               ((acc3 - minimum_accuracy inp) / inject_Z (Z.of_nat (length (dr_bits cfg))))
               (seq 0 (length (dr_bits cfg))) acc3
               {| dr_quantization_bits := dr_bits cfg; step4a_dr_bits := dr_bits cfg;
                  step4a_acc := acc3; step4a_acc_prev := None |})
         (fun s' =>
            bind (wmem_reduction inp (weight_bits cfg))
              (fun reduction =>
                 ret (RetSatisfied
                        {| d_weight_bits := weight_bits cfg; d_act_bits := act_bits cfg;
                           d_dr_bits := step4a_dr_bits s'; d_acc := step4a_acc s';
                           d_wmem_reduction := reduction |}))) w0) /\
  exists pre tail s1 w1,
    step4a_for quantized_test inp fuel w a per_step (l :: rest) floor s ws =
      step4a_for quantized_test inp fuel w a per_step rest (floor - per_step) s1 w1 /\
    log w1 = log ws ++ pre ++ tail /\
    (pre ++ tail).*1 =
      (fun j => mk_config w a (<[l := (c - Z.of_nat j)%Z]> (dr_quantization_bits s)))
        <$> seq 1 (length (pre ++ tail)) /\
    Forall (fun p => (floor - per_step <= p.2)%Q) pre /\
    dr_quantization_bits s1 = <[l := (c - Z.of_nat (length pre))%Z]> (dr_quantization_bits s) /\
    step4a_dr_bits s1 = dr_quantization_bits s1 /\
    step4a_acc s1 = default (step4a_acc s) (last pre.*2) /\
    (floor - per_step <= step4a_acc s1)%Q /\
    (Z.of_nat (length pre) <= Z.max 0 (c - 2))%Z /\
    ((tail = [] /\ (c - Z.of_nat (length pre) < 3)%Z) \/
     (exists cf af, tail = [(cf, af)] /\ (af < floor - per_step)%Q /\
                    (3 <= c - Z.of_nat (length pre))%Z)).
Proof.
  intros Hc Hdq Hlen Hacc Hf1 Hfuel. split.
  { intros cfg acc3 w0 Hcfg Hne. unfold step4a.
    rewrite dr_quantization_pos_seq, <- Hcfg.
    rewrite (bind_Ok _ _ _ _ _ (gather_seq (dr_bits cfg) [] w0)).
    assert (Hnz : ~ (inject_Z (Z.of_nat (length (dr_bits cfg))) == 0)%Q).
    { apply inject_Z_nonzero. destruct (dr_bits cfg); [done | simpl; lia]. }
    by rewrite (bind_Ok _ _ _ _ _ (truediv_nonzero _ _ w0 Hnz)). }
  destruct (step4a_while_run quantized_test inp w a l (floor - per_step)%Q fuel s ws c
              Hc Hdq Hlen Hacc Hf1 Hfuel)
    as (pre & tail & s1 & w1 & Hrun & Hlog & Hcalls & Hpre & Hq1 & Hd1 & Hacc1 & Hn & Hend).
  exists pre, tail, s1, w1. cbn [step4a_for]. rewrite (bind_Ok _ _ _ _ _ Hrun).
  split; [done|]. split; [done|]. split; [done|]. split; [done|]. split; [done|].
  split; [done|]. split; [done|]. split; [|done].
  rewrite Hacc1.
  by apply (default_last_Forall (fun q => (floor - per_step <= q)%Q)); [|apply Forall_fmap].
Qed.

(** The routing layer of [one_layer] in the run of [oracle_four]: STEP 4A
    starts from 4 bits with a floor of 90; the decrements to 3 and to 2 bits
    both measure 100, and the width test stops the loop at 2 bits. *)
Lemma step4a_layer_witness :
  (100 - 10 <= 100)%Q /\
  exists pre tail s1 w1,
    step4a_for (pure_oracle oracle_four) one_layer 10 [40]%Z [2]%Z 10 [0%nat] 100
      {| dr_quantization_bits := [4]%Z; step4a_dr_bits := [4]%Z; step4a_acc := 100;
         step4a_acc_prev := None |} (start tt) = (Ok s1, w1) /\
    (pre ++ tail).*1 =
      (fun j => mk_config [40]%Z [2]%Z (<[0%nat := (4 - Z.of_nat j)%Z]> [4]%Z))
        <$> seq 1 (length (pre ++ tail)) /\
    dr_quantization_bits s1 = <[0%nat := (4 - Z.of_nat (length pre))%Z]> [4]%Z /\
    step4a_dr_bits s1 = [2]%Z /\
    ((tail = [] /\ (4 - Z.of_nat (length pre) < 3)%Z) \/
     (exists cf af, tail = [(cf, af)] /\ (af < 100 - 10)%Q /\
                    (3 <= 4 - Z.of_nat (length pre))%Z)).
Proof.
  assert (Hacc : (100 - 10 <= 100)%Q) by (by vm_compute).
  split; [exact Hacc|].
  destruct (step4a_layer (pure_oracle oracle_four) one_layer 10 [40]%Z [2]%Z 10 0%nat [] 100
              {| dr_quantization_bits := [4]%Z; step4a_dr_bits := [4]%Z; step4a_acc := 100;
                 step4a_acc_prev := None |} (start tt) 4%Z
              eq_refl eq_refl eq_refl Hacc ltac:(lia) ltac:(vm_compute; lia))
    as (_ & pre & tail & s1 & w1 & Hrun & _ & Hcalls & _ & Hq & Hd & _ & _ & _ & Hend).
  exists pre, tail, s1, w1. cbn [step4a_for] in Hrun.
  split; [exact Hrun|]. split; [exact Hcalls|]. split; [exact Hq|]. split; [|exact Hend].
  vm_compute in Hrun. by injection Hrun as <- _.
Defined.
